(** * TrueSkill rating engine (trueskill_simple/core.py): model and properties

    A shallow embedding of [trueskill_project/trueskill_simple/core.py].

    Numbers.  Python floats are modelled by the real numbers [R] of the
    Standard Library: [math.exp], [math.sqrt] and [math.pi] are [exp], [sqrt]
    and [PI]; [math.erf] is the error function, defined below by its integral.
    Rounding, overflow and NaN are outside the model.

    Objects.  [Player] objects are mutated in place and may be shared between
    teams, so teams are lists of references into a heap of players, and every
    method of [TrueSkillEnv] is a computation over a [World] holding the
    environment object ([self]) and that heap.  A Python exception aborts the
    computation and keeps the mutations done so far. *)

From Stdlib Require Import Reals Lra Lia List ZArith Permutation Sorted.
From Stdlib Require Import FunctionalExtensionality.
From stdpp Require Import gmap strings.
From Corelib Require PrimFloat.
Import ListNotations.
Open Scope R_scope.

(** ** The error function *)

Module Erf.

(** The integrand of [erf]. *)
Definition gauss (u : R) : R := exp (- (u * u)).

Lemma gauss_continuity : continuity gauss.
Proof.
  unfold gauss.
  apply (continuity_comp (fun u => - (u * u)) exp).
  - apply continuity_opp. apply continuity_mult; apply derivable_continuous, derivable_id.
  - apply derivable_continuous, derivable_exp.
Qed.

Lemma gauss_pos u : 0 < gauss u.
Proof. apply exp_pos. Qed.

Lemma gauss_le_1 u : gauss u <= 1.
Proof.
  unfold gauss. rewrite <- exp_0.
  destruct (Req_dec (u * u) 0) as [E|E].
  - rewrite E, Ropp_0. lra.
  - left. apply exp_increasing. nra.
Qed.

(** [gauss] decreases with the absolute value of its argument. *)
Lemma gauss_antitone u1 u2 : u1 * u1 <= u2 * u2 -> gauss u2 <= gauss u1.
Proof.
  intros H. unfold gauss.
  destruct (Req_dec (u1 * u1) (u2 * u2)) as [E|E].
  - rewrite E. lra.
  - left. apply exp_increasing. lra.
Qed.

(** A function continuous everywhere is integrable on every interval,
    whatever the order of its ends. *)
Definition cont_integrable (f : R -> R) (Hc : continuity f) (a b : R)
  : Riemann_integrable f a b :=
  match Rle_dec a b with
  | left h => continuity_implies_RiemannInt h (fun x _ => Hc x)
  | right h =>
      RiemannInt_P1
        (continuity_implies_RiemannInt
           (Rlt_le _ _ (Rnot_le_lt _ _ h)) (fun x _ => Hc x))
  end.

(** The integral from [a] to [b] of a function continuous everywhere. *)
Definition cont_int (f : R -> R) (Hc : continuity f) (a b : R) : R :=
  RiemannInt (cont_integrable f Hc a b).

(** The integral of [gauss] from [a] to [b]. *)
Definition gauss_int (a b : R) : R := cont_int gauss gauss_continuity a b.

(** [math.erf]: erf(x) = 2/sqrt(pi) * integral from 0 to x of exp(-u^2) du. *)
Definition erf (x : R) : R := 2 / sqrt PI * gauss_int 0 x.

End Erf.

(** ** Normal pdf/cdf helpers *)

Definition _SQRT_2PI : R := sqrt (2 * PI).
Definition _SQRT2 : R := sqrt 2.

Definition _phi (x : R) : R := exp (- 0.5 * x * x) / _SQRT_2PI.

Definition _Phi (x : R) : R := 0.5 * (1 + Erf.erf (x / _SQRT2)).

Definition _v_truncate (t : R) : R :=
  let denom := _Phi t in
  if Rlt_dec denom 1e-12 then - t else _phi t / denom.

Definition _w_truncate (t : R) : R :=
  let v := _v_truncate t in
  v * (v + t).

Definition _v_draw (t eps : R) : R :=
  let a := - eps - t in
  let b := eps - t in
  let denom := _Phi b - _Phi a in
  if Rlt_dec denom 1e-12 then 0 else (_phi a - _phi b) / denom.

Definition _w_draw (t eps : R) : R :=
  let a := - eps - t in
  let b := eps - t in
  let denom := _Phi b - _Phi a in
  if Rlt_dec denom 1e-12 then 0
  else
    let v := _v_draw t eps in
    v * v + (b * _phi b - a * _phi a) / denom.

(** The [for _ in range(n)] loop of [_draw_margin]: [n] bisection steps on
    the bracket [(lo, hi)]. *)
Fixpoint bisect (n : nat) (target lo hi : R) : R * R :=
  match n with
  | O => (lo, hi)
  | S n' =>
      let mid := (lo + hi) / 2 in
      if Rlt_dec (_Phi mid) target
      then bisect n' target mid hi
      else bisect n' target lo mid
  end.

Definition _draw_margin (beta draw_probability : R) : R :=
  let target := (draw_probability + 1) / 2 in
  let '(lo, hi) := bisect 80 target (-10) 10 in
  let z := (lo + hi) / 2 in
  z * sqrt 2 * beta.

(** ** Data model *)

(** A reference to a [Player] object. *)
Abbreviation loc := nat (only parsing).

Record Player : Type := mkPlayer {
  name : string;
  mu : R;
  sigma : R
}.

Record EPUpdateReport : Type := mkReport {
  rep_is_draw : bool;
  rep_eps : R;
  rep_c : R;
  rep_t : R;
  rep_v : R;
  rep_w : R;
  rep_team_winner : list string;
  rep_team_loser : list string;
  rep_delta_mu : gmap string R;
  rep_new_sigma : gmap string R
}.

(** The attributes of a [TrueSkillEnv] object. *)
Record TrueSkillEnv : Type := mkEnv {
  mu0 : R;
  sigma0 : R;
  beta : R;
  tau : R;
  draw_probability : R;
  trust : R;
  eps : R
}.

(** [TrueSkillEnv.__init__]. *)
Definition TrueSkillEnv_init (mu0 sigma0 beta tau draw_probability trust : R)
  : TrueSkillEnv :=
  {| mu0 := mu0; sigma0 := sigma0; beta := beta; tau := tau;
     draw_probability := draw_probability; trust := trust;
     eps := _draw_margin beta draw_probability |}.

(** The environment built by [TrueSkillEnv()], all arguments defaulted. *)
Definition default_env : TrueSkillEnv :=
  TrueSkillEnv_init 25 (25 / 3) (25 / 6) (25 / 300) 0.10 0.

(** ** Worlds, exceptions and the computation monad *)

Definition Heap : Type := loc -> Player.

Definition heap_set (h : Heap) (p : loc) (P : Player) : Heap :=
  fun q => if Nat.eq_dec q p then P else h q.

(** [self] is the environment object, [heap] the players, [next] the first
    reference not yet handed out by [make_player]. *)
Record World : Type := mkWorld {
  self : TrueSkillEnv;
  heap : Heap;
  next : loc
}.

Inductive Exception : Type :=
| ValueError (msg : string)
| ZeroDivisionError.

Inductive Outcome (A : Type) : Type :=
| Return (a : A)
| Raise (e : Exception).
Arguments Return {A} a.
Arguments Raise {A} e.

Definition M (A : Type) : Type := World -> Outcome A * World.

Definition ret {A} (a : A) : M A := fun W => (Return a, W).

Definition raise {A} (e : Exception) : M A := fun W => (Raise e, W).

Definition bind {A B} (m : M A) (k : A -> M B) : M B :=
  fun W =>
    match m W with
    | (Return a, W') => k a W'
    | (Raise e, W') => (Raise e, W')
    end.

Notation "x <- m ;; k" := (bind m (fun x => k))
  (at level 100, m at next level, right associativity).
Notation "m ;;; k" := (bind m (fun _ => k))
  (at level 100, right associativity).

Definition get_self : M TrueSkillEnv := fun W => (Return (self W), W).

Definition get_heap : M Heap := fun W => (Return (heap W), W).

Definition read (p : loc) : M Player := fun W => (Return (heap W p), W).

Definition write (p : loc) (P : Player) : M unit :=
  fun W =>
    (Return tt, {| self := self W; heap := heap_set (heap W) p P; next := next W |}).

(** A [for x in l: body] loop. *)
Fixpoint for_ {A} (l : list A) (body : A -> M unit) : M unit :=
  match l with
  | [] => ret tt
  | x :: l' => body x ;;; for_ l' body
  end.

(** A [for x in l] loop that carries local variables [s]. *)
Fixpoint for_acc {A S} (l : list A) (body : S -> A -> M S) (s : S) : M S :=
  match l with
  | [] => ret s
  | x :: l' => s' <- body s x ;; for_acc l' body s'
  end.

(** [math.sqrt] raises on a negative argument. *)
Definition math_sqrt (x : R) : M R :=
  if Rlt_dec x 0 then raise (ValueError "math domain error") else ret (sqrt x).

(** Float division raises on a zero divisor. *)
Definition py_div (x y : R) : M R :=
  if Req_dec_T y 0 then raise ZeroDivisionError
  else ret (x / y).

(** [sum(f(p) for p in team)]. *)
Definition sum_over (h : Heap) (f : Player -> R) (team : list loc) : R :=
  fold_left (fun acc p => acc + f (h p)) team 0.

(** Python's [sorted(l, key=key)]: a stable sort, here by insertion. *)
Fixpoint insert_by (key : nat -> Z) (x : nat) (l : list nat) : list nat :=
  match l with
  | [] => [x]
  | y :: l' =>
      if decide (key x <= key y)%Z then x :: y :: l' else y :: insert_by key x l'
  end.

Definition sorted (l : list nat) (key : nat -> Z) : list nat :=
  foldr (insert_by key) [] l.

(** ** TrueSkillEnv *)

Definition make_player (name : string) : M loc :=
  fun W =>
    let P := {| name := name; mu := mu0 (self W); sigma := sigma0 (self W) |} in
    (Return (next W),
     {| self := self W; heap := heap_set (heap W) (next W) P; next := S (next W) |}).

(** The argument of [math.sqrt] is a sum of two squares: it cannot raise. *)
Definition _apply_drift (player : loc) : M unit :=
  slf <- get_self ;;
  P <- read player ;;
  write player
    {| name := name P; mu := mu P;
       sigma := sqrt (sigma P * sigma P + tau slf * tau slf) |}.

(** One iteration of the two update loops of [_rate_two_teams]; [winner]
    tells which loop.  [dicts] are the locals [delta_mu] and [new_sigma].
    The divisions by [c] and [c * c] cannot raise: [c] is not zero once
    [t] has been computed; nor can [math.sqrt], its argument being at least
    [1e-9]. *)
Definition update_player (winner : bool) (c v w : R)
    (dicts : gmap string R * gmap string R) (p : loc)
  : M (gmap string R * gmap string R) :=
  P <- read p ;;
  let sigma2 := sigma P * sigma P in
  let old_mu := mu P in
  let new_mu :=
    if winner then mu P + (sigma2 / c) * v else mu P - (sigma2 / c) * v in
  write p {| name := name P; mu := new_mu; sigma := sigma P |} ;;;
  let sigma' := sqrt (Rmax 1e-9 (sigma2 * (1 - (sigma2 / (c * c)) * w))) in
  write p {| name := name P; mu := new_mu; sigma := sigma' |} ;;;
  ret (<[name P := new_mu - old_mu]> (fst dicts),
       <[name P := sigma']> (snd dicts)).

(** The performance noise accumulated over one team. *)
Definition add_perf_noise (slf : TrueSkillEnv) (h : Heap) (team : list loc)
    (perf_noise : R) : R :=
  fold_left
    (fun acc p =>
       acc + (beta slf * beta slf + trust slf * (sigma (h p) * sigma (h p))))
    team perf_noise.

(** The argument of [math.sqrt] in [c]: both teams' variances plus the
    performance noise. *)
Definition pair_variance (slf : TrueSkillEnv) (h : Heap)
    (team_winner team_loser : list loc) : R :=
  let sig2_w := sum_over h (fun P => sigma P * sigma P) team_winner in
  let sig2_l := sum_over h (fun P => sigma P * sigma P) team_loser in
  let perf_noise :=
    add_perf_noise slf h team_loser (add_perf_noise slf h team_winner 0) in
  sig2_w + sig2_l + perf_noise.

Definition _rate_two_teams (team_winner team_loser : list loc)
    (is_draw collect : bool) : M (option EPUpdateReport) :=
  slf <- get_self ;;
  h <- get_heap ;;
  let mu_w := sum_over h mu team_winner in
  let mu_l := sum_over h mu team_loser in
  c <- math_sqrt (pair_variance slf h team_winner team_loser) ;;
  t <- py_div (mu_w - mu_l) c ;;
  let v := if is_draw then _v_draw t (eps slf / c) else _v_truncate t in
  let w := if is_draw then _w_draw t (eps slf / c) else _w_truncate t in
  dicts <- for_acc team_winner (update_player true c v w) (∅, ∅) ;;
  dicts <- for_acc team_loser (update_player false c v w) dicts ;;
  if negb collect then ret None
  else
    h' <- get_heap ;;
    ret (Some
           {| rep_is_draw := is_draw;
              rep_eps := eps slf;
              rep_c := c;
              rep_t := t;
              rep_v := v;
              rep_w := w;
              rep_team_winner := map (fun p => name (h' p)) team_winner;
              rep_team_loser := map (fun p => name (h' p)) team_loser;
              rep_delta_mu := fst dicts;
              rep_new_sigma := snd dicts |}).

(** The values of the locals [c] and [t] of [_rate_two_teams] when it is
    entered with heap [h]. *)
Definition pair_c (slf : TrueSkillEnv) (h : Heap)
    (team_winner team_loser : list loc) : R :=
  sqrt (pair_variance slf h team_winner team_loser).

Definition pair_t (slf : TrueSkillEnv) (h : Heap)
    (team_winner team_loser : list loc) : R :=
  (sum_over h mu team_winner - sum_over h mu team_loser)
  / pair_c slf h team_winner team_loser.

(** The loop body of the free-for-all branch of [rate], for index [i] of
    [order]. *)
Definition rate_adjacent (teams : list (list loc)) (ranks : list Z)
    (return_report : bool) (order : list nat)
    (reports : list EPUpdateReport) (i : nat) : M (list EPUpdateReport) :=
  let a := nth i order O in
  let b := nth (i + 1) order O in
  let ra := nth a ranks 0%Z in
  let rb := nth b ranks 0%Z in
  rep <- _rate_two_teams (nth a teams []) (nth b teams [])
           (bool_decide (ra = rb)) return_report ;;
  match rep with
  | Some r => ret (reports ++ [r])
  | None => ret reports
  end.

(** [[rep] if return_report and rep else None]: a report object is always
    truthy. *)
Definition report_list (return_report : bool) (rep : option EPUpdateReport)
  : option (list EPUpdateReport) :=
  if return_report then
    match rep with
    | Some r => Some [r]
    | None => None
    end
  else None.

Definition rate (teams : list (list loc)) (ranks : list Z)
    (return_report : bool) : M (option (list EPUpdateReport)) :=
  if decide (length teams <> length ranks)
  then raise (ValueError "teams and ranks must have same length")
  else if decide (length teams < 2)%nat
  then raise (ValueError "Need at least 2 teams")
  else
    for_ teams (fun team => for_ team _apply_drift) ;;;
    if decide (2 < length teams)%nat then
      let order :=
        sorted (seq 0 (length teams)) (fun i => nth i ranks 0%Z) in
      reports <- for_acc (seq 0 (length order - 1))
                   (rate_adjacent teams ranks return_report order) [] ;;
      ret (if return_report then Some reports else None)
    else
      let is_draw := bool_decide (nth 0 ranks 0%Z = nth 1 ranks 0%Z) in
      if is_draw then
        rep <- _rate_two_teams (nth 0 teams []) (nth 1 teams []) true
                 return_report ;;
        ret (report_list return_report rep)
      else
        let winner_first :=
          bool_decide (nth 0 ranks 0%Z < nth 1 ranks 0%Z)%Z in
        rep <- (if winner_first
                then _rate_two_teams (nth 0 teams []) (nth 1 teams []) false
                       return_report
                else _rate_two_teams (nth 1 teams []) (nth 0 teams []) false
                       return_report) ;;
        ret (report_list return_report rep).

(** ** Histories of calls on one environment *)

Inductive Call : Type :=
| CallMakePlayer (name : string)
| CallRate (teams : list (list loc)) (ranks : list Z) (return_report : bool).

(** The world after one call, whether it returned or raised. *)
Definition step (W : World) (call : Call) : World :=
  match call with
  | CallMakePlayer n => snd (make_player n W)
  | CallRate teams ranks return_report => snd (rate teams ranks return_report W)
  end.

Definition run (W : World) (calls : list Call) : World :=
  fold_left step calls W.

(** The world just after [TrueSkillEnv(...)]: no player exists yet. *)
Definition initial_world (env : TrueSkillEnv) (h : Heap) : World :=
  {| self := env; heap := h; next := O |}.

(** ** Definitions used in the statements *)

(** A heap in which no player has been created. *)
Definition no_players : Heap := fun _ => {| name := ""; mu := 0; sigma := 0 |}.

(** The world after [env.make_player("A")] and [env.make_player("B")]. *)
Definition two_fresh_players (env : TrueSkillEnv) : World :=
  run (initial_world env no_players) [CallMakePlayer "A"; CallMakePlayer "B"].

(** The world after [env.make_player("A")] called twice: two players, one
    name. *)
Definition two_namesakes (env : TrueSkillEnv) : World :=
  run (initial_world env no_players) [CallMakePlayer "A"; CallMakePlayer "A"].

(** The world after [make_player] for "A", "B" and "C". *)
Definition three_fresh_players (env : TrueSkillEnv) : World :=
  run (initial_world env no_players)
    [CallMakePlayer "A"; CallMakePlayer "B"; CallMakePlayer "C"].

(** [TrueSkillEnv(sigma0=1e-5, tau=0.0)]: a prior below the variance floor. *)
Definition tiny_sigma_env : TrueSkillEnv :=
  TrueSkillEnv_init 25 1e-5 (25 / 6) 0 0.10 0.

(** [TrueSkillEnv(sigma0=0.5)]: a small prior, the default drift. *)
Definition half_sigma_env : TrueSkillEnv :=
  TrueSkillEnv_init 25 0.5 (25 / 6) (25 / 300) 0.10 0.

(** [preserves I m]: the world property [I] survives [m], whether [m]
    returns or raises. *)
Definition preserves {A} (I : World -> Prop) (m : M A) : Prop :=
  forall W, I W -> I (snd (m W)).

(** Every player handed out by [make_player] has a positive sigma. *)
Definition sigma_invariant (W : World) : Prop :=
  forall p, (p < next W)%nat -> 0 < sigma (heap W p).

(** The environment and the names of the players, kept by every step. *)
Definition same_env_and_names (slf : TrueSkillEnv) (h0 : Heap) (W : World) : Prop :=
  self W = slf /\ forall q, name (heap W q) = name (h0 q).

(** The player that [_apply_drift] writes back. *)
Definition drifted (slf : TrueSkillEnv) (P : Player) : Player :=
  {| name := name P; mu := mu P;
     sigma := sqrt (sigma P * sigma P + tau slf * tau slf) |}.

(** The world after the drift of every player of [team], in order. *)
Definition drift_team (W : World) (team : list loc) : World :=
  fold_left
    (fun W p =>
       {| self := self W; heap := heap_set (heap W) p (drifted (self W) (heap W p));
          next := next W |})
    team W.

(** The player that one iteration of an update loop writes back. *)
Definition updated (winner : bool) (c v w : R) (P : Player) : Player :=
  {| name := name P;
     mu := if winner then mu P + (sigma P * sigma P / c) * v
           else mu P - (sigma P * sigma P / c) * v;
     sigma := sqrt (Rmax 1e-9 (sigma P * sigma P
                               * (1 - (sigma P * sigma P / (c * c)) * w))) |}.

(** The entries one iteration adds to [delta_mu] and [new_sigma]. *)
Definition record_update (winner : bool) (c v w : R) (h : Heap)
    (d : gmap string R * gmap string R) (p : loc)
  : gmap string R * gmap string R :=
  (<[name (h p) := mu (updated winner c v w (h p)) - mu (h p)]> (fst d),
   <[name (h p) := sigma (updated winner c v w (h p))]> (snd d)).

(** [a] may come just before [b] in a stable sort by [key] of increasing
    indices. *)
Definition stable_before (key : nat -> Z) (a b : nat) : Prop :=
  (key a < key b)%Z \/ (key a = key b /\ (a < b)%nat).

(** The adjacent pairs [(a, b)] of a list of team indices. *)
Definition adjacent_pairs (order : list nat) : list (nat * nat) :=
  combine order (tl order).

(** The pairwise update the specification prescribes for the adjacent pair
    [(a, b)]: team [a] as winner, team [b] as loser, a draw exactly when
    their ranks are equal; its report, if any, is appended. *)
Definition rate_pair (teams : list (list loc)) (ranks : list Z)
    (return_report : bool) (reports : list EPUpdateReport) (ab : nat * nat)
  : M (list EPUpdateReport) :=
  rep <- _rate_two_teams (nth (fst ab) teams []) (nth (snd ab) teams [])
           (bool_decide (nth (fst ab) ranks 0%Z = nth (snd ab) ranks 0%Z))
           return_report ;;
  ret (reports ++ match rep with Some r => [r] | None => [] end).

(** The free-for-all case as the specification words it: drift everyone,
    sort the team indices by rank, update each adjacent pair in turn. *)
Definition free_for_all_spec (teams : list (list loc)) (ranks : list Z)
    (return_report : bool) : M (option (list EPUpdateReport)) :=
  for_ teams (fun team => for_ team _apply_drift) ;;;
  reports <- for_acc
               (adjacent_pairs
                  (sorted (seq 0 (length teams)) (fun i => nth i ranks 0%Z)))
               (rate_pair teams ranks return_report) [] ;;
  ret (if return_report then Some reports else None).

(** What the report of the pair [(a, b)] must say; [h] gives the names. *)
Definition report_of_pair (teams : list (list loc)) (ranks : list Z) (h : Heap)
    (ab : nat * nat) (rep : EPUpdateReport) : Prop :=
  rep_is_draw rep = bool_decide (nth (fst ab) ranks 0%Z = nth (snd ab) ranks 0%Z) /\
  rep_team_winner rep = map (fun p => name (h p)) (nth (fst ab) teams []) /\
  rep_team_loser rep = map (fun p => name (h p)) (nth (snd ab) teams []).

(** What a call does apart from the value it returns: the exception it
    raises, if any, and the world it leaves. *)
Definition effect {A} (m : M A) (W : World) : option Exception * World :=
  (match fst (m W) with
   | Raise e => Some e
   | Return _ => None
   end,
   snd (m W)).

(** [rates p call]: the call is a [rate] that lists player [p]. *)
Definition rates (p : loc) (call : Call) : Prop :=
  match call with
  | CallMakePlayer _ => False
  | CallRate teams _ _ => exists team, In team teams /\ In p team
  end.

(** ** examples/simulate_1v1.py

    The simulation driver: three players, and a loop of one-versus-one
    matches whose pairing and performances are drawn at random.  The values
    the random generator returns are inputs of the model. *)

Module Simulate1v1.

(** The exceptions the loop could raise: those of the engine, and those of
    a dictionary lookup and of the subscript [[0]]. *)
Inductive SimException : Type :=
| EngineException (e : Exception)
| KeyError (key : string)
| TypeError
| IndexError.

(** [play_match]; [pa] and [pb] are the two values of [random.gauss]. *)
Definition play_match (pa pb beta : R) : Z :=
  let diff := pa - pb in
  let eps := 0.1 * beta in
  if Rle_dec (Rabs diff) eps then 2%Z
  else if Rgt_dec diff 0 then 0%Z else 1%Z.

(** A dictionary in insertion order. *)
Fixpoint dict_get {V} (d : list (string * V)) (key : string) : option V :=
  match d with
  | [] => None
  | (k, v) :: d' => if String.eqb k key then Some v else dict_get d' key
  end.

(** [d[key] = v] for a key that is present. *)
Fixpoint dict_set {V} (d : list (string * V)) (key : string) (v : V)
  : list (string * V) :=
  match d with
  | [] => [(key, v)]
  | (k, v0) :: d' =>
      if String.eqb k key then (k, v) :: d' else (k, v0) :: dict_set d' key v
  end.

(** [history[name]] holds the two lists ["mu"] and ["sigma"]. *)
Definition History : Type := list (string * (list R * list R)).

(** The locals of [main] that the loop updates. *)
Record Sim : Type := mkSim {
  history : History;
  ep_reports : list EPUpdateReport
}.

(** What the random generator returns in one iteration: the pair chosen by
    [random.choice] and the two performances. *)
Record Draw : Type := mkDraw {
  choice : string * string;
  perf_a : R;
  perf_b : R
}.

Definition pairs : list (string * string) :=
  [("Alice", "Bob"); ("Alice", "Clara"); ("Bob", "Clara")].

(** [rate(...)[0]]. *)
Definition subscript0 (r : option (list EPUpdateReport))
  : SimException + EPUpdateReport :=
  match r with
  | None => inl TypeError
  | Some [] => inl IndexError
  | Some (rep :: _) => inr rep
  end.

(** The loop [for name, p in players.items()] that appends the current mu
    and sigma of every player to the history; a missing key stops it where
    it is. *)
Fixpoint record_history (h : Heap) (players : list (string * loc)) (hist : History)
  : (SimException + unit) * History :=
  match players with
  | [] => (inr tt, hist)
  | (name, p) :: players' =>
      match dict_get hist name with
      | None => (inl (KeyError name), hist)
      | Some (mus, sigmas) =>
          record_history h players'
            (dict_set hist name (mus ++ [mu (h p)], sigmas ++ [sigma (h p)]))
      end
  end.

(** One iteration of the loop of [main]. *)
Definition match_step (players : list (string * loc)) (d : Draw)
    (W : World) (sim : Sim) : (SimException + unit) * World * Sim :=
  let '(a_name, b_name) := choice d in
  match dict_get players a_name with
  | None => (inl (KeyError a_name), W, sim)
  | Some A =>
      match dict_get players b_name with
      | None => (inl (KeyError b_name), W, sim)
      | Some B =>
          let outcome := play_match (perf_a d) (perf_b d) (beta (self W)) in
          let ranks :=
            if Z.eqb outcome 0 then [0%Z; 1%Z]
            else if Z.eqb outcome 1 then [1%Z; 0%Z]
            else [0%Z; 0%Z] in
          match rate [[A]; [B]] ranks true W with
          | (Raise e, W') => (inl (EngineException e), W', sim)
          | (Return r, W') =>
              match subscript0 r with
              | inl e => (inl e, W', sim)
              | inr report =>
                  let reports := ep_reports sim ++ [report] in
                  let '(res, hist) :=
                    record_history (heap W') players (history sim) in
                  (res, W', {| history := hist; ep_reports := reports |})
              end
          end
      end
  end.

(** The loop [for _ in range(n_matches)], one [Draw] per iteration. *)
Fixpoint match_loop (players : list (string * loc)) (draws : list Draw)
    (W : World) (sim : Sim) : (SimException + unit) * World * Sim :=
  match draws with
  | [] => (inr tt, W, sim)
  | d :: draws' =>
      match match_step players d W sim with
      | (inl e, W', sim') => (inl e, W', sim')
      | (inr _, W', sim') => match_loop players draws' W' sim'
      end
  end.

(** [main] up to the end of its loop: the environment, the three players,
    the dictionaries and the matches. *)
Definition main (draws : list Draw) : (SimException + unit) * World * Sim :=
  let env := TrueSkillEnv_init 25 (25 / 3) (25 / 6) (25 / 300) 0.10 0 in
  let W0 := initial_world env no_players in
  let nothing := {| history := []; ep_reports := [] |} in
  match make_player "Alice" W0 with
  | (Raise e, W1) => (inl (EngineException e), W1, nothing)
  | (Return alice, W1) =>
      match make_player "Bob" W1 with
      | (Raise e, W2) => (inl (EngineException e), W2, nothing)
      | (Return bob, W2) =>
          match make_player "Clara" W2 with
          | (Raise e, W3) => (inl (EngineException e), W3, nothing)
          | (Return clara, W3) =>
              let players :=
                [(name (heap W3 alice), alice); (name (heap W3 bob), bob);
                 (name (heap W3 clara), clara)] in
              let hist := map (fun np => (fst np, ([], []))) players in
              match_loop players draws W3 {| history := hist; ep_reports := [] |}
          end
      end
  end.

(** What the report of one iteration must say, given its draw. *)
Definition report_of_draw (beta : R) (d : Draw) (rep : EPUpdateReport) : Prop :=
  let diff := perf_a d - perf_b d in
  (Rabs diff <= 0.1 * beta ->
   rep_is_draw rep = true /\
   rep_team_winner rep = [fst (choice d)] /\
   rep_team_loser rep = [snd (choice d)]) /\
  (0.1 * beta < diff ->
   rep_is_draw rep = false /\
   rep_team_winner rep = [fst (choice d)] /\
   rep_team_loser rep = [snd (choice d)]) /\
  (diff < - (0.1 * beta) ->
   rep_is_draw rep = false /\
   rep_team_winner rep = [snd (choice d)] /\
   rep_team_loser rep = [fst (choice d)]).

(** The dictionary [players] of [main]: the three players in the order of
    their creation. *)
Definition main_players : list (string * loc) :=
  [("Alice", 0%nat); ("Bob", 1%nat); ("Clara", 2%nat)].

(** The state of the loop of [main] after [k] iterations: the environment
    has the default [beta] and [trust], the three players bear their names,
    and each history list has [k] entries. *)
Definition loop_invariant (k : nat) (W : World) (sim : Sim) : Prop :=
  beta (self W) = 25 / 6 /\ trust (self W) = 0 /\
  name (heap W 0%nat) = "Alice" /\ name (heap W 1%nat) = "Bob" /\
  name (heap W 2%nat) = "Clara" /\
  exists ma sa mb sb mc sc,
    history sim = [("Alice", (ma, sa)); ("Bob", (mb, sb)); ("Clara", (mc, sc))] /\
    length ma = k /\ length sa = k /\ length mb = k /\ length sb = k /\
    length mc = k /\ length sc = k.

End Simulate1v1.

(** ** The sigma arithmetic in binary64

    Python's floats are IEEE-754 binary64 numbers.  The definitions above
    compute with real numbers; the ones below are the expressions of the
    source that write a sigma or compute [c], with the operations of
    binary64, to evaluate them where rounding decides. *)

Module Binary64.
Import PrimFloat.
#[local] Set Warnings "-inexact-float".
#[local] Open Scope float_scope.

(** The sigma [_apply_drift] assigns to a player. *)
Definition drift_sigma (sigma tau : float) : float :=
  sqrt (sigma * sigma + tau * tau).

(** [sum(p.sigma * p.sigma for p in team)]; a team is given by the sigmas
    of its players. *)
Definition sum_sq (team : list float) : float :=
  fold_left (fun acc sigma => acc + sigma * sigma) team 0.

(** One of the two loops that accumulate [perf_noise]. *)
Definition add_perf_noise (beta trust : float) (team : list float)
    (perf_noise : float) : float :=
  fold_left
    (fun acc sigma => acc + (beta * beta + trust * (sigma * sigma)))
    team perf_noise.

(** The local [c] of [_rate_two_teams]. *)
Definition c (beta trust : float) (team_winner team_loser : list float) : float :=
  sqrt (sum_sq team_winner + sum_sq team_loser
        + add_perf_noise beta trust team_loser
            (add_perf_noise beta trust team_winner 0)).

(** The local [target] of [_draw_margin]. *)
Definition draw_margin_target (draw_probability : float) : float :=
  (draw_probability + 1) / 2.

(** [math.pi], and the module constant [_SQRT_2PI]. *)
Definition pi : float := 0x1.921fb54442d18p+1.

Definition _SQRT_2PI : float := sqrt (2 * pi).

(** [_phi(0.0)] and [_Phi(0.0)]: [math.exp(-0.0)] is [1.0] and
    [math.erf(0.0)] is [0.0]. *)
Definition _phi_at_0 : float := 1 / _SQRT_2PI.

Definition _Phi_at_0 : float := 0.5 * (1 + 0).

(** [_v_truncate(0.0)] and [_w_truncate(0.0)], the moments of a win/loss
    update between teams of equal mean. *)
Definition _v_truncate_at_0 : float :=
  if _Phi_at_0 <? 1e-12 then - 0 else _phi_at_0 / _Phi_at_0.

Definition _w_truncate_at_0 : float :=
  _v_truncate_at_0 * (_v_truncate_at_0 + 0).

(** Python's [max(a, b)] of two floats: [b] when [b > a], else [a]. *)
Definition max (a b : float) : float := if a <? b then b else a.

(** The mu and the sigma that an update loop of [_rate_two_teams] assigns
    to a player. *)
Definition new_mu_winner (mu sigma c v : float) : float :=
  mu + (sigma * sigma / c) * v.

Definition new_mu_loser (mu sigma c v : float) : float :=
  mu - (sigma * sigma / c) * v.

Definition new_sigma (sigma c w : float) : float :=
  sqrt (max 1e-9 (sigma * sigma * (1 - (sigma * sigma / (c * c)) * w))).

End Binary64.

(** ** Facts about the error function *)

Module ErfFacts.
Import Erf.

Lemma gauss_int_refl a : gauss_int a a = 0.
Proof. unfold gauss_int, cont_int. apply RiemannInt_P9. Qed.

Lemma gauss_int_chasles a b c : gauss_int a b + gauss_int b c = gauss_int a c.
Proof. unfold gauss_int, cont_int. apply RiemannInt_P26. Qed.

Lemma gauss_int_lower a b l :
  a <= b -> (forall u, a < u < b -> l <= gauss u) -> l * (b - a) <= gauss_int a b.
Proof.
  intros Hab Hl. unfold gauss_int, cont_int.
  apply (RiemannInt_const_bound (u := 1)
           (cont_integrable gauss gauss_continuity a b) Hab).
  intros u Hu. split; [now apply Hl | apply gauss_le_1].
Qed.

(** On [a, b] the integrand is at least its value at [|a| + |b|]. *)
Lemma gauss_int_pos a b : a < b -> 0 < gauss_int a b.
Proof.
  intros Hab.
  apply Rlt_le_trans with (gauss (Rabs a + Rabs b) * (b - a)).
  - apply Rmult_lt_0_compat; [apply gauss_pos | lra].
  - apply gauss_int_lower; [lra|].
    intros u Hu. apply gauss_antitone.
    unfold Rabs. destruct (Rcase_abs a), (Rcase_abs b); nra.
Qed.

Lemma two_over_sqrt_PI_pos : 0 < 2 / sqrt PI.
Proof.
  apply Rdiv_lt_0_compat; [lra|]. apply sqrt_lt_R0, PI_RGT_0.
Qed.

Lemma erf_0 : erf 0 = 0.
Proof. unfold erf. rewrite gauss_int_refl. ring. Qed.

Lemma erf_increasing x y : x < y -> erf x < erf y.
Proof.
  intros Hxy. unfold erf.
  rewrite <- (gauss_int_chasles 0 x y).
  pose proof (gauss_int_pos x y Hxy).
  pose proof two_over_sqrt_PI_pos. nra.
Qed.

Lemma erf_neg x : x < 0 -> erf x < 0.
Proof. intros H. rewrite <- erf_0. now apply erf_increasing. Qed.

Lemma erf_pos x : 0 < x -> 0 < erf x.
Proof. intros H. rewrite <- erf_0. now apply erf_increasing. Qed.

(** The integrand decreases on [0, x], so the integral is at least the area
    of the rectangle under its last value. *)
Lemma erf_lower x : 0 <= x -> 2 / sqrt PI * (gauss x * x) <= erf x.
Proof.
  intros Hx. unfold erf.
  apply Rmult_le_compat_l; [left; apply two_over_sqrt_PI_pos|].
  replace (gauss x * x) with (gauss x * (x - 0)) by ring.
  apply gauss_int_lower; [assumption|].
  intros u Hu. apply gauss_antitone. nra.
Qed.

End ErfFacts.

(** ** The tail of the Gaussian integral

    The bound [sqrt PI / 2 - gauss_int 0 y <= gauss y / (2 y)] for [y > 0],
    from Wallis' integrals: it is what makes the win/loss moment [w]
    non-negative. *)

Module GaussTail.
Import Erf.

(** The fundamental theorem of calculus on an interval: the integral of
    [f] is the increase of any [g] with derivative [f] there. *)
Lemma FTC_interval f g a b (pr : Riemann_integrable f a b) :
  a <= b ->
  (forall x, a <= x <= b -> continuity_pt f x) ->
  (forall x, a <= x <= b -> derivable_pt_lim g x (f x)) ->
  RiemannInt pr = g b - g a.
Proof.
  intros Hab Hc Hd.
  rewrite (RiemannInt_P20 Hab (FTC_P1 Hab Hc) pr).
  pose proof (RiemannInt_P29 Hab Hc) as Hprim.
  assert (Hg : antiderivative f g a b).
  { split; [|exact Hab]. intros x Hx.
    exists (exist _ (f x) (Hd x Hx)). reflexivity. }
  destruct (antiderivative_Ucte f _ _ a b Hprim Hg) as [c Hcst].
  rewrite (Hcst b), (Hcst a) by lra. ring.
Qed.

Lemma cont_int_FTC f Hc g a b :
  a <= b ->
  (forall x, a <= x <= b -> derivable_pt_lim g x (f x)) ->
  cont_int f Hc a b = g b - g a.
Proof.
  intros Hab Hd. unfold cont_int. apply FTC_interval; auto.
Qed.

Lemma cont_int_ext f g Hf Hg a b :
  a <= b -> (forall x, a < x < b -> f x = g x) ->
  cont_int f Hf a b = cont_int g Hg a b.
Proof. intros Hab H. unfold cont_int. now apply RiemannInt_P18. Qed.

Lemma cont_int_le f g Hf Hg a b :
  a <= b -> (forall x, a < x < b -> f x <= g x) ->
  cont_int f Hf a b <= cont_int g Hg a b.
Proof. intros Hab H. unfold cont_int. now apply RiemannInt_P19. Qed.

(** Linearity of the integral. *)
Lemma cont_int_lin f g (l : R) (Hf : continuity f) (Hg : continuity g)
    (Hfg : continuity (fun x => f x + l * g x)) a b :
  cont_int (fun x => f x + l * g x) Hfg a b
  = cont_int f Hf a b + l * cont_int g Hg a b.
Proof. unfold cont_int. apply RiemannInt_P13. Qed.

Lemma cont_int_irrel f H1 H2 a b : cont_int f H1 a b = cont_int f H2 a b.
Proof. unfold cont_int. apply RiemannInt_P5. Qed.

Lemma dl_eq f x l l' : derivable_pt_lim f x l -> l = l' -> derivable_pt_lim f x l'.
Proof. intros H <-. exact H. Qed.

(** Linear change of variable. *)
Lemma cont_int_scale f k b (Hf : continuity f)
    (Hfk : continuity (fun x => f (x / k))) :
  0 < k -> 0 <= b ->
  cont_int (fun x => f (x / k)) Hfk 0 (k * b) = k * cont_int f Hf 0 b.
Proof.
  intros Hk Hb.
  assert (C0 : forall x, 0 <= x <= b -> continuity_pt f x) by (intros; apply Hf).
  set (Q := primitive Hb (FTC_P1 Hb C0)).
  assert (HQ : cont_int f Hf 0 b = Q b - Q 0).
  { unfold cont_int, Q. apply RiemannInt_P20. }
  rewrite HQ.
  rewrite (cont_int_FTC _ Hfk (fun x => k * Q (x / k))).
  - replace (k * b / k) with b by (field; lra).
    replace (0 / k) with 0 by (field; lra). ring.
  - apply Rmult_le_pos; lra.
  - intros x Hx.
    assert (Hxk : 0 <= x / k <= b).
    { split.
      - apply Rmult_le_pos; [lra|]. left. now apply Rinv_0_lt_compat.
      - apply Rmult_le_reg_r with k; [lra|].
        unfold Rdiv. rewrite Rmult_assoc, Rinv_l by lra. lra. }
    pose proof (RiemannInt_P28 Hb C0 Hxk) as HdQ. fold Q in HdQ.
    assert (Hin : derivable_pt_lim (fun x => x / k) x (/ k)).
    { apply (derivable_pt_lim_ext (fun x => / k * id x)%R).
      - intros z. unfold id. field. lra.
      - eapply dl_eq.
        + apply (derivable_pt_lim_scal id (/ k) x 1). apply derivable_pt_lim_id.
        + ring. }
    pose proof (derivable_pt_lim_comp _ _ _ _ _ Hin HdQ) as Hcomp.
    pose proof (derivable_pt_lim_scal _ k _ _ Hcomp) as Hs.
    eapply dl_eq; [exact Hs | field; lra].
Qed.

Lemma cont_int_scal f (l : R) (Hf : continuity f)
    (Hlf : continuity (fun x => l * f x)) a b :
  a <= b -> cont_int (fun x => l * f x) Hlf a b = l * cont_int f Hf a b.
Proof.
  intros Hab.
  assert (H0 : continuity (fct_cte 0)).
  { apply continuity_const. intros x y. reflexivity. }
  assert (H1 : continuity (fun x => fct_cte 0 x + l * f x)).
  { apply continuity_plus; [exact H0|]. exact Hlf. }
  rewrite (cont_int_ext _ (fun x => fct_cte 0 x + l * f x) Hlf H1) by
    (auto; intros; unfold fct_cte; ring).
  rewrite (cont_int_lin (fct_cte 0) f l H0 Hf H1).
  unfold cont_int at 1. rewrite RiemannInt_P15. ring.
Qed.

Lemma cont_int_lin2 f g (k l : R) (Hf : continuity f) (Hg : continuity g)
    (H : continuity (fun x => k * f x + l * g x)) a b :
  a <= b ->
  cont_int (fun x => k * f x + l * g x) H a b
  = k * cont_int f Hf a b + l * cont_int g Hg a b.
Proof.
  intros Hab.
  assert (Hkf : continuity (fun x => k * f x)).
  { apply (continuity_scal f k Hf). }
  rewrite (cont_int_lin (fun x => k * f x) g l Hkf Hg H).
  now rewrite (cont_int_scal f k Hf Hkf).
Qed.

(** ** Wallis integrals *)

Lemma dl_continuity f f' : (forall x, derivable_pt_lim f x (f' x)) -> continuity f.
Proof.
  intros H x. apply derivable_continuous_pt. exists (f' x). apply H.
Qed.

(** Derivative of a power of a function. *)
Lemma dl_pow f x l n :
  derivable_pt_lim f x l ->
  derivable_pt_lim (fun u => f u ^ n) x (INR n * f x ^ pred n * l).
Proof.
  intros Hf.
  pose proof (derivable_pt_lim_comp f (fun y => y ^ n) x l _ Hf
                (derivable_pt_lim_pow (f x) n)) as H.
  exact H.
Qed.

(** The polynomials [(1 - u^2)^n] and their integrals over [[0, 1]]. *)
Definition q (n : nat) (u : R) : R := (1 - u * u) ^ n.

Lemma dl_one_minus_sq x : derivable_pt_lim (fun u => 1 - u * u) x (- (2 * x)).
Proof.
  eapply dl_eq.
  - apply (derivable_pt_lim_minus (fct_cte 1) (fun u => u * u) x 0 (1 * x + x * 1)).
    + apply derivable_pt_lim_const.
    + apply (derivable_pt_lim_mult id id x 1 1); apply derivable_pt_lim_id.
  - ring.
Qed.

Lemma dl_q n x :
  derivable_pt_lim (q n) x (INR n * (1 - x * x) ^ pred n * - (2 * x)).
Proof. unfold q. apply (dl_pow (fun u => 1 - u * u)). apply dl_one_minus_sq. Qed.

Lemma q_continuity n : continuity (q n).
Proof. eapply dl_continuity. intros x. apply dl_q. Qed.

Definition J (n : nat) : R := cont_int (q n) (q_continuity n) 0 1.

Lemma J_0 : J 0 = 1.
Proof.
  unfold J. rewrite (cont_int_FTC _ _ id); [unfold id; lra | lra |].
  intros x _. unfold q. simpl. apply derivable_pt_lim_id.
Qed.

(** Integrating the derivative of [u (1 - u^2)^(n+1)]. *)
Lemma J_rec n : (2 * INR n + 3) * J (S n) = (2 * INR n + 2) * J n.
Proof.
  set (f := fun u => (2 * INR n + 3) * q (S n) u + - (2 * INR n + 2) * q n u).
  assert (Hf : continuity f).
  { unfold f. apply continuity_plus; apply continuity_scal; apply q_continuity. }
  assert (E : cont_int f Hf 0 1 = 0).
  { rewrite (cont_int_FTC _ _ (fun u => u * q (S n) u)); [unfold q; simpl; ring | lra |].
    intros x _. eapply dl_eq.
    - apply (derivable_pt_lim_mult id (q (S n)) x 1 _ (derivable_pt_lim_id x) (dl_q (S n) x)).
    - unfold f, q, id. rewrite S_INR. simpl. ring. }
  unfold f in E.
  rewrite (cont_int_lin2 (q (S n)) (q n) _ _ (q_continuity (S n)) (q_continuity n)) in E by lra.
  fold (J (S n)) in E. fold (J n) in E. lra.
Qed.

(** The powers of [sin] and their integrals over [[0, PI / 2]]. *)
Definition sinpow (n : nat) (x : R) : R := sin x ^ n.

Lemma dl_sinpow n x :
  derivable_pt_lim (sinpow n) x (INR n * sin x ^ pred n * cos x).
Proof. unfold sinpow. apply (dl_pow sin). apply derivable_pt_lim_sin. Qed.

Lemma sinpow_continuity n : continuity (sinpow n).
Proof. eapply dl_continuity. intros x. apply dl_sinpow. Qed.

Definition W (n : nat) : R := cont_int (sinpow n) (sinpow_continuity n) 0 (PI / 2).

Lemma PI2_pos : 0 <= PI / 2.
Proof. pose proof PI_RGT_0. lra. Qed.

Lemma W_0 : W 0 = PI / 2.
Proof.
  unfold W. rewrite (cont_int_FTC _ _ id); [unfold id; lra | apply PI2_pos |].
  intros x _. unfold sinpow. simpl. apply derivable_pt_lim_id.
Qed.

Lemma W_1 : W 1 = 1.
Proof.
  unfold W. rewrite (cont_int_FTC _ _ (fun x => - cos x)).
  - rewrite cos_PI2, cos_0. ring.
  - apply PI2_pos.
  - intros x _. eapply dl_eq.
    + apply (derivable_pt_lim_opp cos x _ (derivable_pt_lim_cos x)).
    + unfold sinpow. simpl. ring.
Qed.

(** Integrating the derivative of [- cos x (sin x)^(n+1)]. *)
Lemma W_rec n : (INR n + 2) * W (S (S n)) = (INR n + 1) * W n.
Proof.
  set (f := fun x => (INR n + 2) * sinpow (S (S n)) x + - (INR n + 1) * sinpow n x).
  assert (Hf : continuity f).
  { unfold f. apply continuity_plus; apply continuity_scal; apply sinpow_continuity. }
  assert (E : cont_int f Hf 0 (PI / 2) = 0).
  { rewrite (cont_int_FTC _ _ (fun x => - cos x * sinpow (S n) x)).
    - unfold sinpow. rewrite cos_PI2, sin_0. simpl. ring.
    - apply PI2_pos.
    - intros x _. eapply dl_eq.
      + apply (derivable_pt_lim_mult (fun x => - cos x) (sinpow (S n)) x _ _
                 (derivable_pt_lim_opp cos x _ (derivable_pt_lim_cos x))
                 (dl_sinpow (S n) x)).
      + unfold f, sinpow. rewrite S_INR. simpl.
        pose proof (sin2_cos2 x) as Hsc. unfold Rsqr in Hsc.
        apply Rminus_diag_uniq.
        transitivity ((sin x * sin x + cos x * cos x - 1)
                      * (- (INR n + 1) * sin x ^ n)); [ring|].
        rewrite Hsc. ring. }
  unfold f in E.
  rewrite (cont_int_lin2 (sinpow (S (S n))) (sinpow n) _ _
             (sinpow_continuity (S (S n))) (sinpow_continuity n)) in E
    by apply PI2_pos.
  fold (W (S (S n))) in E. fold (W n) in E. lra.
Qed.

Lemma W_decreasing n : W (S n) <= W n.
Proof.
  unfold W. apply cont_int_le; [apply PI2_pos|].
  intros x Hx. unfold sinpow. simpl.
  assert (0 <= sin x) by (apply sin_ge_0; pose proof PI_RGT_0; lra).
  pose proof (SIN_bound x) as [_ Hs1].
  assert (0 <= sin x ^ n) by now apply pow_le.
  nra.
Qed.

Lemma J_pos n : 0 < J n.
Proof.
  induction n as [|n IH]; [rewrite J_0; lra|].
  pose proof (J_rec n) as E. pose proof (pos_INR n).
  assert (0 < (2 * INR n + 3) * J (S n)) by (rewrite E; nra).
  nra.
Qed.

Lemma INR_2n1 n : INR (2 * n + 1) = 2 * INR n + 1.
Proof. rewrite plus_INR, mult_INR. simpl. lra. Qed.

Lemma INR_2n2 n : INR (2 * n + 2) = 2 * INR n + 2.
Proof. rewrite plus_INR, mult_INR. simpl. lra. Qed.

Lemma J_W n : J n = W (2 * n + 1).
Proof.
  induction n as [|n IH].
  { rewrite J_0. change (2 * 0 + 1)%nat with 1%nat. now rewrite W_1. }
  pose proof (J_rec n) as EJ.
  pose proof (W_rec (2 * n + 1)) as EW.
  replace (S (S (2 * n + 1))) with (2 * S n + 1)%nat in EW by lia.
  rewrite INR_2n1 in EW.
  rewrite <- IH in EW. pose proof (pos_INR n).
  apply Rmult_eq_reg_l with (2 * INR n + 3); [|lra].
  rewrite EJ. lra.
Qed.

(** Wallis: the product of two consecutive integrals. *)
Lemma W_product n : (2 * INR n + 2) * W (2 * n + 1) * W (2 * n + 2) = PI / 2.
Proof.
  induction n as [|n IH].
  - change (2 * 0 + 1)%nat with 1%nat. change (2 * 0 + 2)%nat with 2%nat.
    rewrite W_1. pose proof (W_rec 0) as E. simpl in E. rewrite W_0 in E.
    simpl. lra.
  - pose proof (W_rec (2 * n + 1)) as E1.
    pose proof (W_rec (2 * n + 2)) as E2.
    replace (S (S (2 * n + 1))) with (2 * S n + 1)%nat in E1 by lia.
    replace (S (S (2 * n + 2))) with (2 * S n + 2)%nat in E2 by lia.
    rewrite INR_2n1 in E1. rewrite INR_2n2 in E2.
    rewrite S_INR. pose proof (pos_INR n).
    set (a := W (2 * n + 1)) in *. set (b := W (2 * n + 2)) in *.
    set (a' := W (2 * S n + 1)) in *. set (b' := W (2 * S n + 2)) in *.
    assert (Ea : a' = (2 * INR n + 2) / (2 * INR n + 3) * a).
    { apply Rmult_eq_reg_l with (2 * INR n + 3); [|lra].
      field_simplify; [|lra]. lra. }
    assert (Eb : b' = (2 * INR n + 3) / (2 * INR n + 4) * b).
    { apply Rmult_eq_reg_l with (2 * INR n + 4); [|lra].
      field_simplify; [|lra]. lra. }
    rewrite Ea, Eb, <- IH. field. lra.
Qed.

Lemma J_sq_lower n : PI / (4 * (INR n + 1)) <= J n * J n.
Proof.
  pose proof (W_product n) as P. pose proof (J_pos n) as Hpos.
  pose proof (W_decreasing (2 * n + 1)) as Hd.
  replace (S (2 * n + 1)) with (2 * n + 2)%nat in Hd by lia.
  rewrite <- J_W in P, Hd. pose proof (pos_INR n) as Hn.
  assert (H : PI / 2 <= (2 * INR n + 2) * (J n * J n)).
  { rewrite <- P. rewrite Rmult_assoc.
    apply Rmult_le_compat_l; [lra|].
    apply Rmult_le_compat_l; lra. }
  apply Rmult_le_reg_l with (4 * (INR n + 1)); [lra|].
  replace (4 * (INR n + 1) * (PI / (4 * (INR n + 1)))) with PI by (field; lra).
  lra.
Qed.

(** ** The Gaussian integral from below *)

Lemma dl_gauss x : derivable_pt_lim gauss x (gauss x * - (2 * x)).
Proof.
  unfold gauss.
  eapply dl_eq.
  - apply (derivable_pt_lim_comp (fun u => - (u * u)) exp x (- (1 * x + x * 1))
             (exp (- (x * x)))).
    + apply (derivable_pt_lim_opp (fun u => u * u)).
      apply (derivable_pt_lim_mult id id x 1 1); apply derivable_pt_lim_id.
    + apply derivable_pt_lim_exp.
  - ring.
Qed.

(** The integral of [gauss] from 0. *)
Definition G (x : R) : R := gauss_int 0 x.

Lemma exp_pow_INR a n : exp a ^ n = exp (INR n * a).
Proof.
  induction n as [|n IH].
  - simpl. rewrite Rmult_0_l, exp_0. reflexivity.
  - rewrite S_INR. simpl. rewrite IH, <- exp_plus. f_equal. ring.
Qed.

(** [(1 - x^2/n)^n <= exp(-x^2)] on [[0, sqrt n]]. *)
Lemma q_le_gauss n x :
  (0 < n)%nat -> 0 <= x <= sqrt (INR n) -> q n (x / sqrt (INR n)) <= gauss x.
Proof.
  intros Hn [Hx0 Hx1].
  assert (Hn' : 0 < INR n) by now apply lt_0_INR.
  assert (Hs : 0 < sqrt (INR n)) by now apply sqrt_lt_R0.
  assert (Hss : sqrt (INR n) * sqrt (INR n) = INR n) by (apply sqrt_sqrt; lra).
  unfold q, gauss.
  replace (x / sqrt (INR n) * (x / sqrt (INR n))) with (x * x / INR n).
  2:{ rewrite <- Hss at 1. field. lra. }
  replace (- (x * x)) with (INR n * (- (x * x / INR n))) by (field; lra).
  rewrite <- exp_pow_INR. apply pow_incr. split.
  - assert (x * x <= INR n) by nra.
    assert (x * x / INR n <= 1).
    { apply Rmult_le_reg_r with (INR n); [lra|].
      unfold Rdiv. rewrite Rmult_assoc, Rinv_l by lra. lra. }
    lra.
  - pose proof (exp_ineq1_le (- (x * x / INR n))). lra.
Qed.

Lemma G_sqrt_lower n : (0 < n)%nat -> sqrt (INR n) * J n <= G (sqrt (INR n)).
Proof.
  intros Hn.
  assert (Hn' : 0 < INR n) by now apply lt_0_INR.
  assert (Hs : 0 < sqrt (INR n)) by now apply sqrt_lt_R0.
  assert (Hc : continuity (fun x => q n (x / sqrt (INR n)))).
  { apply (continuity_comp (fun x => x / sqrt (INR n)) (q n)); [|apply q_continuity].
    apply (dl_continuity _ (fun _ => / sqrt (INR n))). intros x.
    apply (derivable_pt_lim_ext (fun x => / sqrt (INR n) * id x)%R).
    - intros z. unfold id. field. lra.
    - eapply dl_eq.
      + apply (derivable_pt_lim_scal id (/ sqrt (INR n)) x 1). apply derivable_pt_lim_id.
      + ring. }
  unfold J, G, gauss_int.
  rewrite <- (cont_int_scale (q n) (sqrt (INR n)) 1 (q_continuity n) Hc) by lra.
  rewrite Rmult_1_r.
  apply cont_int_le; [lra|].
  intros x Hx. apply q_le_gauss; [exact Hn | lra].
Qed.

Lemma G_sq_lower n :
  (0 < n)%nat -> PI / 4 * (1 - / (INR n + 1)) <= G (sqrt (INR n)) * G (sqrt (INR n)).
Proof.
  intros Hn.
  assert (Hn' : 0 < INR n) by now apply lt_0_INR.
  assert (Hs : 0 < sqrt (INR n)) by now apply sqrt_lt_R0.
  assert (Hss : sqrt (INR n) * sqrt (INR n) = INR n) by (apply sqrt_sqrt; lra).
  pose proof (G_sqrt_lower n Hn) as HG. pose proof (J_pos n) as HJ.
  pose proof (J_sq_lower n) as HJ2.
  assert (H1 : INR n * (J n * J n) <= G (sqrt (INR n)) * G (sqrt (INR n))).
  { replace (INR n * (J n * J n)) with ((sqrt (INR n) * J n) * (sqrt (INR n) * J n))
      by (rewrite <- Hss at 3; ring).
    assert (0 <= sqrt (INR n) * J n) by nra.
    apply Rmult_le_compat; lra. }
  eapply Rle_trans; [|exact H1].
  eapply Rle_trans; [|apply Rmult_le_compat_l; [lra | exact HJ2]].
  right. field. lra.
Qed.

(** ** The tail bound *)

Lemma dl_G c : 0 < c -> derivable_pt_lim G c (gauss c).
Proof.
  intros Hc.
  assert (h : 0 <= c + 1) by lra.
  assert (C0 : forall x, 0 <= x <= c + 1 -> continuity_pt gauss x)
    by (intros; apply gauss_continuity).
  apply (derivable_pt_lim_locally_ext (primitive h (FTC_P1 h C0)) G c 0 (c + 1)).
  - lra.
  - intros z Hz. unfold primitive, G, gauss_int, cont_int.
    destruct (Rle_dec 0 z) as [H0|H0]; [|lra].
    destruct (Rle_dec z (c + 1)) as [H1|H1]; [|lra].
    apply RiemannInt_P5.
  - apply RiemannInt_P27. lra.
Qed.

(** [G u + gauss u / (2 u)] decreases on the positive reals. *)
Lemma tail_monotone y z :
  0 < y <= z -> G z + gauss z / (2 * z) <= G y + gauss y / (2 * y).
Proof.
  intros [Hy [Hyz|<-]]; [|lra].
  set (D := fun u => G u + gauss u / (2 * u)).
  set (D' := fun u => - (gauss u / (2 * (u * u)))).
  destruct (MVT_cor2 D D' y z Hyz) as (c & E & Hc).
  - intros c Hc. assert (Hc0 : 0 < c) by lra. unfold D, D'.
    assert (H2 : derivable_pt_lim (fun u => 2 * u) c 2).
    { eapply dl_eq.
      - apply (derivable_pt_lim_scal id 2 c 1). apply derivable_pt_lim_id.
      - ring. }
    pose proof (derivable_pt_lim_div gauss (fun u => 2 * u) c _ _ (dl_gauss c) H2
                  ltac:(lra)) as Hdiv.
    pose proof (derivable_pt_lim_plus G _ c _ _ (dl_G c Hc0) Hdiv) as Hsum.
    eapply dl_eq; [exact Hsum|].
    unfold Rsqr. field. lra.
  - fold (D z). fold (D y).
    assert (D' c * (z - y) <= 0).
    { unfold D'. assert (0 < gauss c / (2 * (c * c))).
      { apply Rdiv_lt_0_compat; [apply gauss_pos | nra]. }
      nra. }
    lra.
Qed.

Lemma sqrt_PI_bounds : 1 < sqrt PI <= 2.
Proof.
  split.
  - rewrite <- sqrt_1. apply sqrt_lt_1_alt. pose proof PI2_1. lra.
  - replace 2 with (sqrt (2 * 2)) by (apply sqrt_square; lra).
    apply sqrt_le_1_alt. pose proof PI_4. lra.
Qed.

(** The tail bound: the integral of [gauss] beyond [y] is at most
    [gauss y / (2 y)]. *)
Theorem gauss_tail y : 0 < y -> sqrt PI / 2 - G y <= gauss y / (2 * y).
Proof.
  intros Hy.
  destruct (Rle_lt_dec (sqrt PI / 2 - G y) (gauss y / (2 * y))) as [H|H]; [exact H|].
  exfalso.
  set (d := sqrt PI / 2 - G y - gauss y / (2 * y)).
  assert (Hd : 0 < d) by (unfold d; lra).
  destruct (INR_unbounded (y * y + / d + 1)) as [n Hn].
  assert (Hdi : 0 < / d) by now apply Rinv_0_lt_compat.
  assert (Hn0 : (0 < n)%nat).
  { apply INR_lt. simpl. nra. }
  assert (Hsn : y <= sqrt (INR n)).
  { rewrite <- (sqrt_square y) by lra. apply sqrt_le_1_alt. nra. }
  pose proof (tail_monotone y (sqrt (INR n)) (conj Hy Hsn)) as Ht.
  assert (Hs0 : 0 < sqrt (INR n)) by lra.
  assert (Hg : 0 < gauss (sqrt (INR n)) / (2 * sqrt (INR n))).
  { apply Rdiv_lt_0_compat; [apply gauss_pos | lra]. }
  pose proof (G_sqrt_lower n Hn0) as HG. pose proof (J_pos n) as HJ.
  assert (HG0 : 0 < G (sqrt (INR n))) by nra.
  pose proof (G_sq_lower n Hn0) as HG2.
  pose proof sqrt_PI_bounds as [Hp1 Hp2].
  assert (Hpp : sqrt PI * sqrt PI = PI) by (apply sqrt_sqrt; pose proof PI_RGT_0; lra).
  set (s := sqrt PI) in *. set (g := G (sqrt (INR n))) in *.
  assert (Hgd : g <= s / 2 - d) by (unfold d; lra).
  assert (Hsq : g * g <= (s / 2 - d) * (s / 2 - d)) by nra.
  assert (Hn1 : 0 < INR n + 1) by (pose proof (pos_INR n); lra).
  assert (Hk : PI / 4 * / (INR n + 1) >= d * (s / 2)).
  { assert (PI / 4 - PI / 4 * / (INR n + 1) <= (s / 2 - d) * (s / 2 - d)) by lra.
    assert (d <= s / 2) by lra.
    nra. }
  assert (Hk2 : d * (INR n + 1) <= s / 2).
  { assert (PI / 4 >= d * (s / 2) * (INR n + 1)).
    { apply Rle_ge. apply Rmult_le_reg_r with (/ (INR n + 1)).
      - now apply Rinv_0_lt_compat.
      - rewrite Rmult_assoc, Rinv_r by lra. lra. }
    rewrite <- Hpp in H0. nra. }
  assert (Hk3 : INR n + 1 <= / d).
  { apply Rmult_le_reg_l with d; [lra|]. rewrite Rinv_r by lra. lra. }
  pose proof (Rle_0_sqr y) as Hy2. unfold Rsqr in Hy2. lra.
Qed.

(** ** Symmetry *)

Lemma G_0 : G 0 = 0.
Proof. unfold G, gauss_int, cont_int. apply RiemannInt_P9. Qed.

(** [G] has derivative [gauss] everywhere. *)
Lemma dl_G_all c : derivable_pt_lim G c (gauss c).
Proof.
  assert (h : c - 1 <= c + 1) by lra.
  assert (C0 : forall x, c - 1 <= x <= c + 1 -> continuity_pt gauss x)
    by (intros; apply gauss_continuity).
  set (P := primitive h (FTC_P1 h C0)).
  set (k := cont_int gauss gauss_continuity (c - 1) 0).
  apply (derivable_pt_lim_locally_ext (fun z => P z - fct_cte k z) G c (c - 1) (c + 1)).
  - lra.
  - intros z Hz. unfold P, primitive, G, k, fct_cte, gauss_int, cont_int.
    destruct (Rle_dec (c - 1) z) as [H0|H0]; [|lra].
    destruct (Rle_dec z (c + 1)) as [H1|H1]; [|lra].
    rewrite <- (RiemannInt_P26 (cont_integrable gauss gauss_continuity (c - 1) 0)
                  (cont_integrable gauss gauss_continuity 0 z)
                  (FTC_P1 h C0 H0 H1)).
    ring.
  - eapply dl_eq.
    + apply (derivable_pt_lim_minus P (fct_cte k) c (gauss c) 0).
      * apply RiemannInt_P27. lra.
      * apply derivable_pt_lim_const.
    + ring.
Qed.

Lemma gauss_even u : gauss (- u) = gauss u.
Proof. unfold gauss. f_equal. ring. Qed.

Lemma G_odd y : G (- y) = - G y.
Proof.
  assert (Hgen : forall y, 0 <= y -> G (- y) = - G y).
  { clear y. intros y Hy.
    unfold G at 1. unfold gauss_int, cont_int.
    rewrite (RiemannInt_P8 _ (cont_integrable gauss gauss_continuity (- y) 0)).
    f_equal.
    rewrite (FTC_interval gauss (fun x => - G (- x))).
    - rewrite Ropp_0, G_0, Ropp_involutive. ring.
    - lra.
    - intros; apply gauss_continuity.
    - intros x _. eapply dl_eq.
      + apply (derivable_pt_lim_opp (fun x => G (- x)) x (gauss (- x) * -1)).
        apply (derivable_pt_lim_comp (fun x => - x) G x (-1) (gauss (- x))).
        * eapply dl_eq.
          -- apply (derivable_pt_lim_opp id x 1). apply derivable_pt_lim_id.
          -- ring.
        * apply dl_G_all.
      + rewrite gauss_even. ring. }
  destruct (Rle_lt_dec 0 y) as [H|H]; [now apply Hgen|].
  rewrite <- (Ropp_involutive y) at 2.
  rewrite (Hgen (- y)) by lra. ring.
Qed.

End GaussTail.

(** ** The normal density and distribution function *)

Lemma sqrt2_pos : 0 < _SQRT2.
Proof. apply sqrt_lt_R0. lra. Qed.

Lemma sqrt_2PI_pos : 0 < _SQRT_2PI.
Proof. apply sqrt_lt_R0. pose proof PI_RGT_0. lra. Qed.

Lemma phi_pos x : 0 < _phi x.
Proof.
  unfold _phi. apply Rdiv_lt_0_compat; [apply exp_pos | apply sqrt_2PI_pos].
Qed.

Lemma phi_0 : _phi 0 = / _SQRT_2PI.
Proof.
  unfold _phi. replace (- 0.5 * 0 * 0) with 0 by ring. rewrite exp_0.
  unfold Rdiv. ring.
Qed.

Lemma Phi_0 : _Phi 0 = 1 / 2.
Proof.
  unfold _Phi. replace (0 / _SQRT2) with 0 by (unfold Rdiv; ring).
  rewrite ErfFacts.erf_0. lra.
Qed.

Lemma Phi_increasing x y : x < y -> _Phi x < _Phi y.
Proof.
  intros Hxy. unfold _Phi.
  assert (x / _SQRT2 < y / _SQRT2).
  { apply Rmult_lt_compat_r; [apply Rinv_0_lt_compat, sqrt2_pos | assumption]. }
  pose proof (ErfFacts.erf_increasing _ _ H). lra.
Qed.

Lemma Phi_neg x : x < 0 -> _Phi x < 1 / 2.
Proof. intros H. rewrite <- Phi_0. now apply Phi_increasing. Qed.

Lemma Phi_nonneg_arg x : 0 <= x -> 1 / 2 <= _Phi x.
Proof.
  intros [H|<-]; [|rewrite Phi_0; lra].
  rewrite <- Phi_0. left. now apply Phi_increasing.
Qed.

(** Mills' ratio: [phi t / Phi t >= - t]. *)
Lemma mills_ratio t : 0 <= _phi t + t * _Phi t.
Proof.
  assert (Hpi : 0 < PI) by apply PI_RGT_0.
  assert (Hsp : 0 < sqrt PI) by now apply sqrt_lt_R0.
  assert (Hs2 : 0 < sqrt 2) by (apply sqrt_lt_R0; lra).
  assert (Hs2s : sqrt 2 * sqrt 2 = 2) by (apply sqrt_sqrt; lra).
  pose proof (phi_pos t) as Hphi.
  destruct (Rle_lt_dec 0 t) as [Ht|Ht].
  - pose proof (Phi_nonneg_arg t Ht). nra.
  - set (y := (- t) * / sqrt 2).
    assert (Hy : 0 < y).
    { unfold y. apply Rmult_lt_0_compat; [lra | now apply Rinv_0_lt_compat]. }
    assert (Ety : t / _SQRT2 = - y).
    { unfold y, _SQRT2. field. lra. }
    assert (Et : t = - (sqrt 2 * y)).
    { unfold y. field. lra. }
    pose proof (GaussTail.gauss_tail y Hy) as Htail.
    unfold _Phi, Erf.erf. rewrite Ety.
    change (Erf.gauss_int 0 (- y)) with (GaussTail.G (- y)).
    rewrite GaussTail.G_odd.
    assert (Eg : exp (- 0.5 * t * t) = Erf.gauss y).
    { unfold Erf.gauss. f_equal. rewrite Et.
      replace (- (y * y)) with (- 0.5 * (sqrt 2 * sqrt 2) * (y * y))
        by (rewrite Hs2s; lra).
      ring. }
    unfold _phi in *. rewrite Eg in *.
    assert (Es : _SQRT_2PI = sqrt 2 * sqrt PI).
    { unfold _SQRT_2PI. apply sqrt_mult; lra. }
    rewrite Es in *.
    pose proof (Erf.gauss_pos y) as Hgy.
    assert (H1 : sqrt 2 * y * (sqrt PI / 2 - GaussTail.G y)
                 <= sqrt 2 * y * (Erf.gauss y / (2 * y))).
    { apply Rmult_le_compat_l; [nra | exact Htail]. }
    replace (sqrt 2 * y * (Erf.gauss y / (2 * y))) with (Erf.gauss y / sqrt 2) in H1.
    2:{ apply Rmult_eq_reg_r with (sqrt 2); [|lra].
        transitivity (sqrt 2 * sqrt 2 * Erf.gauss y / 2); [|field; lra].
        rewrite Hs2s. field. lra. }
    assert (H2 : sqrt 2 * y * (sqrt PI / 2 - GaussTail.G y) / sqrt PI
                 <= Erf.gauss y / sqrt 2 / sqrt PI).
    { apply Rmult_le_compat_r; [left; now apply Rinv_0_lt_compat | exact H1]. }
    replace (Erf.gauss y / sqrt 2 / sqrt PI) with (Erf.gauss y / (sqrt 2 * sqrt PI)) in H2
      by (field; lra).
    replace (t * (0.5 * (1 + 2 / sqrt PI * - GaussTail.G y)))
      with (- (sqrt 2 * y * (sqrt PI / 2 - GaussTail.G y) / sqrt PI)).
    2:{ replace (sqrt 2 * y) with (- t) by lra.
        replace 0.5 with (1 / 2) by lra. field. lra. }
    lra.
Qed.

(** ** Reasoning about computations *)

Lemma preserves_ret {A} I (a : A) : preserves I (ret a).
Proof. intros W H. exact H. Qed.

Lemma preserves_raise {A} I e : preserves I (raise (A := A) e).
Proof. intros W H. exact H. Qed.

Lemma preserves_bind {A B} I (m : M A) (k : A -> M B) :
  preserves I m -> (forall a, preserves I (k a)) -> preserves I (bind m k).
Proof.
  intros Hm Hk W H. unfold bind.
  specialize (Hm W H). destruct (m W) as [[a|e] W']; simpl in *.
  - now apply Hk.
  - exact Hm.
Qed.

Lemma preserves_for_ {A} I (l : list A) (body : A -> M unit) :
  (forall x, In x l -> preserves I (body x)) -> preserves I (for_ l body).
Proof.
  induction l as [|x l IH]; intros Hb; simpl.
  - apply preserves_ret.
  - apply preserves_bind; [apply Hb; now left|].
    intros _. apply IH. intros y Hy. apply Hb. now right.
Qed.

Lemma preserves_for_acc {A S} I (l : list A) (body : S -> A -> M S) :
  (forall s x, In x l -> preserves I (body s x)) ->
  forall s, preserves I (for_acc l body s).
Proof.
  induction l as [|x l IH]; intros Hb s; simpl.
  - apply preserves_ret.
  - apply preserves_bind; [apply Hb; now left|].
    intros s'. apply IH. intros s'' y Hy. apply Hb. now right.
Qed.

Lemma preserves_get_self I : preserves I get_self.
Proof. intros W H. exact H. Qed.

Lemma preserves_get_heap I : preserves I get_heap.
Proof. intros W H. exact H. Qed.

Lemma preserves_read I p : preserves I (read p).
Proof. intros W H. exact H. Qed.

Lemma preserves_math_sqrt I x : preserves I (math_sqrt x).
Proof.
  unfold math_sqrt. destruct (Rlt_dec x 0); [apply preserves_raise | apply preserves_ret].
Qed.

Lemma preserves_py_div I x y : preserves I (py_div x y).
Proof.
  unfold py_div. destruct (Req_dec_T y 0); [apply preserves_raise | apply preserves_ret].
Qed.

Create HintDb preserves.

#[local] Hint Resolve preserves_ret preserves_raise preserves_get_self
  preserves_get_heap preserves_read preserves_math_sqrt preserves_py_div
  : preserves.

(** A world property that every write of the engine keeps is kept by
    [_rate_two_teams] and by [rate]. *)
Section Preservation.

Variable I : World -> Prop.
Hypothesis drift_keeps : forall p, preserves I (_apply_drift p).
Hypothesis update_keeps :
  forall winner c v w dicts p, preserves I (update_player winner c v w dicts p).

Lemma preserves_rate_two_teams tw tl is_draw collect :
  preserves I (_rate_two_teams tw tl is_draw collect).
Proof using update_keeps.
  unfold _rate_two_teams.
  do 2 (apply preserves_bind; [solve [auto with preserves] | intros ?]).
  cbv zeta.
  do 2 (apply preserves_bind; [solve [auto with preserves] | intros ?]).
  apply preserves_bind; [apply preserves_for_acc; auto | intros ?].
  apply preserves_bind; [apply preserves_for_acc; auto | intros ?].
  destruct collect; simpl; auto with preserves.
  apply preserves_bind; auto with preserves.
Qed.

Lemma preserves_rate teams ranks return_report :
  preserves I (rate teams ranks return_report).
Proof using drift_keeps update_keeps.
  unfold rate.
  destruct (decide (length teams <> length ranks)); [apply preserves_raise|].
  destruct (decide (length teams < 2)%nat); [apply preserves_raise|].
  apply preserves_bind.
  { apply preserves_for_. intros team _. apply preserves_for_. auto. }
  intros _.
  destruct (decide (2 < length teams)%nat).
  - apply preserves_bind; [|auto with preserves].
    apply preserves_for_acc. intros reports i _. unfold rate_adjacent.
    apply preserves_bind; [apply preserves_rate_two_teams|].
    intros [r|]; auto with preserves.
  - destruct (bool_decide _).
    + apply preserves_bind; [apply preserves_rate_two_teams | auto with preserves].
    + apply preserves_bind; [|auto with preserves].
      destruct (bool_decide _); apply preserves_rate_two_teams.
Qed.

End Preservation.

(** ** Frame properties of the engine *)

Lemma heap_set_same h p P : heap_set h p P p = P.
Proof. unfold heap_set. destruct (Nat.eq_dec p p); congruence. Qed.

Lemma heap_set_other h p P q : q <> p -> heap_set h p P q = h q.
Proof. unfold heap_set. destruct (Nat.eq_dec q p); congruence. Qed.

(** What one drift does to the world. *)
Lemma apply_drift_eq p W :
  _apply_drift p W =
  (Return tt,
   {| self := self W;
      heap := heap_set (heap W) p
                {| name := name (heap W p); mu := mu (heap W p);
                   sigma := sqrt (sigma (heap W p) * sigma (heap W p)
                                  + tau (self W) * tau (self W)) |};
      next := next W |}).
Proof. reflexivity. Qed.

(** What one iteration of an update loop does to the world. *)
Lemma update_player_eq (winner : bool) c v w (dicts : gmap string R * gmap string R) p W :
  let P := heap W p in
  let sigma2 := sigma P * sigma P in
  let new_mu :=
    if winner then mu P + (sigma2 / c) * v else mu P - (sigma2 / c) * v in
  let sigma' := sqrt (Rmax 1e-9 (sigma2 * (1 - (sigma2 / (c * c)) * w))) in
  update_player winner c v w dicts p W =
  (Return (<[name P := new_mu - mu P]> (fst dicts), <[name P := sigma']> (snd dicts)),
   {| self := self W;
      heap := heap_set (heap W) p {| name := name P; mu := new_mu; sigma := sigma' |};
      next := next W |}).
Proof.
  simpl. unfold update_player, bind, read, write, ret. simpl.
  do 2 f_equal.
  unfold heap_set. apply functional_extensionality. intros q.
  destruct (Nat.eq_dec q p); reflexivity.
Qed.

Lemma rate_keeps_self e teams ranks rr W :
  self W = e -> self (snd (rate teams ranks rr W)) = e.
Proof.
  apply (preserves_rate (fun W => self W = e)).
  - intros p W' H. rewrite apply_drift_eq. exact H.
  - intros winner c v w d p W' H. rewrite update_player_eq. exact H.
Qed.

Lemma rate_keeps_next n teams ranks rr W :
  next W = n -> next (snd (rate teams ranks rr W)) = n.
Proof.
  apply (preserves_rate (fun W => next W = n)).
  - intros p W' H. rewrite apply_drift_eq. exact H.
  - intros winner c v w d p W' H. rewrite update_player_eq. exact H.
Qed.

Lemma rate_keeps_name q s teams ranks rr W :
  name (heap W q) = s -> name (heap (snd (rate teams ranks rr W)) q) = s.
Proof.
  apply (preserves_rate (fun W => name (heap W q) = s)).
  - intros p W' H. rewrite apply_drift_eq. simpl. unfold heap_set.
    destruct (Nat.eq_dec q p); subst; auto.
  - intros winner c v w d p W' H. rewrite update_player_eq. simpl. unfold heap_set.
    destruct (Nat.eq_dec q p); subst; auto.
Qed.

Lemma sqrt_floor_pos x : 0 < sqrt (Rmax 1e-9 x).
Proof.
  apply sqrt_lt_R0. apply Rlt_le_trans with 1e-9; [lra | apply Rmax_l].
Qed.

Lemma rate_keeps_sigma_pos q teams ranks rr W :
  0 < sigma (heap W q) -> 0 < sigma (heap (snd (rate teams ranks rr W)) q).
Proof.
  apply (preserves_rate (fun W => 0 < sigma (heap W q))).
  - intros p W' H. rewrite apply_drift_eq. simpl. unfold heap_set.
    destruct (Nat.eq_dec q p); subst; auto. simpl.
    apply sqrt_lt_R0. nra.
  - intros winner c v w d p W' H. rewrite update_player_eq. simpl. unfold heap_set.
    destruct (Nat.eq_dec q p); subst; auto. simpl. apply sqrt_floor_pos.
Qed.

Lemma step_keeps_self W call : self (step W call) = self W.
Proof.
  destruct call; simpl; [reflexivity | now apply rate_keeps_self].
Qed.

Lemma run_keeps_self calls : forall W, self (run W calls) = self W.
Proof.
  unfold run. induction calls as [|call calls IH]; intros W; simpl.
  - reflexivity.
  - rewrite IH. apply step_keeps_self.
Qed.

(** ** Closed forms, argument validation, configuration and positivity *)

(** C2: [_phi] and [_Phi] are the standard normal density and distribution
    function, and the four truncation moments are the closed forms of the
    specification, under its guards: [_v_truncate t] is [phi t / Phi t] when
    [Phi t >= 1e-12] and [- t] otherwise; [_w_truncate t] is [v * (v + t)];
    with [a = - eps - t] and [b = eps - t], [_v_draw] and [_w_draw] are the
    draw formulas when [Phi b - Phi a >= 1e-12] and [0] below that. *)
Theorem truncation_moments_closed_forms (t : R) :
  _phi t = exp (- (t ^ 2) / 2) / sqrt (2 * PI) /\
  _Phi t = (1 + Erf.erf (t / sqrt 2)) / 2 /\
  (1e-12 <= _Phi t -> _v_truncate t = _phi t / _Phi t) /\
  (_Phi t < 1e-12 -> _v_truncate t = - t) /\
  _w_truncate t = _v_truncate t * (_v_truncate t + t) /\
  forall eps : R,
    let a := - eps - t in
    let b := eps - t in
    (1e-12 <= _Phi b - _Phi a ->
     _v_draw t eps = (_phi a - _phi b) / (_Phi b - _Phi a) /\
     _w_draw t eps =
       _v_draw t eps * _v_draw t eps
       + (b * _phi b - a * _phi a) / (_Phi b - _Phi a)) /\
    (_Phi b - _Phi a < 1e-12 -> _v_draw t eps = 0 /\ _w_draw t eps = 0).
Proof.
  split; [unfold _phi, _SQRT_2PI; do 2 f_equal; lra|].
  split; [unfold _Phi, _SQRT2; lra|].
  unfold _w_truncate, _v_truncate, _w_draw, _v_draw.
  repeat split; intros; cbv zeta in *;
    repeat match goal with
      | |- context [Rlt_dec ?x ?y] => destruct (Rlt_dec x y)
      end; try reflexivity; lra.
Qed.

(** C4: when the numbers of teams and ranks differ, or there are fewer than
    two teams, [rate] raises [ValueError] at once: the world it leaves is the
    world it was given, so no drift and no update has touched any player. *)
Theorem rate_rejects_bad_lengths
    (teams : list (list loc)) (ranks : list Z) (return_report : bool) (W : World) :
  length teams <> length ranks \/ (length teams < 2)%nat ->
  exists msg, rate teams ranks return_report W = (Raise (ValueError msg), W).
Proof.
  intros H. unfold rate.
  destruct (decide (length teams <> length ranks)) as [Hne|Heq].
  - eexists. reflexivity.
  - destruct (decide (length teams < 2)%nat) as [Hlt|Hge].
    + eexists. reflexivity.
    + exfalso. destruct H; auto.
Qed.

Lemma rate_rejects_bad_lengths_witness :
  exists msg,
    rate [[0%nat]; [1%nat]] [0%Z] true (initial_world default_env no_players)
    = (Raise (ValueError msg), initial_world default_env no_players).
Proof.
  apply rate_rejects_bad_lengths. left. simpl. lia.
Defined.

(** C9: after any sequence of [make_player] and [rate] calls the attributes
    of the environment are those set by [__init__], [eps] included. *)
Theorem configuration_is_never_modified
    (m0 s0 b t dp tr : R) (h : Heap) (calls : list Call) :
  let W := run (initial_world (TrueSkillEnv_init m0 s0 b t dp tr) h) calls in
  mu0 (self W) = m0 /\ sigma0 (self W) = s0 /\ beta (self W) = b /\
  tau (self W) = t /\ draw_probability (self W) = dp /\ trust (self W) = tr /\
  eps (self W) = _draw_margin b dp.
Proof.
  intros W. subst W. rewrite run_keeps_self. simpl. repeat split.
Qed.

Lemma step_keeps_sigma_invariant W call :
  0 < sigma0 (self W) -> sigma_invariant W -> sigma_invariant (step W call).
Proof.
  intros Hs0 Hinv. destruct call as [n|teams ranks rr]; simpl.
  - intros p Hp. simpl in *. unfold heap_set.
    destruct (Nat.eq_dec p (next W)); simpl; [exact Hs0|].
    apply Hinv. lia.
  - intros p Hp. rewrite (rate_keeps_next (next W)) in Hp by reflexivity.
    apply rate_keeps_sigma_pos. now apply Hinv.
Qed.

Lemma run_keeps_sigma_invariant calls :
  forall W, 0 < sigma0 (self W) -> sigma_invariant W -> sigma_invariant (run W calls).
Proof.
  unfold run. induction calls as [|call calls IH]; intros W Hs0 Hinv; simpl.
  - exact Hinv.
  - apply IH.
    + now rewrite step_keeps_self.
    + now apply step_keeps_sigma_invariant.
Qed.

(** The sigma written by an update is never below the floor [sqrt 1e-9]. *)
Lemma update_player_sigma_floor winner c v w dicts p W :
  sqrt 1e-9 <= sigma (heap (snd (update_player winner c v w dicts p W)) p).
Proof.
  rewrite update_player_eq. simpl. rewrite heap_set_same. simpl.
  apply sqrt_le_1_alt, Rmax_l.
Qed.

(** ** The pairwise update, step by step *)

(** [_rate_two_teams] raises before any write, or runs both update loops. *)
Lemma rate_two_teams_eq tw tl (is_draw collect : bool) W :
  _rate_two_teams tw tl is_draw collect W =
  let slf := self W in
  let h := heap W in
  if Rlt_dec (pair_variance slf h tw tl) 0
  then (Raise (ValueError "math domain error"), W)
  else
    let c := pair_c slf h tw tl in
    if Req_dec_T c 0
    then (Raise ZeroDivisionError, W)
    else
      let t := pair_t slf h tw tl in
      let v := if is_draw then _v_draw t (eps slf / c) else _v_truncate t in
      let w := if is_draw then _w_draw t (eps slf / c) else _w_truncate t in
      (dicts <- for_acc tw (update_player true c v w) (∅, ∅) ;;
       dicts <- for_acc tl (update_player false c v w) dicts ;;
       if negb collect then ret None
       else
         h' <- get_heap ;;
         ret (Some
                {| rep_is_draw := is_draw; rep_eps := eps slf; rep_c := c;
                   rep_t := t; rep_v := v; rep_w := w;
                   rep_team_winner := map (fun p => name (h' p)) tw;
                   rep_team_loser := map (fun p => name (h' p)) tl;
                   rep_delta_mu := fst dicts;
                   rep_new_sigma := snd dicts |})) W.
Proof.
  unfold _rate_two_teams, pair_t, pair_c. cbv zeta.
  unfold bind at 1. unfold get_self at 1. cbv iota beta.
  unfold bind at 1. unfold get_heap at 1. cbv iota beta.
  unfold bind at 1. unfold math_sqrt.
  destruct (Rlt_dec (pair_variance (self W) (heap W) tw tl) 0); [reflexivity|].
  unfold ret at 1. cbv iota beta.
  unfold bind at 1. unfold py_div.
  destruct (Req_dec_T (sqrt (pair_variance (self W) (heap W) tw tl)) 0);
    reflexivity.
Qed.

(** An update loop never raises, and carries any property of the locals and
    the world that each iteration carries. *)
Lemma update_loop_inv (I : gmap string R * gmap string R -> World -> Prop)
    (winner : bool) c v w team :
  (forall d W p d' W', In p team -> I d W ->
     update_player winner c v w d p W = (Return d', W') -> I d' W') ->
  forall d W, I d W ->
  exists d' W',
    for_acc team (update_player winner c v w) d W = (Return d', W') /\ I d' W'.
Proof.
  induction team as [|p team IH]; intros Hstep d W HI; simpl.
  - exists d, W. split; [reflexivity | exact HI].
  - unfold bind. pose proof (update_player_eq winner c v w d p W) as E.
    cbv zeta in E. rewrite E.
    apply IH.
    + intros d0 W0 q d' W' Hq. apply Hstep. now right.
    + eapply Hstep; [now left | exact HI | exact E].
Qed.

(** The last steps of [_rate_two_teams] leave the world alone. *)
Lemma rate_two_teams_world (I : World -> Prop) tw tl (is_draw collect : bool) W :
  I W ->
  (forall c v w winner d p,
     0 < c -> c = pair_c (self W) (heap W) tw tl ->
     v = (if is_draw then _v_draw (pair_t (self W) (heap W) tw tl) (eps (self W) / c)
          else _v_truncate (pair_t (self W) (heap W) tw tl)) ->
     w = (if is_draw then _w_draw (pair_t (self W) (heap W) tw tl) (eps (self W) / c)
          else _w_truncate (pair_t (self W) (heap W) tw tl)) ->
     preserves I (update_player winner c v w d p)) ->
  I (snd (_rate_two_teams tw tl is_draw collect W)).
Proof.
  intros HI Hstep. rewrite rate_two_teams_eq. cbv zeta.
  destruct (Rlt_dec _ 0) as [Hneg|Hnn]; [exact HI|].
  destruct (Req_dec_T _ 0) as [Hz|Hnz]; [exact HI|].
  assert (Hc : 0 < pair_c (self W) (heap W) tw tl).
  { pose proof (sqrt_pos (pair_variance (self W) (heap W) tw tl)).
    unfold pair_c in *. lra. }
  apply preserves_bind; [|intros d1|exact HI].
  { apply preserves_for_acc. intros d p _. now apply Hstep. }
  apply preserves_bind; [|intros d2].
  { apply preserves_for_acc. intros d p _. now apply Hstep. }
  destruct collect; simpl; auto with preserves.
  apply preserves_bind; auto with preserves.
Qed.

Lemma sqrt_floor_sq : sqrt 1e-9 * sqrt 1e-9 = 1e-9.
Proof. apply sqrt_sqrt. lra. Qed.

(** One update of a player whose sigma is at or above the floor, with a
    non-negative [w], cannot raise that sigma. *)
Lemma updated_sigma_le s c w :
  0 < c -> 0 <= w -> sqrt 1e-9 <= s ->
  sqrt (Rmax 1e-9 (s * s * (1 - (s * s / (c * c)) * w))) <= s.
Proof.
  intros Hc Hw Hs.
  pose proof sqrt_floor_sq as Hf. pose proof (sqrt_pos 1e-9) as Hf0.
  assert (Hs0 : 0 <= s) by lra.
  apply Rle_trans with (sqrt (s * s)); [|rewrite sqrt_square; lra].
  apply sqrt_le_1_alt. apply Rmax_lub; [nra|].
  assert (Hq : 0 <= s * s / (c * c)).
  { apply Rmult_le_pos; [nra|]. left. apply Rinv_0_lt_compat. nra. }
  pose proof (Rmult_le_pos _ _ Hq Hw) as Hqw.
  pose proof (Rmult_le_pos (s * s) _ (Rle_0_sqr s) Hqw). lra.
Qed.

(** The win/loss moment [w] is never negative: zero in the guarded tail,
    and [v * (v + t)] with [v > 0] and [v + t >= 0] elsewhere. *)
Lemma w_truncate_nonneg t : 0 <= _w_truncate t.
Proof.
  unfold _w_truncate, _v_truncate. cbv zeta.
  destruct (Rlt_dec (_Phi t) 1e-12) as [Hlt|Hge].
  - right. ring.
  - assert (HP : 0 < _Phi t) by lra.
    assert (Hv : 0 < _phi t / _Phi t).
    { apply Rdiv_lt_0_compat; [apply phi_pos | lra]. }
    assert (Hvt : 0 <= _phi t / _Phi t + t).
    { replace (_phi t / _Phi t + t) with ((_phi t + t * _Phi t) / _Phi t)
        by (field; lra).
      apply Rmult_le_pos; [apply mills_ratio|].
      left. now apply Rinv_0_lt_compat. }
    apply Rmult_le_pos; lra.
Qed.

Lemma w_truncate_guarded t : _Phi t < 1e-12 -> _w_truncate t = 0.
Proof.
  intros H. unfold _w_truncate, _v_truncate. cbv zeta.
  destruct (Rlt_dec (_Phi t) 1e-12); [ring | lra].
Qed.

Lemma sqrt_floor_lt_1 : sqrt 1e-9 < 1.
Proof. rewrite <- sqrt_1 at 2. apply sqrt_lt_1_alt. lra. Qed.

Lemma pair_variance_one_vs_one slf h a b :
  pair_variance slf h [a] [b] =
  sigma (h a) * sigma (h a) + sigma (h b) * sigma (h b)
  + (beta slf * beta slf + trust slf * (sigma (h a) * sigma (h a)))
  + (beta slf * beta slf + trust slf * (sigma (h b) * sigma (h b))).
Proof. unfold pair_variance, sum_over, add_perf_noise. simpl. ring. Qed.

Lemma pair_t_one_vs_one slf h a b :
  pair_t slf h [a] [b] = (mu (h a) - mu (h b)) / pair_c slf h [a] [b].
Proof. unfold pair_t, sum_over. simpl. f_equal. ring. Qed.

(** A match between two distinct players [a] (passed as winner) and [b]:
    the world and the report it produces. *)
Lemma rate_one_vs_one a b (is_draw collect : bool) W :
  a <> b ->
  0 < pair_variance (self W) (heap W) [a] [b] ->
  let c := pair_c (self W) (heap W) [a] [b] in
  let t := pair_t (self W) (heap W) [a] [b] in
  let v := if is_draw then _v_draw t (eps (self W) / c) else _v_truncate t in
  let w := if is_draw then _w_draw t (eps (self W) / c) else _w_truncate t in
  let upd (winner : bool) (P : Player) :=
    {| name := name P;
       mu := if winner then mu P + (sigma P * sigma P / c) * v
             else mu P - (sigma P * sigma P / c) * v;
       sigma := sqrt (Rmax 1e-9 (sigma P * sigma P
                                 * (1 - (sigma P * sigma P / (c * c)) * w))) |} in
  let Pa := upd true (heap W a) in
  let Pb := upd false (heap W b) in
  let W' := {| self := self W;
               heap := heap_set (heap_set (heap W) a Pa) b Pb;
               next := next W |} in
  _rate_two_teams [a] [b] is_draw collect W =
  (Return
     (if collect then
        Some {| rep_is_draw := is_draw; rep_eps := eps (self W); rep_c := c;
                rep_t := t; rep_v := v; rep_w := w;
                rep_team_winner := [name (heap W a)];
                rep_team_loser := [name (heap W b)];
                rep_delta_mu :=
                  <[name (heap W b) := mu Pb - mu (heap W b)]>
                    (<[name (heap W a) := mu Pa - mu (heap W a)]> ∅);
                rep_new_sigma :=
                  <[name (heap W b) := sigma Pb]>
                    (<[name (heap W a) := sigma Pa]> ∅) |}
      else None),
   W').
Proof.
  intros Hab Hvar. cbv zeta. rewrite rate_two_teams_eq. cbv zeta.
  destruct (Rlt_dec _ 0) as [Hneg|_]; [lra|].
  destruct (Req_dec_T _ 0) as [Hz|_].
  { unfold pair_c in Hz. apply sqrt_eq_0 in Hz; lra. }
  simpl for_acc. unfold bind at 1. unfold bind at 1.
  pose proof (update_player_eq true) as E. cbv zeta in E. rewrite E. clear E.
  unfold ret at 1. cbv iota beta.
  unfold bind at 1. unfold bind at 1.
  pose proof (update_player_eq false) as E. cbv zeta in E. rewrite E. clear E.
  unfold ret at 1. cbv iota beta. cbn [heap self next fst snd].
  rewrite (heap_set_other _ a _ b) by congruence.
  destruct collect; cbn [negb]; [|reflexivity].
  unfold bind, get_heap, ret. cbn [heap map].
  rewrite heap_set_same. rewrite (heap_set_other _ b _ a) by congruence.
  rewrite heap_set_same. reflexivity.
Qed.

Lemma two_fresh_players_heap env :
  heap (two_fresh_players env) 0%nat
  = {| name := "A"; mu := mu0 env; sigma := sigma0 env |} /\
  heap (two_fresh_players env) 1%nat
  = {| name := "B"; mu := mu0 env; sigma := sigma0 env |} /\
  self (two_fresh_players env) = env.
Proof. repeat split. Qed.

(** C1, as the code has it: in a win/loss update, a player whose sigma is
    at least the floor [sqrt 1e-9] before the update has a sigma no larger
    after it (and keeps it when the update raises).  Below the floor the
    clamp raises sigma: see the counterexample. *)
Theorem win_loss_update_does_not_raise_sigma
    (tw tl : list loc) (collect : bool) (W : World) (p : loc) :
  sqrt 1e-9 <= sigma (heap W p) ->
  sigma (heap (snd (_rate_two_teams tw tl false collect W)) p)
  <= sigma (heap W p).
Proof.
  intros Hp.
  set (s0 := sigma (heap W p)).
  assert (J : sqrt 1e-9 <= sigma (heap (snd (_rate_two_teams tw tl false collect W)) p)
              <= s0).
  { apply (rate_two_teams_world
             (fun W' => sqrt 1e-9 <= sigma (heap W' p) <= s0)).
    - subst s0. lra.
    - intros c v w winner d q Hc _ _ -> W' [Hlo Hhi].
      rewrite update_player_eq. cbn [snd heap].
      unfold heap_set. destruct (Nat.eq_dec p q) as [->|Hne]; [|lra].
      cbn [sigma]. split.
      + apply sqrt_le_1_alt, Rmax_l.
      + apply Rle_trans with (sigma (heap W' q)); [|exact Hhi].
        apply updated_sigma_le; auto. apply w_truncate_nonneg. }
  lra.
Qed.

Lemma win_loss_update_does_not_raise_sigma_witness :
  sigma (heap (snd (_rate_two_teams [0%nat] [1%nat] false true
                      (two_fresh_players default_env))) 0%nat)
  <= sigma (heap (two_fresh_players default_env) 0%nat).
Proof.
  apply win_loss_update_does_not_raise_sigma.
  destruct (two_fresh_players_heap default_env) as (-> & _ & _).
  cbn [sigma sigma0 default_env TrueSkillEnv_init].
  pose proof sqrt_floor_lt_1. lra.
Defined.

(** C1 fails below the floor: two players created with [sigma0 = 1e-5] (and
    no drift) both leave a win/loss update with a larger sigma. *)
Lemma win_loss_update_raises_tiny_sigma :
  fst (_rate_two_teams [0%nat] [1%nat] false false
         (two_fresh_players tiny_sigma_env)) = Return None /\
  sigma (heap (two_fresh_players tiny_sigma_env) 0%nat)
  < sigma (heap (snd (_rate_two_teams [0%nat] [1%nat] false false
                        (two_fresh_players tiny_sigma_env))) 0%nat) /\
  sigma (heap (two_fresh_players tiny_sigma_env) 1%nat)
  < sigma (heap (snd (_rate_two_teams [0%nat] [1%nat] false false
                        (two_fresh_players tiny_sigma_env))) 1%nat).
Proof.
  assert (Hfloor : 1e-5 < sqrt 1e-9).
  { rewrite <- (sqrt_square 1e-5) by lra. apply sqrt_lt_1_alt. lra. }
  pose proof (rate_one_vs_one 0%nat 1%nat false false
                (two_fresh_players tiny_sigma_env)) as E.
  cbv zeta in E. rewrite E; clear E.
  - cbn [fst snd heap]. split; [reflexivity|].
    rewrite heap_set_same.
    rewrite heap_set_other by discriminate. rewrite heap_set_same.
    destruct (two_fresh_players_heap tiny_sigma_env) as (-> & -> & _).
    cbn [sigma sigma0 tiny_sigma_env TrueSkillEnv_init]. split.
    + eapply Rlt_le_trans; [exact Hfloor | apply sqrt_le_1_alt, Rmax_l].
    + eapply Rlt_le_trans; [exact Hfloor | apply sqrt_le_1_alt, Rmax_l].
  - discriminate.
  - rewrite pair_variance_one_vs_one.
    destruct (two_fresh_players_heap tiny_sigma_env) as (-> & -> & ->).
    cbn [sigma sigma0 beta trust tiny_sigma_env TrueSkillEnv_init]. lra.
Qed.

Lemma v_truncate_0 : _v_truncate 0 = _phi 0 / _Phi 0.
Proof.
  unfold _v_truncate. cbv zeta. rewrite Phi_0.
  destruct (Rlt_dec (1 / 2) 1e-12); [lra | reflexivity].
Qed.

Lemma v_truncate_0_pos : 0 < _v_truncate 0.
Proof.
  rewrite v_truncate_0. apply Rdiv_lt_0_compat; [apply phi_pos | rewrite Phi_0; lra].
Qed.

Lemma w_truncate_0_pos : 0 < _w_truncate 0.
Proof.
  unfold _w_truncate. cbv zeta. pose proof v_truncate_0_pos. nra.
Qed.

(** One update of a player whose sigma is above the floor, with a positive
    [w], strictly lowers that sigma. *)
Lemma updated_sigma_lt s c w :
  0 < c -> 0 < w -> sqrt 1e-9 < s ->
  sqrt (Rmax 1e-9 (s * s * (1 - (s * s / (c * c)) * w))) < s.
Proof.
  intros Hc Hw Hs.
  pose proof sqrt_floor_sq as Hf. pose proof (sqrt_pos 1e-9) as Hf0.
  assert (Hs0 : 0 < s) by lra.
  apply Rlt_le_trans with (sqrt (s * s)); [|rewrite sqrt_square; lra].
  apply sqrt_lt_1_alt. split.
  { apply Rle_trans with 1e-9; [lra | apply Rmax_l]. }
  apply Rmax_lub_lt; [nra|].
  assert (Hq : 0 < s * s / (c * c)).
  { apply Rdiv_lt_0_compat; nra. }
  pose proof (Rmult_lt_0_compat _ _ Hq Hw) as Hqw.
  assert (Hss : 0 < s * s) by nra.
  pose proof (Rmult_lt_0_compat _ _ Hss Hqw). lra.
Qed.

(** ** [rate] on two teams *)

Lemma bind_assoc {A B C} (m : M A) (k : A -> M B) (k' : B -> M C) W :
  bind (bind m k) k' W = bind m (fun a => bind (k a) k') W.
Proof. unfold bind. destruct (m W) as [[a|e] W1]; reflexivity. Qed.

Lemma bind_ret_r {A} (m : M A) W : bind m ret W = m W.
Proof. unfold bind, ret. destruct (m W) as [[a|e] W1]; reflexivity. Qed.

Lemma bind_ext {A B} (m : M A) (k k' : A -> M B) W :
  (forall a W1, k a W1 = k' a W1) -> bind m k W = bind m k' W.
Proof. intros H. unfold bind. destruct (m W) as [[a|e] W1]; auto. Qed.

Lemma bind_ext_l {A B} (m m' : M A) (k : A -> M B) W :
  m W = m' W -> bind m k W = bind m' k W.
Proof. intros H. unfold bind. now rewrite H. Qed.

Lemma for_drift_eq team : forall W,
  for_ team _apply_drift W = (Return tt, drift_team W team).
Proof.
  induction team as [|p team IH]; intros W; simpl.
  - reflexivity.
  - unfold bind. rewrite apply_drift_eq. apply IH.
Qed.

Lemma for_teams_drift_eq teams : forall W,
  for_ teams (fun team => for_ team _apply_drift) W
  = (Return tt, fold_left drift_team teams W).
Proof.
  induction teams as [|team teams IH]; intros W; simpl.
  - reflexivity.
  - unfold bind. rewrite for_drift_eq. apply IH.
Qed.

(** [rate] on exactly two teams: drift, then one pairwise update with the
    better-ranked team first. *)
Lemma rate_two_eq ta tb (ra rb : Z) (return_report : bool) W :
  rate [ta; tb] [ra; rb] return_report W =
  let Wd := drift_team (drift_team W ta) tb in
  (rep <- (if bool_decide (ra = rb) then _rate_two_teams ta tb true return_report
           else if bool_decide (ra < rb)%Z
                then _rate_two_teams ta tb false return_report
                else _rate_two_teams tb ta false return_report) ;;
   ret (report_list return_report rep)) Wd.
Proof.
  unfold rate. cbn [length nth].
  destruct (decide (2 <> 2)%nat) as [H|_]; [congruence|].
  destruct (decide (2 < 2)%nat) as [H|_]; [lia|].
  unfold bind at 1. rewrite for_teams_drift_eq. cbn [fold_left].
  destruct (decide (2 < 2)%nat) as [H|_]; [lia|].
  destruct (bool_decide (ra = rb)); [reflexivity|].
  destruct (bool_decide (ra < rb)%Z); reflexivity.
Qed.

Lemma drift_team_self team : forall W, self (drift_team W team) = self W.
Proof.
  unfold drift_team. induction team as [|p team IH]; intros W; simpl; [reflexivity|].
  now rewrite IH.
Qed.

Lemma drift_team_single W p :
  drift_team W [p]
  = {| self := self W; heap := heap_set (heap W) p (drifted (self W) (heap W p));
       next := next W |}.
Proof. reflexivity. Qed.

(** ** When the pairwise update returns *)

Lemma fold_add_ge {A} (f : A -> R) (l : list A) :
  (forall x, 0 <= f x) ->
  forall acc, acc <= fold_left (fun acc x => acc + f x) l acc.
Proof.
  intros Hf. induction l as [|x l IH]; intros acc; simpl; [lra|].
  eapply Rle_trans; [|apply IH]. specialize (Hf x). lra.
Qed.

Lemma fold_add_ge_one {A} (f : A -> R) (m : R) (l : list A) :
  (forall x, m <= f x) -> 0 <= m -> l <> [] ->
  forall acc, acc + m <= fold_left (fun acc x => acc + f x) l acc.
Proof.
  intros Hf Hm Hl acc. destruct l as [|x l]; [congruence|]. simpl.
  eapply Rle_trans; [|apply fold_add_ge].
  - specialize (Hf x). lra.
  - intros y. specialize (Hf y). lra.
Qed.

Lemma sum_over_squares_nonneg h team :
  0 <= sum_over h (fun P => sigma P * sigma P) team.
Proof.
  unfold sum_over.
  apply (fold_add_ge (fun p => sigma (h p) * sigma (h p))).
  intros p. apply Rle_0_sqr.
Qed.

(** With [beta <> 0] and [trust >= 0], the variance under [c] is positive
    as soon as one of the two teams has a player. *)
Lemma pair_variance_pos slf h tw tl :
  beta slf <> 0 -> 0 <= trust slf -> tw ++ tl <> [] ->
  0 < pair_variance slf h tw tl.
Proof.
  intros Hb Ht Hne. unfold pair_variance. cbv zeta.
  pose proof (sum_over_squares_nonneg h tw).
  pose proof (sum_over_squares_nonneg h tl).
  assert (Hbb : 0 < beta slf * beta slf) by nra.
  assert (Hterm : forall p,
             beta slf * beta slf
             <= beta slf * beta slf + trust slf * (sigma (h p) * sigma (h p))).
  { intros p. pose proof (Rle_0_sqr (sigma (h p))) as Hs. unfold Rsqr in Hs. nra. }
  assert (Hterm0 : forall p,
             0 <= beta slf * beta slf + trust slf * (sigma (h p) * sigma (h p))).
  { intros p. specialize (Hterm p). lra. }
  unfold add_perf_noise.
  destruct tw as [|p tw].
  - simpl in *.
    pose proof (fold_add_ge_one _ _ tl Hterm (Rlt_le _ _ Hbb) Hne 0). lra.
  - pose proof (fold_add_ge_one _ _ (p :: tw) Hterm (Rlt_le _ _ Hbb)
                  ltac:(discriminate) 0) as H1.
    pose proof (fold_add_ge _ tl Hterm0
                  (fold_left
                     (fun acc p =>
                        acc + (beta slf * beta slf
                               + trust slf * (sigma (h p) * sigma (h p))))
                     (p :: tw) 0)) as H2.
    lra.
Qed.

Lemma pair_variance_empty slf h : pair_variance slf h [] [] = 0.
Proof. unfold pair_variance, sum_over, add_perf_noise. simpl. ring. Qed.

(** With a positive variance the pairwise update returns, with a report
    exactly when one is asked for. *)
Lemma rate_two_teams_returns tw tl (is_draw collect : bool) W :
  0 < pair_variance (self W) (heap W) tw tl ->
  exists r W',
    _rate_two_teams tw tl is_draw collect W = (Return r, W') /\
    (collect = false -> r = None) /\
    (collect = true ->
     exists rep, r = Some rep /\ rep_is_draw rep = is_draw /\
       rep_team_winner rep = map (fun p => name (heap W' p)) tw /\
       rep_team_loser rep = map (fun p => name (heap W' p)) tl).
Proof.
  intros Hvar. rewrite rate_two_teams_eq. cbv zeta.
  destruct (Rlt_dec _ 0) as [Hneg|_]; [lra|].
  destruct (Req_dec_T _ 0) as [Hz|_].
  { unfold pair_c in Hz. apply sqrt_eq_0 in Hz; lra. }
  match goal with
  | |- context [for_acc tw (update_player true ?c ?v ?w) ?d] =>
      destruct (update_loop_inv (fun _ _ => True) true c v w tw
                  ltac:(auto) d W I) as (d1 & W1 & E1 & _)
  end.
  unfold bind at 1. rewrite E1.
  match goal with
  | |- context [for_acc tl (update_player false ?c ?v ?w) ?d] =>
      destruct (update_loop_inv (fun _ _ => True) false c v w tl
                  ltac:(auto) d W1 I) as (d2 & W2 & E2 & _)
  end.
  unfold bind at 1. rewrite E2.
  destruct collect; cbn [negb].
  - unfold bind, get_heap, ret. eexists _, W2. split; [reflexivity|].
    split; [discriminate|]. intros _. eexists. split; [reflexivity|].
    cbn. auto.
  - unfold ret. exists None, W2. split; [reflexivity|].
    split; [reflexivity | discriminate].
Qed.

(** With both teams empty [c] is zero and the division raises. *)
Lemma rate_two_teams_empty (is_draw collect : bool) W :
  _rate_two_teams [] [] is_draw collect W
  = (Raise ZeroDivisionError, W).
Proof.
  rewrite rate_two_teams_eq. cbv zeta. unfold pair_c.
  rewrite pair_variance_empty.
  destruct (Rlt_dec 0 0) as [H|_]; [lra|].
  destruct (Req_dec_T (sqrt 0) 0) as [_|H]; [reflexivity|].
  rewrite sqrt_0 in H. congruence.
Qed.

Lemma v_truncate_pos t : 0 <= t -> 0 < _v_truncate t.
Proof.
  intros Ht. unfold _v_truncate. cbv zeta.
  pose proof (Phi_nonneg_arg t Ht).
  destruct (Rlt_dec (_Phi t) 1e-12) as [Hlt|Hge]; [lra|].
  apply Rdiv_lt_0_compat; [apply phi_pos | lra].
Qed.

(** A player [a] rated as winner against an empty team. *)
Lemma rate_one_vs_none a (collect : bool) W :
  0 < pair_variance (self W) (heap W) [a] [] ->
  let c := pair_c (self W) (heap W) [a] [] in
  let t := pair_t (self W) (heap W) [a] [] in
  let P := heap W a in
  exists r,
    _rate_two_teams [a] [] false collect W =
    (Return r,
     {| self := self W;
        heap := heap_set (heap W) a
                  {| name := name P;
                     mu := mu P + (sigma P * sigma P / c) * _v_truncate t;
                     sigma := sqrt (Rmax 1e-9
                                      (sigma P * sigma P
                                       * (1 - (sigma P * sigma P / (c * c))
                                              * _w_truncate t))) |};
        next := next W |}).
Proof.
  intros Hvar. cbv zeta. rewrite rate_two_teams_eq. cbv zeta.
  destruct (Rlt_dec _ 0) as [Hneg|_]; [lra|].
  destruct (Req_dec_T _ 0) as [Hz|_].
  { unfold pair_c in Hz. apply sqrt_eq_0 in Hz; lra. }
  simpl for_acc. unfold bind at 1. unfold bind at 1.
  pose proof (update_player_eq true) as E. cbv zeta in E. rewrite E. clear E.
  unfold ret at 1. cbv iota beta. unfold bind at 1. unfold ret at 1.
  cbv iota beta.
  destruct collect; cbn [negb]; eexists; reflexivity.
Qed.

(** C5, as the code has it: [rate] checks the two lengths and nothing else.
    A submission of two teams one of which is empty is accepted (with
    [beta <> 0] and [trust >= 0]): [rate] returns, having drifted the other
    team and run the pairwise update against the empty team.  Only when both
    teams are empty does it raise, and then [ZeroDivisionError]. *)
Theorem rate_accepts_an_empty_team
    (team : list loc) (ra rb : Z) (return_report : bool) (W : World) :
  beta (self W) <> 0 -> 0 <= trust (self W) -> team <> [] ->
  (exists r,
     rate [team; []] [ra; rb] return_report W
     = (Return r,
        snd ((if bool_decide (ra = rb)
              then _rate_two_teams team [] true return_report
              else if bool_decide (ra < rb)%Z
                   then _rate_two_teams team [] false return_report
                   else _rate_two_teams [] team false return_report)
               (drift_team W team)))) /\
  (exists r W', rate [[]; team] [ra; rb] return_report W = (Return r, W')) /\
  rate [[]; []] [ra; rb] return_report W
  = (Raise ZeroDivisionError, W).
Proof.
  intros Hb Ht Hne.
  assert (Hself : self (drift_team W team) = self W) by apply drift_team_self.
  assert (Hret : forall tw tl is_draw,
             tw ++ tl <> [] ->
             exists r W',
               _rate_two_teams tw tl is_draw return_report (drift_team W team)
               = (Return r, W')).
  { intros tw tl is_draw Hn.
    destruct (rate_two_teams_returns tw tl is_draw return_report
                (drift_team W team)) as (r & W' & E & _).
    - apply pair_variance_pos; rewrite ?Hself; auto.
    - eauto. }
  split; [|split].
  - rewrite rate_two_eq. cbv zeta. cbn [drift_team fold_left].
    fold (drift_team W team). unfold bind.
    destruct (bool_decide (ra = rb)); [|destruct (bool_decide (ra < rb)%Z)].
    + destruct (Hret team [] true) as (r & W' & ->).
      { rewrite app_nil_r; auto. }
      eexists; reflexivity.
    + destruct (Hret team [] false) as (r & W' & ->).
      { rewrite app_nil_r; auto. }
      eexists; reflexivity.
    + destruct (Hret [] team false) as (r & W' & ->); [auto|].
      eexists; reflexivity.
  - rewrite rate_two_eq. cbv zeta. cbn [drift_team fold_left].
    fold (drift_team W team). unfold bind.
    destruct (bool_decide (ra = rb)); [|destruct (bool_decide (ra < rb)%Z)].
    + destruct (Hret [] team true) as (r & W' & ->); [auto|].
      eexists _, _; reflexivity.
    + destruct (Hret [] team false) as (r & W' & ->); [auto|].
      eexists _, _; reflexivity.
    + destruct (Hret team [] false) as (r & W' & ->).
      { rewrite app_nil_r; auto. }
      eexists _, _; reflexivity.
  - rewrite rate_two_eq. cbv zeta. cbn [drift_team fold_left]. unfold bind.
    destruct (bool_decide (ra = rb)); [|destruct (bool_decide (ra < rb)%Z)];
      rewrite rate_two_teams_empty; reflexivity.
Qed.

Lemma rate_accepts_an_empty_team_witness :
  exists r W',
    rate [[]; [0%nat]] [0%Z; 1%Z] false (two_fresh_players default_env)
    = (Return r, W').
Proof.
  refine (proj1 (proj2 (rate_accepts_an_empty_team [0%nat] 0 1 false
                          (two_fresh_players default_env) _ _ _))).
  - change (25 / 6 <> 0). lra.
  - change (0 <= 0). lra.
  - discriminate.
Defined.

(** C5 fails: with default settings, [rate([[A], []], ranks=[0, 1])] raises
    nothing and moves [A]'s mu. *)
Lemma rate_updates_against_an_empty_team :
  exists r W',
    rate [[0%nat]; []] [0%Z; 1%Z] false (two_fresh_players default_env)
    = (Return r, W') /\
    mu (heap (two_fresh_players default_env) 0%nat) < mu (heap W' 0%nat).
Proof.
  rewrite rate_two_eq. cbv zeta.
  rewrite bool_decide_eq_false_2 by discriminate.
  rewrite bool_decide_eq_true_2 by reflexivity.
  cbn [drift_team fold_left].
  set (W0 := two_fresh_players default_env).
  set (Wd := {| self := self W0;
                heap := heap_set (heap W0) 0%nat (drifted (self W0) (heap W0 0%nat));
                next := next W0 |}).
  assert (Hvar : 0 < pair_variance (self Wd) (heap Wd) [0%nat] []).
  { apply pair_variance_pos.
    - change (25 / 6 <> 0). lra.
    - change (0 <= 0). lra.
    - discriminate. }
  destruct (rate_one_vs_none 0%nat false Wd Hvar) as (r & E).
  unfold bind. rewrite E. unfold ret. eexists _, _. split; [reflexivity|].
  cbn [heap]. rewrite heap_set_same. cbn [mu].
  assert (Hc : 0 < pair_c (self Wd) (heap Wd) [0%nat] []).
  { unfold pair_c. now apply sqrt_lt_R0. }
  assert (Hmu : mu (heap Wd 0%nat) = 25).
  { cbn [heap Wd]. rewrite heap_set_same. reflexivity. }
  assert (Hsig : 0 < sigma (heap Wd 0%nat)).
  { cbn [heap Wd]. rewrite heap_set_same. cbn [sigma drifted].
    apply sqrt_lt_R0.
    destruct (two_fresh_players_heap default_env) as (Ha & _ & Hs).
    fold W0 in Ha, Hs. rewrite Ha, Hs.
    cbn [sigma sigma0 tau default_env TrueSkillEnv_init]. lra. }
  assert (Ht : 0 <= pair_t (self Wd) (heap Wd) [0%nat] []).
  { unfold pair_t, sum_over. cbn [fold_left]. rewrite Hmu.
    apply Rmult_le_pos; [lra | left; now apply Rinv_0_lt_compat]. }
  pose proof (v_truncate_pos _ Ht) as Hv.
  rewrite Hmu.
  replace (mu (heap W0 0%nat)) with 25 by reflexivity.
  assert (0 < sigma (heap Wd 0%nat) * sigma (heap Wd 0%nat)
              / pair_c (self Wd) (heap Wd) [0%nat] []
              * _v_truncate (pair_t (self Wd) (heap Wd) [0%nat] [])).
  { apply Rmult_lt_0_compat; [|exact Hv]. apply Rdiv_lt_0_compat; nra. }
  lra.
Qed.

(** C8 fails below the floor: two players created with [sigma0 = 1e-5] in
    an environment without drift have the same prior, and
    [rate([[A], [B]], ranks=[0, 1])] returns with both sigmas larger. *)
Lemma equal_tiny_priors_sigma_grows :
  exists r W',
    rate [[0%nat]; [1%nat]] [0%Z; 1%Z] false (two_fresh_players tiny_sigma_env)
    = (Return r, W') /\
    mu (heap (two_fresh_players tiny_sigma_env) 0%nat)
    = mu (heap (two_fresh_players tiny_sigma_env) 1%nat) /\
    sigma (heap (two_fresh_players tiny_sigma_env) 0%nat)
    = sigma (heap (two_fresh_players tiny_sigma_env) 1%nat) /\
    sigma (heap (two_fresh_players tiny_sigma_env) 0%nat) < sigma (heap W' 0%nat) /\
    sigma (heap (two_fresh_players tiny_sigma_env) 1%nat) < sigma (heap W' 1%nat).
Proof.
  assert (Hfloor : 1e-5 < sqrt 1e-9).
  { rewrite <- (sqrt_square 1e-5) by lra. apply sqrt_lt_1_alt. lra. }
  rewrite rate_two_eq. cbv zeta.
  rewrite bool_decide_eq_false_2 by discriminate.
  rewrite bool_decide_eq_true_2 by reflexivity.
  set (W0 := two_fresh_players tiny_sigma_env).
  set (Wd := drift_team (drift_team W0 [0%nat]) [1%nat]).
  assert (Hvar : 0 < pair_variance (self Wd) (heap Wd) [0%nat] [1%nat]).
  { apply pair_variance_pos.
    - change (25 / 6 <> 0). lra.
    - change (0 <= 0). lra.
    - discriminate. }
  pose proof (rate_one_vs_one 0%nat 1%nat false false Wd ltac:(discriminate) Hvar) as E.
  cbv zeta in E. unfold bind. rewrite E. clear E. unfold ret.
  eexists _, _. split; [reflexivity|].
  split; [reflexivity|]. split; [reflexivity|].
  cbn [heap]. rewrite heap_set_same.
  rewrite heap_set_other by discriminate. rewrite heap_set_same.
  cbn [sigma].
  change (sigma (heap W0 0%nat)) with 1e-5.
  change (sigma (heap W0 1%nat)) with 1e-5.
  split; (eapply Rlt_le_trans; [exact Hfloor | apply sqrt_le_1_alt, Rmax_l]).
Qed.

(** ** The draw margin *)

Lemma bisect_S n target lo hi :
  bisect (S n) target lo hi =
  if Rlt_dec (_Phi ((lo + hi) / 2)) target
  then bisect n target ((lo + hi) / 2) hi
  else bisect n target lo ((lo + hi) / 2).
Proof. reflexivity. Qed.

(** With target 1/2 and the bracket [(lo, 0)], [lo < 0], every midpoint is
    negative and the search moves [lo]. *)
Lemma bisect_left_of_zero n : forall lo,
  lo < 0 -> bisect n (1 / 2) lo 0 = (lo / 2 ^ n, 0).
Proof.
  induction n as [|n IH]; intros lo Hlo.
  - simpl. f_equal. lra.
  - rewrite bisect_S.
    assert (Hmid : (lo + 0) / 2 < 0) by lra.
    destruct (Rlt_dec (_Phi ((lo + 0) / 2)) (1 / 2)) as [_|H].
    + rewrite IH by exact Hmid. f_equal. simpl. field.
      apply pow_nonzero. lra.
    + exfalso. apply H. now apply Phi_neg.
Qed.

(** With the bracket [(0, hi)] and a target that [Phi] reaches at
    [hi / 2 ^ n], every midpoint is at or above the target and the search
    moves [hi]. *)
Lemma bisect_right_of_zero target n : forall hi,
  0 < hi -> target <= _Phi (hi / 2 ^ n) ->
  bisect n target 0 hi = (0, hi / 2 ^ n).
Proof.
  induction n as [|n IH]; intros hi Hhi Ht.
  - simpl. f_equal. lra.
  - rewrite bisect_S.
    assert (Hpow : 0 < 2 ^ n) by (apply pow_lt; lra).
    assert (Heq : hi / 2 ^ S n = (0 + hi) / 2 / 2 ^ n).
    { simpl. field. lra. }
    assert (Hle : hi / 2 ^ S n <= (0 + hi) / 2).
    { rewrite Heq. apply Rle_trans with ((0 + hi) / 2 / 1); [|lra].
      unfold Rdiv at 1 3. apply Rmult_le_compat_l; [lra|].
      apply Rinv_le_contravar; [lra|]. apply pow_R1_Rle. lra. }
    destruct (Rlt_dec (_Phi ((0 + hi) / 2)) target) as [H|_].
    + exfalso.
      destruct Hle as [Hlt|Heq'].
      * pose proof (Phi_increasing _ _ Hlt). lra.
      * rewrite Heq' in Ht. lra.
    + rewrite IH; [now rewrite Heq | lra | now rewrite <- Heq].
Qed.

(** Two searches on brackets of the same width, the second bracket a whole
    number of widths to the right and its target at least the first's: the
    second search ends at or to the right of the first. *)
Lemma bisect_monotone t1 t2 n :
  t1 <= t2 ->
  forall lo1 hi1 lo2 hi2 (k : nat),
    0 <= hi1 - lo1 ->
    hi2 - lo2 = hi1 - lo1 ->
    lo2 - lo1 = INR k * (hi1 - lo1) ->
    fst (bisect n t1 lo1 hi1) + snd (bisect n t1 lo1 hi1)
    <= fst (bisect n t2 lo2 hi2) + snd (bisect n t2 lo2 hi2).
Proof.
  intros Ht. induction n as [|n IH]; intros lo1 hi1 lo2 hi2 k Hw Hw2 Hk.
  - simpl. pose proof (pos_INR k). nra.
  - rewrite !bisect_S.
    destruct (Rlt_dec (_Phi ((lo1 + hi1) / 2)) t1) as [H1|H1];
      destruct (Rlt_dec (_Phi ((lo2 + hi2) / 2)) t2) as [H2|H2].
    + apply (IH _ _ _ _ (2 * k)%nat); [lra | lra |].
      rewrite mult_INR. simpl. lra.
    + destruct k as [|k].
      * exfalso. simpl in Hk.
        assert (E : (lo2 + hi2) / 2 = (lo1 + hi1) / 2) by lra.
        rewrite E in H2. lra.
      * apply (IH _ _ _ _ (2 * k + 1)%nat); [lra | lra |].
        rewrite S_INR in Hk. rewrite plus_INR, mult_INR. simpl. lra.
    + apply (IH _ _ _ _ (2 * k + 1)%nat); [lra | lra |].
      rewrite plus_INR, mult_INR. simpl. lra.
    + apply (IH _ _ _ _ (2 * k)%nat); [lra | lra |].
      rewrite mult_INR. simpl. lra.
Qed.

Lemma draw_margin_0 beta :
  _draw_margin beta 0 = - (10 / 2 ^ 80) * sqrt 2 * beta.
Proof.
  unfold _draw_margin. cbv zeta.
  replace ((0 + 1) / 2) with (1 / 2) by lra.
  change 80%nat with (S 79). rewrite bisect_S.
  replace ((-10 + 10) / 2) with 0 by lra. rewrite Phi_0.
  destruct (Rlt_dec (1 / 2) (1 / 2)) as [H|_]; [lra|].
  rewrite bisect_left_of_zero by lra.
  f_equal. f_equal. simpl. field.
Qed.

Lemma draw_margin_monotone beta p1 p2 :
  0 <= beta -> p1 <= p2 -> _draw_margin beta p1 <= _draw_margin beta p2.
Proof.
  intros Hb Hp. unfold _draw_margin. cbv zeta.
  pose proof (bisect_monotone ((p1 + 1) / 2) ((p2 + 1) / 2) 80 ltac:(lra)
                (-10) 10 (-10) 10 0%nat ltac:(lra) ltac:(lra)
                ltac:(simpl; lra)) as H.
  destruct (bisect 80 ((p1 + 1) / 2) (-10) 10) as [lo1 hi1].
  destruct (bisect 80 ((p2 + 1) / 2) (-10) 10) as [lo2 hi2].
  simpl in H. pose proof (sqrt_pos 2) as Hs.
  apply Rmult_le_compat_r; [exact Hb|].
  apply Rmult_le_compat_r; [exact Hs|]. lra.
Qed.

Lemma sqrt2_bounds : 1 <= _SQRT2 <= 2.
Proof.
  unfold _SQRT2. split.
  - rewrite <- sqrt_1 at 1. apply sqrt_le_1_alt. lra.
  - replace 2 with (sqrt (2 * 2)) at 2 by (apply sqrt_square; lra).
    apply sqrt_le_1_alt. lra.
Qed.

Lemma sqrt_PI_le_2 : sqrt PI <= 2.
Proof.
  replace 2 with (sqrt (2 * 2)) by (apply sqrt_square; lra).
  apply sqrt_le_1_alt. pose proof PI_4. lra.
Qed.

(** Near zero [Phi] leaves 1/2 at least linearly. *)
Lemma Phi_lower_small x : 0 <= x <= 1 -> 1 / 2 + x / 12 <= _Phi x.
Proof.
  intros [Hx0 Hx1]. unfold _Phi.
  pose proof sqrt2_bounds as [Hs1 Hs2].
  set (y := x / _SQRT2).
  assert (Hy0 : 0 <= y).
  { unfold y. apply Rmult_le_pos; [lra|]. left. apply Rinv_0_lt_compat. lra. }
  assert (Hy2 : x / 2 <= y).
  { unfold y, Rdiv. apply Rmult_le_compat_l; [lra|].
    apply Rinv_le_contravar; lra. }
  assert (Hy1 : y <= 1).
  { unfold y. apply Rle_trans with (x / 1); [|lra].
    unfold Rdiv. apply Rmult_le_compat_l; [lra|].
    apply Rinv_le_contravar; lra. }
  pose proof (ErfFacts.erf_lower y Hy0) as He.
  assert (Hg : 1 / 3 <= Erf.gauss y).
  { apply Rle_trans with (Erf.gauss 1).
    - unfold Erf.gauss. rewrite Rmult_1_r, exp_Ropp. pose proof exp_le_3. pose proof (exp_pos 1).
      unfold Rdiv. rewrite Rmult_1_l. apply Rinv_le_contravar; lra.
    - apply Erf.gauss_antitone. nra. }
  assert (Hk : 1 <= 2 / sqrt PI).
  { pose proof sqrt_PI_le_2. pose proof (sqrt_lt_R0 PI PI_RGT_0).
    apply Rmult_le_reg_r with (sqrt PI); [lra|].
    unfold Rdiv. rewrite Rmult_assoc, Rinv_l by lra. lra. }
  assert (Hgy : x / 6 <= Erf.gauss y * y) by nra.
  assert (x / 6 <= 2 / sqrt PI * (Erf.gauss y * y)) by nra.
  lra.
Qed.

(** For a small positive draw probability the search never leaves the
    rightmost dyadic cell next to zero. *)
Lemma draw_margin_small beta p :
  0 < p <= 1e-29 -> _draw_margin beta p = 10 / 2 ^ 80 * sqrt 2 * beta.
Proof.
  intros [Hp0 Hp1]. unfold _draw_margin. cbv zeta.
  change 80%nat with (S 79). rewrite bisect_S.
  replace ((-10 + 10) / 2) with 0 by lra. rewrite Phi_0.
  destruct (Rlt_dec (1 / 2) ((p + 1) / 2)) as [_|H]; [|lra].
  rewrite bisect_right_of_zero.
  - f_equal. f_equal. simpl. field.
  - lra.
  - eapply Rle_trans; [|apply Phi_lower_small]; lra.
Qed.

(** C7 fails as stated: two distinct draw probabilities in [0, 1) with the
    same margin. *)
Lemma draw_margin_not_strictly_increasing :
  0 <= 1e-30 /\ 1e-30 < 2e-30 /\ 2e-30 < 1 /\
  _draw_margin (25 / 6) 1e-30 = _draw_margin (25 / 6) 2e-30.
Proof.
  repeat split; try lra.
  rewrite !draw_margin_small by lra. reflexivity.
Qed.

(** ** The update loops on teams without repeated players *)

Lemma update_player_updated (winner : bool) c v w
    (d : gmap string R * gmap string R) p W :
  update_player winner c v w d p W =
  (Return (record_update winner c v w (heap W) d p),
   {| self := self W;
      heap := heap_set (heap W) p (updated winner c v w (heap W p));
      next := next W |}).
Proof. pose proof (update_player_eq winner c v w d p W) as E. exact E. Qed.

Lemma record_updates_ext (winner : bool) c v w (h1 h2 : Heap) team :
  (forall q, In q team -> h1 q = h2 q) ->
  forall d : gmap string R * gmap string R,
    fold_left (record_update winner c v w h1) team d
    = fold_left (record_update winner c v w h2) team d.
Proof.
  induction team as [|p team IH]; intros Hh d; simpl; [reflexivity|].
  rewrite IH by (intros q Hq; apply Hh; now right).
  unfold record_update. rewrite (Hh p) by now left. reflexivity.
Qed.

(** On a team without repeated players, the loop updates each member once,
    from its state before the loop, and leaves everyone else alone. *)
Lemma update_loop_spec (winner : bool) c v w team :
  NoDup team ->
  forall (d : gmap string R * gmap string R) W,
  exists W',
    for_acc team (update_player winner c v w) d W
    = (Return (fold_left (record_update winner c v w (heap W)) team d), W') /\
    self W' = self W /\ next W' = next W /\
    (forall q, ~ In q team -> heap W' q = heap W q) /\
    (forall q, In q team -> heap W' q = updated winner c v w (heap W q)).
Proof.
  induction team as [|p team IH]; intros Hnd d W.
  - exists W. simpl. repeat split; auto. intros q [].
  - inversion Hnd as [|? ? Hp Hnd']; subst.
    rewrite list_elem_of_In in Hp.
    simpl for_acc. unfold bind. rewrite update_player_updated.
    set (W1 := {| self := self W;
                  heap := heap_set (heap W) p (updated winner c v w (heap W p));
                  next := next W |}).
    destruct (IH Hnd' (record_update winner c v w (heap W) d p) W1)
      as (W' & E & Hs & Hn & Hout & Hin).
    exists W'. rewrite E. split.
    { f_equal. f_equal. simpl. apply record_updates_ext.
      intros q Hq. cbn [heap W1]. apply heap_set_other.
      intros ->. contradiction. }
    split; [exact Hs|]. split; [exact Hn|]. split.
    + intros q Hq. rewrite Hout by (intros H; apply Hq; now right).
      cbn [heap W1]. apply heap_set_other. intros ->. apply Hq. now left.
    + intros q [->|Hq].
      * rewrite Hout by exact Hp. cbn [heap W1]. apply heap_set_same.
      * rewrite Hin by exact Hq. cbn [heap W1].
        rewrite heap_set_other; [reflexivity|]. intros ->. contradiction.
Qed.

(** Entries of the dictionaries for a name no player of [team] bears. *)
Lemma record_updates_other (winner : bool) c v w h team n :
  (forall q, In q team -> name (h q) <> n) ->
  forall d : gmap string R * gmap string R,
    fst (fold_left (record_update winner c v w h) team d) !! n = fst d !! n /\
    snd (fold_left (record_update winner c v w h) team d) !! n = snd d !! n.
Proof.
  induction team as [|p team IH]; intros Hn d; simpl; [auto|].
  destruct (IH (fun q Hq => Hn q (or_intror Hq)) (record_update winner c v w h d p))
    as [E1 E2].
  rewrite E1, E2. unfold record_update. cbn [fst snd].
  rewrite !lookup_insert_ne by (apply Hn; now left). auto.
Qed.

(** The entry for a name is the one written for the last player bearing it. *)
Lemma record_updates_last (winner : bool) c v w h l1 p l2 :
  (forall q, In q l2 -> name (h q) <> name (h p)) ->
  forall d : gmap string R * gmap string R,
    fst (fold_left (record_update winner c v w h) (l1 ++ p :: l2) d) !! name (h p)
    = Some (mu (updated winner c v w (h p)) - mu (h p)) /\
    snd (fold_left (record_update winner c v w h) (l1 ++ p :: l2) d) !! name (h p)
    = Some (sigma (updated winner c v w (h p))).
Proof.
  intros Hn d. rewrite fold_left_app. simpl.
  destruct (record_updates_other winner c v w h l2 (name (h p)) Hn
              (record_update winner c v w h
                 (fold_left (record_update winner c v w h) l1 d) p)) as [E1 E2].
  rewrite E1, E2. unfold record_update. cbn [fst snd].
  rewrite !lookup_insert_eq. auto.
Qed.

(** C10: a pairwise update that returns a report, on teams without repeated
    players: when a winner [pw] and a loser [pl] bear the same name, the
    entries of [delta_mu] and [new_sigma] under that name are those of the
    last loser bearing it ([pl]), although both [pw] and [pl] have been
    updated. *)
Theorem report_keeps_loser_entry_for_shared_name
    (tw l1 l2 : list loc) (pw pl : loc) (is_draw : bool) (W : World) :
  beta (self W) <> 0 -> 0 <= trust (self W) ->
  NoDup (tw ++ l1 ++ pl :: l2) ->
  In pw tw ->
  name (heap W pw) = name (heap W pl) ->
  (forall q, In q l2 -> name (heap W q) <> name (heap W pl)) ->
  exists rep W',
    _rate_two_teams tw (l1 ++ pl :: l2) is_draw true W = (Return (Some rep), W') /\
    rep_delta_mu rep !! name (heap W pl)
    = Some (mu (heap W' pl) - mu (heap W pl)) /\
    rep_new_sigma rep !! name (heap W pl) = Some (sigma (heap W' pl)) /\
    heap W' pw = updated true (rep_c rep) (rep_v rep) (rep_w rep) (heap W pw) /\
    heap W' pl = updated false (rep_c rep) (rep_v rep) (rep_w rep) (heap W pl).
Proof.
  intros Hb Ht Hnd Hpw Hname Hl2.
  apply NoDup_app in Hnd as (Hndw & Hdisj & Hndl).
  assert (Hpl_in : In pl (l1 ++ pl :: l2)).
  { apply in_or_app. right. now left. }
  assert (Hpl_out : ~ In pl tw).
  { intros H. apply (Hdisj pl); now apply list_elem_of_In. }
  assert (Hpw_out : ~ In pw (l1 ++ pl :: l2)).
  { intros H. apply (Hdisj pw); now apply list_elem_of_In. }
  assert (Hvar : 0 < pair_variance (self W) (heap W) tw (l1 ++ pl :: l2)).
  { apply pair_variance_pos; auto. destruct tw; [destruct Hpw | discriminate]. }
  rewrite rate_two_teams_eq. cbv zeta.
  destruct (Rlt_dec _ 0) as [Hneg|_]; [lra|].
  destruct (Req_dec_T _ 0) as [Hz|_].
  { unfold pair_c in Hz. apply sqrt_eq_0 in Hz; lra. }
  set (c := pair_c (self W) (heap W) tw (l1 ++ pl :: l2)).
  set (t := pair_t (self W) (heap W) tw (l1 ++ pl :: l2)).
  set (v := if is_draw then _v_draw t (eps (self W) / c) else _v_truncate t).
  set (w := if is_draw then _w_draw t (eps (self W) / c) else _w_truncate t).
  destruct (update_loop_spec true c v w tw Hndw (∅, ∅) W)
    as (W1 & E1 & _ & _ & Hout1 & Hin1).
  unfold bind at 1. rewrite E1.
  destruct (update_loop_spec false c v w (l1 ++ pl :: l2) Hndl
              (fold_left (record_update true c v w (heap W)) tw (∅, ∅)) W1)
    as (W2 & E2 & _ & _ & Hout2 & Hin2).
  unfold bind at 1. rewrite E2. cbn [negb]. unfold bind, get_heap, ret.
  eexists _, W2. split; [reflexivity|]. cbn [rep_delta_mu rep_new_sigma rep_c rep_v rep_w].
  assert (Hagree : forall q, In q (l1 ++ pl :: l2) -> heap W1 q = heap W q).
  { intros q Hq. apply Hout1. intros H.
    apply (Hdisj q); now apply list_elem_of_In. }
  rewrite (record_updates_ext false c v w (heap W1) (heap W)) by exact Hagree.
  assert (Hpl : heap W2 pl = updated false c v w (heap W pl)).
  { rewrite Hin2 by exact Hpl_in. now rewrite Hagree. }
  assert (Hpw' : heap W2 pw = updated true c v w (heap W pw)).
  { rewrite Hout2 by exact Hpw_out. now apply Hin1. }
  destruct (record_updates_last false c v w (heap W) l1 pl l2 Hl2
              (fold_left (record_update true c v w (heap W)) tw (∅, ∅)))
    as [D1 D2].
  rewrite D1, D2, Hpl. auto.
Qed.

Lemma report_keeps_loser_entry_for_shared_name_witness :
  exists rep W',
    _rate_two_teams [0%nat] [1%nat] false true (two_namesakes default_env)
    = (Return (Some rep), W') /\
    rep_delta_mu rep !! "A"
    = Some (mu (heap W' 1%nat) - mu (heap (two_namesakes default_env) 1%nat)) /\
    rep_new_sigma rep !! "A" = Some (sigma (heap W' 1%nat)).
Proof.
  destruct (report_keeps_loser_entry_for_shared_name
              [0%nat] [] [] 0%nat 1%nat false (two_namesakes default_env))
    as (rep & W' & E & D1 & D2 & _).
  - change (25 / 6 <> 0). lra.
  - change (0 <= 0). lra.
  - apply NoDup_ListNoDup. repeat constructor; simpl; intuition discriminate.
  - now left.
  - reflexivity.
  - intros q [].
  - exists rep, W'. split; [exact E|]. split; [exact D1 | exact D2].
Defined.

(** ** Sorting team indices by rank *)

Section SortedByKey.

Variable key : nat -> Z.

Lemma insert_by_perm x l : Permutation (insert_by key x l) (x :: l).
Proof.
  induction l as [|y l IH]; simpl; [reflexivity|].
  destruct (decide (key x <= key y)%Z); [reflexivity|].
  rewrite IH. apply perm_swap.
Qed.

Lemma sorted_perm l : Permutation (sorted l key) l.
Proof.
  unfold sorted. induction l as [|x l IH]; simpl; [reflexivity|].
  rewrite insert_by_perm. now constructor.
Qed.

Lemma sorted_length l : length (sorted l key) = length l.
Proof. apply Permutation_length, sorted_perm. Qed.

Lemma insert_by_sorted x l :
  Forall (fun y => (x < y)%nat) l ->
  Sorted (stable_before key) l -> Sorted (stable_before key) (insert_by key x l).
Proof.
  intros Hlt Hs. induction l as [|y l IH]; simpl.
  - repeat constructor.
  - inversion Hlt as [|? ? Hxy Hlt']; subst.
    inversion Hs as [|? ? Hs' Hhd]; subst.
    destruct (decide (key x <= key y)%Z) as [Hle|Hgt].
    + constructor; [exact Hs|]. constructor.
      unfold stable_before. destruct (Z.eq_dec (key x) (key y)); [right | left]; lia.
    + constructor; [now apply IH|].
      destruct l as [|z l]; simpl.
      * constructor. left. lia.
      * destruct (decide (key x <= key z)%Z).
        -- constructor. left. lia.
        -- inversion Hhd; subst. now constructor.
Qed.

Lemma sorted_seq_stable k n : Sorted (stable_before key) (sorted (seq k n) key).
Proof.
  unfold sorted. revert k. induction n as [|n IH]; intros k; simpl.
  - constructor.
  - apply insert_by_sorted; [|apply IH].
    eapply Permutation_Forall; [symmetry; apply (sorted_perm (seq (S k) n))|].
    apply Forall_forall. intros y Hy. apply list_elem_of_In, in_seq in Hy. lia.
Qed.

End SortedByKey.

(** ** The free-for-all decomposition *)

Lemma adjacent_pairs_length order :
  length (adjacent_pairs order) = (length order - 1)%nat.
Proof.
  unfold adjacent_pairs. rewrite length_combine.
  destruct order as [|x order]; cbn [length tl]; lia.
Qed.

Lemma rate_adjacent_rate_pair teams ranks rr order reports i W :
  rate_adjacent teams ranks rr order reports i W
  = rate_pair teams ranks rr reports (nth i order O, nth (i + 1) order O) W.
Proof.
  unfold rate_adjacent, rate_pair. cbn [fst snd]. apply bind_ext.
  intros [r|] W1; unfold ret; [reflexivity | now rewrite app_nil_r].
Qed.

(** The loop over indices of [order] visits its adjacent pairs in order. *)
Lemma index_loop_adjacent_pairs teams ranks rr order :
  forall l k,
    (forall j, (j < length l)%nat -> nth j l O = nth (k + j) order O) ->
    forall reports W,
      for_acc (seq k (length l - 1)) (rate_adjacent teams ranks rr order) reports W
      = for_acc (adjacent_pairs l) (rate_pair teams ranks rr) reports W.
Proof.
  induction l as [|x l IH]; intros k Hl reports W; [reflexivity|].
  destruct l as [|y l]; [reflexivity|].
  replace (length (x :: y :: l) - 1)%nat with (S (length (y :: l) - 1))%nat
    by (cbn [length]; lia).
  cbn [seq for_acc adjacent_pairs tl combine].
  unfold bind. rewrite rate_adjacent_rate_pair.
  assert (Hx : nth k order O = x).
  { pose proof (Hl 0%nat ltac:(cbn [length]; lia)) as H0.
    rewrite Nat.add_0_r in H0. now rewrite <- H0. }
  assert (Hy : nth (k + 1) order O = y).
  { pose proof (Hl 1%nat ltac:(cbn [length]; lia)) as H1. now rewrite <- H1. }
  rewrite Hx, Hy.
  destruct (rate_pair teams ranks rr reports (x, y) W) as [[r|e] W1]; [|reflexivity].
  apply (IH (S k)). intros j Hj.
  pose proof (Hl (S j) ltac:(cbn [length] in *; lia)) as H.
  change (nth (S j) (x :: y :: l) O) with (nth j (y :: l) O) in H.
  rewrite H. f_equal. lia.
Qed.

(** On more than two teams [rate] is the decomposition of the
    specification. *)
Lemma rate_free_for_all_eq teams ranks rr W :
  length teams = length ranks -> (2 < length teams)%nat ->
  rate teams ranks rr W = free_for_all_spec teams ranks rr W.
Proof.
  intros Hlen Hn. unfold rate, free_for_all_spec.
  destruct (decide (length teams <> length ranks)) as [H|_]; [contradiction|].
  destruct (decide (length teams < 2)%nat) as [H|_]; [lia|].
  apply bind_ext. intros _ W1.
  destruct (decide (2 < length teams)%nat) as [_|H]; [|lia].
  cbv zeta. apply bind_ext_l.
  apply (index_loop_adjacent_pairs teams ranks rr _ _ 0%nat).
  intros j _. reflexivity.
Qed.

Lemma update_keeps_env_and_names slf h0 winner c v w d p :
  preserves (same_env_and_names slf h0) (update_player winner c v w d p).
Proof.
  intros W [Hs Hn]. rewrite update_player_eq. split; [exact Hs|].
  intros q. cbn [snd heap]. unfold heap_set.
  destruct (Nat.eq_dec q p) as [->|_]; [apply Hn | apply Hn].
Qed.

Lemma drift_keeps_env_and_names slf h0 p :
  preserves (same_env_and_names slf h0) (_apply_drift p).
Proof.
  intros W [Hs Hn]. rewrite apply_drift_eq. split; [exact Hs|].
  intros q. cbn [snd heap]. unfold heap_set.
  destruct (Nat.eq_dec q p) as [->|_]; [apply Hn | apply Hn].
Qed.

(** With [beta <> 0], [trust >= 0] and a player in one of the two teams of
    every pair, the pairwise updates of a list of pairs all return, with
    one report per pair, in order, when reports are asked for. *)
Lemma pairs_loop_returns teams ranks (rr : bool) slf h0 pairs :
  beta slf <> 0 -> 0 <= trust slf ->
  (forall ab, In ab pairs -> nth (fst ab) teams [] ++ nth (snd ab) teams [] <> []) ->
  forall reports W,
    same_env_and_names slf h0 W ->
    exists new W',
      for_acc pairs (rate_pair teams ranks rr) reports W
      = (Return (reports ++ new), W') /\
      same_env_and_names slf h0 W' /\
      (rr = true -> Forall2 (report_of_pair teams ranks h0) pairs new) /\
      (rr = false -> new = []).
Proof.
  intros Hb Ht. induction pairs as [|ab pairs IH]; intros Hne reports W HW.
  - exists [], W. simpl. rewrite app_nil_r. repeat split; auto; try apply HW.
  - cbn [for_acc]. unfold bind at 1. unfold rate_pair at 1. unfold bind at 1.
    destruct HW as [Hs Hn].
    destruct (rate_two_teams_returns (nth (fst ab) teams []) (nth (snd ab) teams [])
                (bool_decide (nth (fst ab) ranks 0%Z = nth (snd ab) ranks 0%Z)) rr W)
      as (r & W1 & E & Hnone & Hsome).
    { apply pair_variance_pos; rewrite ?Hs; auto. apply Hne. now left. }
    assert (HW1 : same_env_and_names slf h0 W1).
    { replace W1 with
        (snd (_rate_two_teams (nth (fst ab) teams []) (nth (snd ab) teams [])
                (bool_decide (nth (fst ab) ranks 0%Z = nth (snd ab) ranks 0%Z)) rr W))
        by now rewrite E.
      apply preserves_rate_two_teams; [|split; auto].
      intros; apply update_keeps_env_and_names. }
    rewrite E. unfold ret at 1.
    destruct (IH (fun ab' H => Hne ab' (or_intror H))
                (reports ++ match r with Some r0 => [r0] | None => [] end) W1 HW1)
      as (new & W' & E' & HW' & Hrep & Hnil).
    rewrite E'. rewrite <- app_assoc.
    eexists _, W'. split; [reflexivity|]. split; [exact HW'|]. split.
    + intros ->. destruct (Hsome eq_refl) as (rep & -> & Hd & Hw & Hl).
      cbn [app]. constructor; [|now apply Hrep].
      destruct HW1 as [_ Hn1]. unfold report_of_pair. rewrite Hd, Hw, Hl.
      repeat split; apply map_ext; intros q; apply Hn1.
    + intros ->. rewrite (Hnone eq_refl), (Hnil eq_refl). reflexivity.
Qed.

Lemma in_adjacent_pairs order a b :
  In (a, b) (adjacent_pairs order) -> In a order /\ In b order.
Proof.
  unfold adjacent_pairs. intros H. split.
  - eapply in_combine_l; eauto.
  - apply in_combine_r in H. destruct order; [destruct H | now right].
Qed.

(** C3: with [beta <> 0] and [trust >= 0], on N > 2 non-empty teams with as
    many ranks, [rate] is the decomposition of the specification (drift,
    then one pairwise update per adjacent pair of the team indices sorted
    by rank); the sorted order is a permutation of the indices, ascending in
    rank, ties in index order; there are N - 1 adjacent pairs; [rate]
    returns, and when reports are asked for it returns one report per
    adjacent pair, in order: winner the first team of the pair, loser the
    second, a draw exactly when their ranks are equal. *)
Theorem free_for_all_decomposition
    (teams : list (list loc)) (ranks : list Z) (return_report : bool) (W : World) :
  beta (self W) <> 0 -> 0 <= trust (self W) ->
  length teams = length ranks -> (2 < length teams)%nat ->
  (forall team, In team teams -> team <> []) ->
  let rank := fun i => nth i ranks 0%Z in
  let order := sorted (seq 0 (length teams)) rank in
  Permutation order (seq 0 (length teams)) /\
  Sorted (stable_before rank) order /\
  length (adjacent_pairs order) = (length teams - 1)%nat /\
  rate teams ranks return_report W = free_for_all_spec teams ranks return_report W /\
  exists reports W',
    rate teams ranks return_report W
    = (Return (if return_report then Some reports else None), W') /\
    (return_report = true ->
     length reports = (length teams - 1)%nat /\
     Forall2 (report_of_pair teams ranks (heap W)) (adjacent_pairs order) reports).
Proof.
  intros Hb Ht Hlen Hn Hne rank order.
  assert (Hperm : Permutation order (seq 0 (length teams))) by apply sorted_perm.
  assert (Hpairs : length (adjacent_pairs order) = (length teams - 1)%nat).
  { rewrite adjacent_pairs_length. unfold order.
    rewrite sorted_length, length_seq. reflexivity. }
  split; [exact Hperm|]. split; [apply sorted_seq_stable|].
  split; [exact Hpairs|]. split; [now apply rate_free_for_all_eq|].
  rewrite rate_free_for_all_eq by assumption. unfold free_for_all_spec.
  unfold bind at 1. rewrite for_teams_drift_eq. cbv beta iota.
  subst order rank.
  set (Wd := fold_left drift_team teams W).
  assert (HWd : same_env_and_names (self W) (heap W) Wd).
  { replace Wd with (snd (for_ teams (fun team => for_ team _apply_drift) W))
      by now rewrite for_teams_drift_eq.
    apply preserves_for_; [|split; auto].
    intros team _. apply preserves_for_. intros p _.
    apply drift_keeps_env_and_names. }
  destruct (pairs_loop_returns teams ranks return_report (self W) (heap W)
              (adjacent_pairs
                 (sorted (seq 0 (length teams)) (fun i => nth i ranks 0%Z)))
              Hb Ht) with (reports := @nil EPUpdateReport) (W := Wd)
    as (new & W' & E & _ & Hrep & _); [|exact HWd|].
  { intros [a b] Hab. cbn [fst snd].
    apply in_adjacent_pairs in Hab as [Ha _].
    assert (Ha' : (a < length teams)%nat).
    { eapply Permutation_in in Ha; [|exact Hperm].
      apply in_seq in Ha. lia. }
    intros Happ. apply app_eq_nil in Happ as [Hnil _].
    apply (Hne (nth a teams [])); [now apply nth_In | exact Hnil]. }
  unfold bind. rewrite E. unfold ret. cbn [app].
  exists new, W'. split; [reflexivity|].
  intros Hrr. specialize (Hrep Hrr). split; [|exact Hrep].
  apply Forall2_length in Hrep. lia.
Qed.

Lemma free_for_all_decomposition_witness :
  exists r1 r2 W',
    rate [[0%nat]; [1%nat]; [2%nat]] [0%Z; 1%Z; 2%Z] true
      (three_fresh_players default_env)
    = (Return (Some [r1; r2]), W') /\
    (rep_team_winner r1 = ["A"] /\ rep_team_loser r1 = ["B"]
     /\ rep_is_draw r1 = false) /\
    (rep_team_winner r2 = ["B"] /\ rep_team_loser r2 = ["C"]
     /\ rep_is_draw r2 = false).
Proof.
  destruct (free_for_all_decomposition
              [[0%nat]; [1%nat]; [2%nat]] [0%Z; 1%Z; 2%Z] true
              (three_fresh_players default_env))
    as (_ & _ & _ & _ & reports & W' & E & Hrep).
  - change (25 / 6 <> 0). lra.
  - change (0 <= 0). lra.
  - reflexivity.
  - cbn [length]. lia.
  - intros team [<-|[<-|[<-|[]]]]; discriminate.
  - destruct (Hrep eq_refl) as [_ H].
    change (adjacent_pairs _) with [(0%nat, 1%nat); (1%nat, 2%nat)] in H.
    inversion H as [|? r1 ? l1 H1 H']; subst.
    inversion H' as [|? r2 ? l2 H2 H'']; subst.
    inversion H''; subst.
    exists r1, r2, W'. split; [exact E|].
    destruct H1 as (D1 & Tw1 & Tl1). destruct H2 as (D2 & Tw2 & Tl2).
    rewrite D1, Tw1, Tl1, D2, Tw2, Tl2. repeat split.
Defined.

(** ** The default one-versus-one scenario, end to end *)

Lemma w_truncate_0_ge_half : 1 / 2 <= _w_truncate 0.
Proof.
  unfold _w_truncate. cbv zeta. rewrite v_truncate_0, phi_0, Phi_0.
  rewrite Rplus_0_r.
  pose proof sqrt_2PI_pos as Hs.
  assert (Hsq : _SQRT_2PI * _SQRT_2PI = 2 * PI).
  { unfold _SQRT_2PI. apply sqrt_sqrt. pose proof PI_RGT_0. lra. }
  replace (/ _SQRT_2PI / (1 / 2) * (/ _SQRT_2PI / (1 / 2)))
    with (4 / (_SQRT_2PI * _SQRT_2PI)) by (field; lra).
  rewrite Hsq. pose proof PI_4. pose proof PI_RGT_0.
  apply Rmult_le_reg_r with (2 * PI); [lra|].
  unfold Rdiv at 2. rewrite Rmult_assoc, Rinv_l by lra. lra.
Qed.

(** Two fresh players of the default environment, [rate] with
    [ranks = [0, 1]]: the call returns, the winner's mu rises above 25 and
    the loser's falls below it by the same amount, and both sigmas end
    strictly below the prior 25/3, drift included. *)
Lemma default_win_scenario :
  exists W',
    rate [[0%nat]; [1%nat]] [0%Z; 1%Z] false (two_fresh_players default_env)
    = (Return None, W') /\
    25 < mu (heap W' 0%nat) /\ mu (heap W' 1%nat) < 25 /\
    mu (heap W' 0%nat) - 25 = 25 - mu (heap W' 1%nat) /\
    sigma (heap W' 0%nat) < 25 / 3 /\ sigma (heap W' 1%nat) < 25 / 3.
Proof.
  rewrite rate_two_eq. cbv zeta.
  rewrite bool_decide_eq_false_2 by discriminate.
  rewrite bool_decide_eq_true_2 by reflexivity.
  set (Wd := drift_team (drift_team (two_fresh_players default_env) [0%nat]) [1%nat]).
  set (q := 25 / 3 * (25 / 3) + 25 / 300 * (25 / 300)).
  assert (HA : heap Wd 0%nat = {| name := "A"; mu := 25; sigma := sqrt q |})
    by reflexivity.
  assert (HB : heap Wd 1%nat = {| name := "B"; mu := 25; sigma := sqrt q |})
    by reflexivity.
  assert (Hq : sqrt q * sqrt q = q) by (apply sqrt_sqrt; unfold q; lra).
  assert (Hvar : pair_variance (self Wd) (heap Wd) [0%nat] [1%nat]
                 = q + q + 2 * (25 / 6 * (25 / 6))).
  { rewrite pair_variance_one_vs_one, HA, HB. cbn [sigma]. rewrite Hq.
    change (beta (self Wd)) with (25 / 6). change (trust (self Wd)) with 0. ring. }
  assert (Hvar0 : 0 < pair_variance (self Wd) (heap Wd) [0%nat] [1%nat]).
  { rewrite Hvar. unfold q. lra. }
  pose proof (rate_one_vs_one 0%nat 1%nat false false Wd ltac:(discriminate) Hvar0) as E.
  cbv zeta in E. unfold bind. rewrite E. clear E. unfold ret.
  eexists. split; [reflexivity|].
  cbn [heap]. rewrite heap_set_same.
  rewrite heap_set_other by discriminate. rewrite heap_set_same.
  rewrite HA, HB. cbn [mu sigma]. rewrite Hq.
  assert (Ht : pair_t (self Wd) (heap Wd) [0%nat] [1%nat] = 0).
  { rewrite pair_t_one_vs_one, HA, HB. cbn [mu]. unfold Rdiv.
    rewrite Rminus_diag. ring. }
  rewrite Ht.
  set (c := pair_c (self Wd) (heap Wd) [0%nat] [1%nat]).
  assert (Hc : 0 < c) by (unfold c, pair_c; now apply sqrt_lt_R0).
  assert (Hcc : c * c = q + q + 2 * (25 / 6 * (25 / 6))).
  { unfold c, pair_c. rewrite sqrt_sqrt by lra. exact Hvar. }
  rewrite Hcc.
  pose proof v_truncate_0_pos as Hv. pose proof w_truncate_0_ge_half as Hw.
  assert (Hd : 0 < q / c * _v_truncate 0).
  { apply Rmult_lt_0_compat; [|exact Hv]. apply Rdiv_lt_0_compat; [unfold q; lra | exact Hc]. }
  assert (Hs : sqrt (Rmax 1e-9
                       (q * (1 - q / (q + q + 2 * (25 / 6 * (25 / 6))) * _w_truncate 0)))
               < 25 / 3).
  { rewrite <- (sqrt_square (25 / 3)) at 1 by lra.
    apply sqrt_lt_1_alt. split.
    { apply Rle_trans with 1e-9; [lra | apply Rmax_l]. }
    apply Rmax_lub_lt; [lra|].
    set (w := _w_truncate 0) in *. unfold q. lra. }
  repeat split; lra.
Qed.

(** * Further properties of the engine *)

(** ** Which way a pairwise update moves the means *)

(** As [rate_two_teams_world], the iteration being told which team its
    player comes from. *)
Lemma rate_two_teams_world_on (I : World -> Prop) tw tl (is_draw collect : bool) W :
  I W ->
  (forall c v w (winner : bool) d p,
     0 < c -> c = pair_c (self W) (heap W) tw tl ->
     v = (if is_draw then _v_draw (pair_t (self W) (heap W) tw tl) (eps (self W) / c)
          else _v_truncate (pair_t (self W) (heap W) tw tl)) ->
     w = (if is_draw then _w_draw (pair_t (self W) (heap W) tw tl) (eps (self W) / c)
          else _w_truncate (pair_t (self W) (heap W) tw tl)) ->
     In p (if winner then tw else tl) ->
     preserves I (update_player winner c v w d p)) ->
  I (snd (_rate_two_teams tw tl is_draw collect W)).
Proof.
  intros HI Hstep. rewrite rate_two_teams_eq. cbv zeta.
  destruct (Rlt_dec _ 0) as [Hneg|Hnn]; [exact HI|].
  destruct (Req_dec_T _ 0) as [Hz|Hnz]; [exact HI|].
  assert (Hc : 0 < pair_c (self W) (heap W) tw tl).
  { pose proof (sqrt_pos (pair_variance (self W) (heap W) tw tl)).
    unfold pair_c in *. lra. }
  apply preserves_bind; [|intros d1|exact HI].
  { apply preserves_for_acc. intros d p Hp. now apply Hstep. }
  apply preserves_bind; [|intros d2].
  { apply preserves_for_acc. intros d p Hp. now apply Hstep. }
  destruct collect; simpl; auto with preserves.
  apply preserves_bind; auto with preserves.
Qed.

(** [v] of a win/loss update is positive everywhere: in the guarded tail
    [t] is negative and [v = - t]. *)
Lemma v_truncate_pos_all t : 0 < _v_truncate t.
Proof.
  unfold _v_truncate. cbv zeta.
  destruct (Rlt_dec (_Phi t) 1e-12) as [Hlt|Hge].
  - destruct (Rle_lt_dec 0 t) as [Ht|Ht]; [|lra].
    pose proof (Phi_nonneg_arg t Ht). lra.
  - apply Rdiv_lt_0_compat; [apply phi_pos | lra].
Qed.

(** X1: a win/loss update never lowers the mu of a player who is not on the
    losing team, and never raises the mu of a player who is not on the
    winning team (players on neither team, and updates that raise, keep
    their mu). *)
Theorem win_loss_moves_mu_the_right_way
    (tw tl : list loc) (collect : bool) (W : World) (p : loc) :
  (~ In p tl ->
   mu (heap W p) <= mu (heap (snd (_rate_two_teams tw tl false collect W)) p)) /\
  (~ In p tw ->
   mu (heap (snd (_rate_two_teams tw tl false collect W)) p) <= mu (heap W p)).
Proof.
  split; intros Hout.
  - apply (rate_two_teams_world_on (fun W' => mu (heap W p) <= mu (heap W' p)));
      [lra|].
    intros c v w winner d q Hc _ -> _ Hq W' HW'.
    rewrite update_player_eq. cbn [snd heap]. unfold heap_set.
    destruct (Nat.eq_dec p q) as [->|_]; [|exact HW'].
    destruct winner; [|contradiction]. cbn [mu].
    pose proof (v_truncate_pos_all (pair_t (self W) (heap W) tw tl)) as Hv.
    assert (0 <= sigma (heap W' q) * sigma (heap W' q) / c
                 * _v_truncate (pair_t (self W) (heap W) tw tl)).
    { apply Rmult_le_pos; [|lra]. apply Rmult_le_pos; [apply Rle_0_sqr|].
      left. now apply Rinv_0_lt_compat. }
    lra.
  - apply (rate_two_teams_world_on (fun W' => mu (heap W' p) <= mu (heap W p)));
      [lra|].
    intros c v w winner d q Hc _ -> _ Hq W' HW'.
    rewrite update_player_eq. cbn [snd heap]. unfold heap_set.
    destruct (Nat.eq_dec p q) as [->|_]; [|exact HW'].
    destruct winner; [contradiction|]. cbn [mu].
    pose proof (v_truncate_pos_all (pair_t (self W) (heap W) tw tl)) as Hv.
    assert (0 <= sigma (heap W' q) * sigma (heap W' q) / c
                 * _v_truncate (pair_t (self W) (heap W) tw tl)).
    { apply Rmult_le_pos; [|lra]. apply Rmult_le_pos; [apply Rle_0_sqr|].
      left. now apply Rinv_0_lt_compat. }
    lra.
Qed.

(** ** Draws *)

Lemma phi_even x : _phi (- x) = _phi x.
Proof. unfold _phi. do 2 f_equal. ring. Qed.

(** At [t = 0] the two truncation points are opposite and the mean shift of
    a draw vanishes, guard or no guard. *)
Lemma v_draw_0 e : _v_draw 0 e = 0.
Proof.
  unfold _v_draw. cbv zeta.
  destruct (Rlt_dec _ 1e-12); [reflexivity|].
  replace (- e - 0) with (- (e - 0)) by ring. rewrite phi_even.
  unfold Rdiv. ring.
Qed.

(** Without a positive margin the guard of the draw moments always fires. *)
Lemma draw_moments_without_margin t e :
  e <= 0 -> _v_draw t e = 0 /\ _w_draw t e = 0.
Proof.
  intros He. unfold _w_draw, _v_draw. cbv zeta.
  assert (_Phi (e - t) - _Phi (- e - t) <= 0).
  { destruct (Req_dec e 0) as [->|Hne].
    - replace (- 0 - t) with (0 - t) by ring. lra.
    - assert (H : e - t < - e - t) by lra.
      pose proof (Phi_increasing _ _ H). lra. }
  destruct (Rlt_dec _ 1e-12); [split; reflexivity | lra].
Qed.

(** X2: a draw between two teams whose summed mus are equal changes no
    player's mu (nor does a draw that raises). *)
Theorem draw_between_equal_means_keeps_mu
    (tw tl : list loc) (collect : bool) (W : World) (p : loc) :
  sum_over (heap W) mu tw = sum_over (heap W) mu tl ->
  mu (heap (snd (_rate_two_teams tw tl true collect W)) p) = mu (heap W p).
Proof.
  intros Hmu.
  apply (rate_two_teams_world (fun W' => mu (heap W' p) = mu (heap W p)));
    [reflexivity|].
  intros c v w winner d q _ _ -> _ W' HW'.
  rewrite update_player_eq. cbn [snd heap]. unfold heap_set.
  destruct (Nat.eq_dec p q) as [->|_]; [|exact HW'].
  assert (Ht : pair_t (self W) (heap W) tw tl = 0).
  { unfold pair_t. rewrite Hmu. unfold Rdiv. ring. }
  rewrite Ht, v_draw_0. destruct winner; cbn [mu]; rewrite <- HW'; ring.
Qed.

Lemma draw_between_equal_means_keeps_mu_witness :
  mu (heap (snd (_rate_two_teams [0%nat] [1%nat] true true
                   (two_fresh_players default_env))) 0%nat)
  = mu (heap (two_fresh_players default_env) 0%nat).
Proof.
  apply draw_between_equal_means_keeps_mu. reflexivity.
Defined.

(** X3: in an environment whose margin [eps] is not positive (as
    [draw_probability = 0] gives), a draw carries no information: it changes
    no mu, and no sigma that is at least the floor [sqrt 1e-9]. *)
Theorem draw_without_margin_changes_nothing
    (tw tl : list loc) (collect : bool) (W : World) (p : loc) :
  eps (self W) <= 0 ->
  mu (heap (snd (_rate_two_teams tw tl true collect W)) p) = mu (heap W p) /\
  (sqrt 1e-9 <= sigma (heap W p) ->
   sigma (heap (snd (_rate_two_teams tw tl true collect W)) p) = sigma (heap W p)).
Proof.
  intros Heps.
  assert (Hmom : forall c, 0 < c ->
            _v_draw (pair_t (self W) (heap W) tw tl) (eps (self W) / c) = 0 /\
            _w_draw (pair_t (self W) (heap W) tw tl) (eps (self W) / c) = 0).
  { intros c Hc. apply draw_moments_without_margin.
    assert (0 < / c) by now apply Rinv_0_lt_compat.
    unfold Rdiv. nra. }
  split.
  - apply (rate_two_teams_world (fun W' => mu (heap W' p) = mu (heap W p)));
      [reflexivity|].
    intros c v w winner d q Hc _ -> _ W' HW'.
    rewrite update_player_eq. cbn [snd heap]. unfold heap_set.
    destruct (Nat.eq_dec p q) as [->|_]; [|exact HW'].
    destruct (Hmom c Hc) as [-> _].
    destruct winner; cbn [mu]; rewrite <- HW'; ring.
  - intros Hfloor.
    apply (rate_two_teams_world (fun W' => sigma (heap W' p) = sigma (heap W p)));
      [reflexivity|].
    intros c v w winner d q Hc _ _ -> W' HW'.
    rewrite update_player_eq. cbn [snd heap]. unfold heap_set.
    destruct (Nat.eq_dec p q) as [->|_]; [|exact HW'].
    destruct (Hmom c Hc) as [_ ->]. cbn [sigma]. rewrite HW'.
    set (s := sigma (heap W q)) in *.
    pose proof sqrt_floor_sq as Hf. pose proof (sqrt_pos 1e-9) as Hf0.
    replace (s * s * (1 - s * s / (c * c) * 0)) with (s * s) by ring.
    rewrite Rmax_right by nra. apply sqrt_square. lra.
Qed.

Lemma draw_without_margin_changes_nothing_witness :
  mu (heap (snd (_rate_two_teams [0%nat] [1%nat] true false
                   (two_fresh_players
                      (TrueSkillEnv_init 25 (25 / 3) (25 / 6) (25 / 300) 0 0))))
        0%nat)
  = 25.
Proof.
  refine (proj1 (draw_without_margin_changes_nothing [0%nat] [1%nat] false
                   (two_fresh_players
                      (TrueSkillEnv_init 25 (25 / 3) (25 / 6) (25 / 300) 0 0))
                   0%nat _)).
  change (_draw_margin (25 / 6) 0 <= 0). rewrite draw_margin_0.
  pose proof (sqrt_pos 2). assert (0 < 10 / 2 ^ 80) by (apply Rdiv_lt_0_compat; [lra | apply pow_lt; lra]).
  nra.
Defined.

(** ** What the bisection of [_draw_margin] finds *)

Lemma erf_odd y : Erf.erf (- y) = - Erf.erf y.
Proof.
  unfold Erf.erf.
  change (Erf.gauss_int 0 (- y)) with (GaussTail.G (- y)).
  change (Erf.gauss_int 0 y) with (GaussTail.G y).
  rewrite GaussTail.G_odd. ring.
Qed.

Lemma Phi_opp x : _Phi (- x) = 1 - _Phi x.
Proof.
  unfold _Phi.
  replace (- x / _SQRT2) with (- (x / _SQRT2)) by (unfold Rdiv; ring).
  rewrite erf_odd. lra.
Qed.

(** The bracket only shrinks, its width is halved at every step, and the
    search keeps [Phi lo < target <= Phi hi] once it holds. *)
Lemma bisect_bracket target n : forall lo hi,
  lo <= hi ->
  lo <= fst (bisect n target lo hi) /\
  snd (bisect n target lo hi) <= hi /\
  snd (bisect n target lo hi) - fst (bisect n target lo hi) = (hi - lo) / 2 ^ n /\
  (_Phi lo < target -> _Phi (fst (bisect n target lo hi)) < target) /\
  (target <= _Phi hi -> target <= _Phi (snd (bisect n target lo hi))).
Proof.
  induction n as [|n IH]; intros lo hi Hle.
  - simpl. repeat split; auto; lra.
  - rewrite bisect_S.
    assert (Hpow : 0 < 2 ^ n) by (apply pow_lt; lra).
    destruct (Rlt_dec (_Phi ((lo + hi) / 2)) target) as [Hlt|Hge].
    + destruct (IH ((lo + hi) / 2) hi ltac:(lra)) as (H1 & H2 & H3 & H4 & H5).
      split; [lra|]. split; [lra|]. split; [|split; [|exact H5]].
      * rewrite H3. simpl. field. lra.
      * intros _. apply H4. exact Hlt.
    + destruct (IH lo ((lo + hi) / 2) ltac:(lra)) as (H1 & H2 & H3 & H4 & H5).
      split; [lra|]. split; [lra|]. split; [|split; [exact H4|]].
      * rewrite H3. simpl. field. lra.
      * intros _. apply H5. lra.
Qed.

Lemma draw_margin_eq beta dp :
  _draw_margin beta dp =
  (fst (bisect 80 ((dp + 1) / 2) (-10) 10)
   + snd (bisect 80 ((dp + 1) / 2) (-10) 10)) / 2 * sqrt 2 * beta.
Proof.
  unfold _draw_margin. cbv zeta.
  destruct (bisect 80 ((dp + 1) / 2) (-10) 10) as [lo hi]. reflexivity.
Qed.

Lemma exp_50_lower : 2 ^ 50 <= exp 50.
Proof.
  assert (E : 50 = INR 50 * 1) by (rewrite INR_IZR_INZ; change (Z.of_nat 50) with 50%Z; lra).
  rewrite E, <- GaussTail.exp_pow_INR.
  apply pow_incr. pose proof (exp_ineq1 1 ltac:(lra)). lra.
Qed.

Lemma Phi_10_lower : 1 - 1e-16 <= _Phi 10.
Proof.
  pose proof (mills_ratio (Ropp 10)) as Hm.
  rewrite phi_even, Phi_opp in Hm.
  assert (Hphi : _phi 10 <= / 2 ^ 50).
  { unfold _phi.
    replace (- 0.5 * 10 * 10) with (Ropp 50) by lra. rewrite exp_Ropp.
    assert (H1 : 1 <= _SQRT_2PI).
    { unfold _SQRT_2PI. rewrite <- sqrt_1. apply sqrt_le_1_alt.
      pose proof PI2_1. lra. }
    assert (Hpow : 0 < 2 ^ 50) by (apply pow_lt; lra).
    pose proof exp_50_lower as He.
    assert (H2 : / exp 50 <= / 2 ^ 50) by (apply Rinv_le_contravar; lra).
    assert (H3 : 0 < / exp 50) by (apply Rinv_0_lt_compat; lra).
    apply Rle_trans with (/ exp 50 / 1); [|lra].
    unfold Rdiv. apply Rmult_le_compat_l; [lra|].
    apply Rinv_le_contravar; lra. }
  assert (E : 2 ^ 50 = 1125899906842624).
  { rewrite (pow_IZR 2 50). apply f_equal. reflexivity. }
  rewrite E in Hphi. lra.
Qed.

(** ** The report flag *)

Lemma effect_bind {A A' B B'} (m : M A) (m' : M A') (k : A -> M B) (k' : A' -> M B') W :
  effect m W = effect m' W ->
  (forall a a' W1, effect (k a) W1 = effect (k' a') W1) ->
  effect (bind m k) W = effect (bind m' k') W.
Proof.
  intros Hm Hk. unfold effect in Hm |- *. unfold bind.
  destruct (m W) as [[a|e] W1], (m' W) as [[a'|e'] W1']; simpl in Hm;
    inversion Hm; subst; try reflexivity.
  exact (Hk a a' W1').
Qed.

Lemma effect_for_acc {A S S'} (l : list A)
    (body : S -> A -> M S) (body' : S' -> A -> M S') :
  (forall s s' x W, effect (body s x) W = effect (body' s' x) W) ->
  forall s s' W, effect (for_acc l body s) W = effect (for_acc l body' s') W.
Proof.
  intros Hb. induction l as [|x l IH]; intros s s' W; simpl.
  - reflexivity.
  - apply effect_bind; [apply Hb | intros; apply IH].
Qed.

Lemma effect_update_player (winner : bool) c v w
    (d d' : gmap string R * gmap string R) p W :
  effect (update_player winner c v w d p) W
  = effect (update_player winner c v w d' p) W.
Proof. unfold effect. rewrite !update_player_eq. reflexivity. Qed.

(** Asking for the report changes neither the exception nor the world of a
    pairwise update. *)
Lemma effect_rate_two_teams tw tl (is_draw : bool) W :
  effect (_rate_two_teams tw tl is_draw true) W
  = effect (_rate_two_teams tw tl is_draw false) W.
Proof.
  unfold effect. rewrite !rate_two_teams_eq. cbv zeta.
  destruct (Rlt_dec _ 0); [reflexivity|].
  destruct (Req_dec_T _ 0); [reflexivity|].
  apply (effect_bind (A := gmap string R * gmap string R)); [reflexivity|].
  intros d d' W1.
  apply (effect_bind (A := gmap string R * gmap string R)).
  - apply effect_for_acc. intros. apply effect_update_player.
  - intros. reflexivity.
Qed.

(** A pairwise update that returns gives a report exactly when asked. *)
Lemma rate_two_teams_result tw tl (is_draw collect : bool) W r W' :
  _rate_two_teams tw tl is_draw collect W = (Return r, W') ->
  if collect then exists rep, r = Some rep else r = None.
Proof.
  rewrite rate_two_teams_eq. cbv zeta.
  destruct (Rlt_dec _ 0); [discriminate|].
  destruct (Req_dec_T _ 0); [discriminate|].
  unfold bind at 1.
  destruct (for_acc tw _ _ W) as [[d1|e1] W1]; [|discriminate].
  unfold bind at 1.
  destruct (for_acc tl _ _ W1) as [[d2|e2] W2]; [|discriminate].
  destruct collect; simpl.
  - unfold bind, get_heap, ret. intros E. inversion E. eauto.
  - unfold ret. intros E. inversion E. reflexivity.
Qed.

Lemma pairs_loop_reports_length teams ranks order : forall idx reports W r W',
  for_acc idx (rate_adjacent teams ranks true order) reports W = (Return r, W') ->
  length r = (length reports + length idx)%nat.
Proof.
  induction idx as [|i idx IH]; intros reports W r W'; simpl.
  - unfold ret. intros E. inversion E. lia.
  - unfold bind at 1. unfold rate_adjacent at 1. cbv zeta. unfold bind at 1.
    destruct (_rate_two_teams _ _ _ true W) as [[rep|e] W1] eqn:E1; [|discriminate].
    apply rate_two_teams_result in E1. destruct E1 as [rep' ->].
    unfold ret at 1. intros E. apply IH in E. rewrite E, length_app. simpl. lia.
Qed.

Lemma pairs_loop_no_reports teams ranks order : forall idx W r W',
  for_acc idx (rate_adjacent teams ranks false order) [] W = (Return r, W') ->
  r = [].
Proof.
  induction idx as [|i idx IH]; intros W r W'; simpl.
  - unfold ret. intros E. now inversion E.
  - unfold bind at 1. unfold rate_adjacent at 1. cbv zeta. unfold bind at 1.
    destruct (_rate_two_teams _ _ _ false W) as [[rep|e] W1] eqn:E1; [|discriminate].
    apply rate_two_teams_result in E1. subst rep.
    unfold ret at 1. apply IH.
Qed.

(** X6: [return_report] only chooses what [rate] returns.  With or without
    it the call raises the same exception or leaves the same world; without
    it a returning call gives [None], with it a list of one report per
    adjacent pair of teams, [len(teams) - 1] in all. *)
Theorem return_report_only_changes_the_result
    (teams : list (list loc)) (ranks : list Z) (W : World) :
  effect (rate teams ranks true) W = effect (rate teams ranks false) W /\
  (forall r W', rate teams ranks false W = (Return r, W') -> r = None) /\
  (forall r W', rate teams ranks true W = (Return r, W') ->
     exists reports, r = Some reports /\ length reports = (length teams - 1)%nat).
Proof.
  split; [|split].
  - unfold rate.
    destruct (decide (length teams <> length ranks)); [reflexivity|].
    destruct (decide (length teams < 2)%nat); [reflexivity|].
    apply (effect_bind (A := unit)); [reflexivity|]. intros _ _ W1.
    destruct (decide (2 < length teams)%nat).
    + apply (effect_bind (A := list EPUpdateReport)); [|reflexivity].
      apply effect_for_acc. intros s s' i W2. unfold rate_adjacent. cbv zeta.
      apply (effect_bind (A := option EPUpdateReport));
        [apply effect_rate_two_teams|].
      intros [a|] [a'|] W3; reflexivity.
    + destruct (bool_decide _).
      * apply (effect_bind (A := option EPUpdateReport));
          [apply effect_rate_two_teams | reflexivity].
      * apply (effect_bind (A := option EPUpdateReport)); [|reflexivity].
        destruct (bool_decide _); apply effect_rate_two_teams.
  - intros r W'. unfold rate.
    destruct (decide (length teams <> length ranks)); [discriminate|].
    destruct (decide (length teams < 2)%nat); [discriminate|].
    unfold bind at 1. rewrite for_teams_drift_eq.
    destruct (decide (2 < length teams)%nat).
    + unfold bind at 1.
      destruct (for_acc _ _ _ _) as [[reports|e] W1]; [|discriminate].
      unfold ret. intros E. now inversion E.
    + assert (H : forall m : M (option EPUpdateReport), forall W0,
                 bind m (fun rep => ret (report_list false rep)) W0 = (Return r, W') ->
                 r = None).
      { intros m W0. unfold bind. destruct (m W0) as [[rep|e] W1]; [|discriminate].
        unfold ret. intros E. now inversion E. }
      destruct (bool_decide _); [|destruct (bool_decide _)]; apply H.
  - intros r W'. unfold rate.
    destruct (decide (length teams <> length ranks)); [discriminate|].
    destruct (decide (length teams < 2)%nat) as [|Hge]; [discriminate|].
    unfold bind at 1. rewrite for_teams_drift_eq.
    destruct (decide (2 < length teams)%nat) as [Hgt|Hle].
    + unfold bind at 1.
      destruct (for_acc _ _ _ _) as [[reports|e] W1] eqn:E1; [|discriminate].
      unfold ret. intros E. inversion E. subst. exists reports. split; [reflexivity|].
      apply pairs_loop_reports_length in E1. rewrite E1. cbn [length].
      rewrite length_seq, sorted_length, length_seq. lia.
    + assert (H : forall (m : M (option EPUpdateReport)) W0,
                 (forall r0 W1, m W0 = (Return r0, W1) -> exists rep, r0 = Some rep) ->
                 bind m (fun rep => ret (report_list true rep)) W0 = (Return r, W') ->
                 exists reports, r = Some reports /\ length reports = 1%nat).
      { intros m W0 Hm. unfold bind. destruct (m W0) as [[rep|e] W1]; [|discriminate].
        destruct (Hm _ _ eq_refl) as [rep' ->].
        unfold ret. intros E. inversion E. eexists. split; reflexivity. }
      replace (length teams - 1)%nat with 1%nat by lia.
      destruct (bool_decide _); [|destruct (bool_decide _)]; apply H;
        intros r0 W1 E; exact (rate_two_teams_result _ _ _ true _ _ _ E).
Qed.

(** ** What [rate] leaves alone *)

Lemma nth_team_members (teams : list (list loc)) i q :
  In q (nth i teams []) -> exists team, In team teams /\ In q team.
Proof.
  intros Hq. destruct (nth_in_or_default i teams []) as [Hin|Hd].
  - eauto.
  - rewrite Hd in Hq. destruct Hq.
Qed.

Lemma update_player_frame (winner : bool) c v w
    (d : gmap string R * gmap string R) q W p :
  p <> q -> heap (snd (update_player winner c v w d q W)) p = heap W p.
Proof.
  intros Hne. rewrite update_player_eq. cbn [snd heap].
  now apply heap_set_other.
Qed.

Lemma apply_drift_frame q W p :
  p <> q -> heap (snd (_apply_drift q W)) p = heap W p.
Proof.
  intros Hne. rewrite apply_drift_eq. cbn [snd heap].
  now apply heap_set_other.
Qed.

(** A pairwise update writes to the players of its two teams only. *)
Lemma rate_two_teams_frame tw tl (is_draw collect : bool) W p :
  ~ In p tw -> ~ In p tl ->
  heap (snd (_rate_two_teams tw tl is_draw collect W)) p = heap W p.
Proof.
  intros Hw Hl.
  apply (rate_two_teams_world_on (fun W' => heap W' p = heap W p));
    [reflexivity|].
  intros c v w winner d q _ _ _ _ Hq W' HW'.
  rewrite update_player_frame; [exact HW'|].
  intros ->. destruct winner; contradiction.
Qed.

(** [rate] writes to the players of its teams only. *)
Lemma rate_frame teams ranks (return_report : bool) W p :
  (forall team, In team teams -> ~ In p team) ->
  heap (snd (rate teams ranks return_report W)) p = heap W p.
Proof.
  intros Hout.
  assert (Hpair : forall a b is_draw,
            preserves (fun W' => heap W' p = heap W p)
              (_rate_two_teams (nth a teams []) (nth b teams []) is_draw
                 return_report)).
  { intros a b is_draw W' HW'. rewrite <- HW'.
    apply rate_two_teams_frame; intros Hq;
      destruct (nth_team_members _ _ _ Hq) as (team & Hteam & Hp);
      exact (Hout team Hteam Hp). }
  cut (preserves (fun W' => heap W' p = heap W p)
         (rate teams ranks return_report)).
  { intros H. now apply H. }
  unfold rate.
  destruct (decide (length teams <> length ranks)); [apply preserves_raise|].
  destruct (decide (length teams < 2)%nat); [apply preserves_raise|].
  apply preserves_bind.
  { apply preserves_for_. intros team Hteam. apply preserves_for_.
    intros q Hq W' HW'. rewrite apply_drift_frame; [exact HW'|].
    intros ->. exact (Hout team Hteam Hq). }
  intros _.
  destruct (decide (2 < length teams)%nat).
  - apply preserves_bind; [|intros; apply preserves_ret].
    apply preserves_for_acc. intros reports i _. unfold rate_adjacent.
    apply preserves_bind; [apply Hpair|].
    intros [r|]; apply preserves_ret.
  - destruct (bool_decide _).
    + apply preserves_bind; [apply Hpair | intros; apply preserves_ret].
    + apply preserves_bind; [|intros; apply preserves_ret].
      destruct (bool_decide _); apply Hpair.
Qed.

(** X7: [rate] writes to the players it is given and to nothing else: a
    player who is in none of the teams keeps its mu and sigma; no player
    is created, and no player, rated or not, changes name.  This holds
    whether the call returns or raises. *)
Theorem rate_only_writes_to_the_rated_players
    (teams : list (list loc)) (ranks : list Z) (return_report : bool)
    (W : World) (p : loc) :
  next (snd (rate teams ranks return_report W)) = next W /\
  name (heap (snd (rate teams ranks return_report W)) p) = name (heap W p) /\
  ((forall team, In team teams -> ~ In p team) ->
   heap (snd (rate teams ranks return_report W)) p = heap W p).
Proof.
  split; [now apply rate_keeps_next|].
  split; [now apply rate_keeps_name|].
  apply rate_frame.
Qed.

(** ** When a two-team call raises *)

Lemma fold_add_shift {A} (f : A -> R) (l : list A) : forall acc,
  fold_left (fun acc x => acc + f x) l acc
  = acc + fold_left (fun acc x => acc + f x) l 0.
Proof.
  induction l as [|x l IH]; intros acc; simpl; [ring|].
  rewrite (IH (acc + f x)), (IH (0 + f x)). ring.
Qed.

Lemma pair_variance_comm slf h tw tl :
  pair_variance slf h tw tl = pair_variance slf h tl tw.
Proof.
  unfold pair_variance, add_perf_noise. cbv zeta.
  rewrite (fold_add_shift _ tl (fold_left _ tw 0)).
  rewrite (fold_add_shift _ tw (fold_left _ tl 0)).
  ring.
Qed.

(** The three ways a pairwise update can end, by the sign of the variance
    under [c]. *)
Lemma rate_two_teams_outcome tw tl (is_draw collect : bool) W :
  (pair_variance (self W) (heap W) tw tl < 0 ->
   _rate_two_teams tw tl is_draw collect W
   = (Raise (ValueError "math domain error"), W)) /\
  (pair_variance (self W) (heap W) tw tl = 0 ->
   _rate_two_teams tw tl is_draw collect W = (Raise ZeroDivisionError, W)) /\
  (0 < pair_variance (self W) (heap W) tw tl ->
   exists r W', _rate_two_teams tw tl is_draw collect W = (Return r, W')).
Proof.
  split; [|split]; intros Hvar.
  - rewrite rate_two_teams_eq. cbv zeta.
    destruct (Rlt_dec _ 0); [reflexivity | lra].
  - rewrite rate_two_teams_eq. cbv zeta. unfold pair_c. rewrite Hvar.
    destruct (Rlt_dec 0 0); [lra|].
    destruct (Req_dec_T (sqrt 0) 0) as [_|H]; [reflexivity|].
    rewrite sqrt_0 in H. congruence.
  - destruct (rate_two_teams_returns tw tl is_draw collect W Hvar)
      as (r & W' & E & _).
    eauto.
Qed.

(** X8: a call of [rate] on two teams ends in one of three ways, decided by
    the variance [sig2_w + sig2_l + perf_noise] of the drifted players: if
    it is negative (which takes [trust < 0]) the call raises [ValueError]
    from [math.sqrt]; if it is zero, [ZeroDivisionError]; if it is positive
    the call returns.  In both failures the players keep the drift already
    applied to them and get no update. *)
Theorem two_team_rate_outcome
    (ta tb : list loc) (ra rb : Z) (return_report : bool) (W : World) :
  let Wd := drift_team (drift_team W ta) tb in
  let variance := pair_variance (self W) (heap Wd) ta tb in
  (variance < 0 ->
   rate [ta; tb] [ra; rb] return_report W
   = (Raise (ValueError "math domain error"), Wd)) /\
  (variance = 0 ->
   rate [ta; tb] [ra; rb] return_report W = (Raise ZeroDivisionError, Wd)) /\
  (0 < variance ->
   exists r W', rate [ta; tb] [ra; rb] return_report W = (Return r, W')).
Proof.
  intros Wd variance.
  assert (Hself : self Wd = self W).
  { unfold Wd. now rewrite !drift_team_self. }
  assert (Hcases : forall tw tl is_draw,
            pair_variance (self Wd) (heap Wd) tw tl = variance ->
            let m := rep <- _rate_two_teams tw tl is_draw return_report ;;
                     ret (report_list return_report rep) in
            (variance < 0 ->
             m Wd = (Raise (ValueError "math domain error"), Wd)) /\
            (variance = 0 -> m Wd = (Raise ZeroDivisionError, Wd)) /\
            (0 < variance -> exists r W', m Wd = (Return r, W'))).
  { intros tw tl is_draw Hv m. subst m.
    destruct (rate_two_teams_outcome tw tl is_draw return_report Wd)
      as (Hneg & Hzero & Hpos).
    rewrite Hv in Hneg, Hzero, Hpos.
    split; [|split]; intros H; unfold bind.
    - now rewrite (Hneg H).
    - now rewrite (Hzero H).
    - destruct (Hpos H) as (r & W' & ->). unfold ret. eauto. }
  rewrite rate_two_eq. cbv zeta. fold Wd.
  destruct (bool_decide (ra = rb)); [|destruct (bool_decide (ra < rb)%Z)];
    apply Hcases; rewrite Hself; try reflexivity.
  apply pair_variance_comm.
Qed.

(** With [trust = -2], two fresh players of sigma 3 and a drift of 4: the
    call raises, and yet both players now have sigma 5. *)
Lemma two_team_rate_outcome_witness :
  exists W',
    rate [[0%nat]; [1%nat]] [0%Z; 1%Z] false
      (two_fresh_players (TrueSkillEnv_init 25 3 1 4 0.10 (-2)))
    = (Raise (ValueError "math domain error"), W') /\
    sigma (heap W' 0%nat) = 5 /\ sigma (heap W' 1%nat) = 5.
Proof.
  set (env := TrueSkillEnv_init 25 3 1 4 0.10 (-2)).
  assert (E5 : sqrt (3 * 3 + 4 * 4) = 5).
  { replace (3 * 3 + 4 * 4) with (5 * 5) by lra. apply sqrt_square. lra. }
  assert (Ha : sigma (heap (drift_team (drift_team (two_fresh_players env) [0%nat])
                              [1%nat]) 0%nat) = 5).
  { rewrite !drift_team_single. cbn [heap self].
    rewrite heap_set_other by discriminate. rewrite heap_set_same.
    destruct (two_fresh_players_heap env) as (-> & _ & ->). exact E5. }
  assert (Hb : sigma (heap (drift_team (drift_team (two_fresh_players env) [0%nat])
                              [1%nat]) 1%nat) = 5).
  { rewrite !drift_team_single. cbn [heap self].
    rewrite heap_set_same, heap_set_other by discriminate.
    destruct (two_fresh_players_heap env) as (_ & -> & ->). exact E5. }
  eexists. split; [|split; [exact Ha | exact Hb]].
  apply (proj1 (two_team_rate_outcome [0%nat] [1%nat] 0 1 false
                  (two_fresh_players env))).
  rewrite pair_variance_one_vs_one, Ha, Hb.
  destruct (two_fresh_players_heap env) as (_ & _ & ->).
  change (beta env) with 1. change (trust env) with (-2). lra.
Defined.

(** ** The best and the worst team of a match *)

Lemma win_loss_mu_lower m tw tl (collect : bool) W p :
  ~ In p tl -> m <= mu (heap W p) ->
  m <= mu (heap (snd (_rate_two_teams tw tl false collect W)) p).
Proof.
  intros Hout Hm.
  apply (rate_two_teams_world_on (fun W' => m <= mu (heap W' p)));
    [exact Hm|].
  intros c v w winner d q Hc _ -> _ Hq W' HW'.
  rewrite update_player_eq. cbn [snd heap]. unfold heap_set.
  destruct (Nat.eq_dec p q) as [->|_]; [|exact HW'].
  destruct winner; [|contradiction]. cbn [mu].
  pose proof (v_truncate_pos_all (pair_t (self W) (heap W) tw tl)) as Hv.
  assert (0 <= sigma (heap W' q) * sigma (heap W' q) / c
               * _v_truncate (pair_t (self W) (heap W) tw tl)).
  { apply Rmult_le_pos; [|lra]. apply Rmult_le_pos; [apply Rle_0_sqr|].
    left. now apply Rinv_0_lt_compat. }
  lra.
Qed.

Lemma win_loss_mu_upper m tw tl (collect : bool) W p :
  ~ In p tw -> mu (heap W p) <= m ->
  mu (heap (snd (_rate_two_teams tw tl false collect W)) p) <= m.
Proof.
  intros Hout Hm.
  apply (rate_two_teams_world_on (fun W' => mu (heap W' p) <= m));
    [exact Hm|].
  intros c v w winner d q Hc _ -> _ Hq W' HW'.
  rewrite update_player_eq. cbn [snd heap]. unfold heap_set.
  destruct (Nat.eq_dec p q) as [->|_]; [|exact HW'].
  destruct winner; [contradiction|]. cbn [mu].
  pose proof (v_truncate_pos_all (pair_t (self W) (heap W) tw tl)) as Hv.
  assert (0 <= sigma (heap W' q) * sigma (heap W' q) / c
               * _v_truncate (pair_t (self W) (heap W) tw tl)).
  { apply Rmult_le_pos; [|lra]. apply Rmult_le_pos; [apply Rle_0_sqr|].
    left. now apply Rinv_0_lt_compat. }
  lra.
Qed.

Lemma apply_drift_keeps_mu q W p :
  mu (heap (snd (_apply_drift q W)) p) = mu (heap W p).
Proof.
  rewrite apply_drift_eq. cbn [snd heap]. unfold heap_set.
  destruct (Nat.eq_dec p q) as [->|_]; reflexivity.
Qed.

Lemma Sorted_nth_adjacent {A} (R : A -> A -> Prop) (d : A) (l : list A) :
  Sorted R l ->
  forall i, (i + 1 < length l)%nat -> R (nth i l d) (nth (i + 1) l d).
Proof.
  induction 1 as [|x l Hs IH Hhd]; intros i Hi; [simpl in Hi; lia|].
  destruct i as [|i].
  - destruct Hhd as [|y l' Hxy]; [simpl in Hi; lia | exact Hxy].
  - cbn [nth Nat.add]. apply IH. simpl in Hi. lia.
Qed.

(** The team indices sorted by rank: two neighbours are distinct indices of
    teams, the first ranked at most as the second. *)
Lemma order_neighbours (ranks : list Z) (n i : nat) :
  let order := sorted (seq 0 n) (fun i => nth i ranks 0%Z) in
  (i + 1 < length order)%nat ->
  let x := nth i order O in
  let y := nth (i + 1) order O in
  (x < n)%nat /\ (y < n)%nat /\ x <> y /\
  (nth x ranks 0 <= nth y ranks 0)%Z.
Proof.
  intros order Hi x y.
  assert (Hperm : Permutation order (seq 0 n)) by apply sorted_perm.
  assert (Hin : forall j, (j < length order)%nat -> (nth j order O < n)%nat).
  { intros j Hj.
    assert (H : In (nth j order O) (seq 0 n)).
    { eapply Permutation_in; [exact Hperm | now apply nth_In]. }
    apply in_seq in H. lia. }
  assert (Hnd : List.NoDup order).
  { eapply Permutation_NoDup; [symmetry; exact Hperm | apply seq_NoDup]. }
  split; [apply Hin; lia|]. split; [apply Hin; lia|]. split.
  - intros E. apply (proj1 (NoDup_nth order O) Hnd) in E; lia.
  - pose proof (Sorted_nth_adjacent _ O order
                  (sorted_seq_stable (fun i => nth i ranks 0%Z) 0 n) i Hi) as H.
    fold x y in H. unfold stable_before in H. lia.
Qed.

(** X9: whatever the number of teams, a player who plays in one team only
    does not lose mu when that team is ranked strictly better than every
    other team, and does not gain mu when it is ranked strictly worse than
    every other team. *)
Theorem best_team_never_loses_mu_worst_never_gains
    (teams : list (list loc)) (ranks : list Z) (return_report : bool)
    (W : World) (a : nat) (p : loc) :
  In p (nth a teams []) ->
  (forall b, b <> a -> ~ In p (nth b teams [])) ->
  ((forall b, (b < length teams)%nat -> b <> a ->
      (nth a ranks 0 < nth b ranks 0)%Z) ->
   mu (heap W p) <= mu (heap (snd (rate teams ranks return_report W)) p)) /\
  ((forall b, (b < length teams)%nat -> b <> a ->
      (nth b ranks 0 < nth a ranks 0)%Z) ->
   mu (heap (snd (rate teams ranks return_report W)) p) <= mu (heap W p)).
Proof.
  intros Hin Hout.
  assert (Ha : (a < length teams)%nat).
  { destruct (Nat.lt_ge_cases a (length teams)) as [H|H]; [exact H|].
    rewrite nth_overflow in Hin by exact H. destruct Hin. }
  set (up := fun W' : World => mu (heap W p) <= mu (heap W' p)).
  set (down := fun W' : World => mu (heap W' p) <= mu (heap W p)).
  assert (Hdrift : forall I : World -> Prop,
            (forall W1 q, I W1 -> I (snd (_apply_drift q W1))) ->
            preserves I (for_ teams (fun team => for_ team _apply_drift))).
  { intros I HI. apply preserves_for_. intros team _. apply preserves_for_.
    intros q _ W1. apply HI. }
  (* one pairwise update between the teams of indices x and y *)
  assert (Hup : (forall b, (b < length teams)%nat -> b <> a ->
                   (nth a ranks 0 < nth b ranks 0)%Z) ->
                forall x y, (x < length teams)%nat -> (y < length teams)%nat ->
                  x <> y -> (nth x ranks 0 <= nth y ranks 0)%Z ->
                  preserves up
                    (_rate_two_teams (nth x teams []) (nth y teams [])
                       (bool_decide (nth x ranks 0%Z = nth y ranks 0%Z))
                       return_report)).
  { intros Hbest x y Hx Hy Hxy Hle W1 HW1. unfold up in *.
    destruct (Nat.eq_dec y a) as [->|Hya].
    { pose proof (Hbest x Hx Hxy). lia. }
    destruct (Nat.eq_dec x a) as [->|Hxa].
    - pose proof (Hbest y Hy Hya) as Hlt.
      rewrite bool_decide_eq_false_2 by lia.
      apply win_loss_mu_lower; [now apply Hout | exact HW1].
    - rewrite rate_two_teams_frame; [exact HW1 | now apply Hout..]. }
  assert (Hdown : (forall b, (b < length teams)%nat -> b <> a ->
                     (nth b ranks 0 < nth a ranks 0)%Z) ->
                  forall x y, (x < length teams)%nat -> (y < length teams)%nat ->
                    x <> y -> (nth x ranks 0 <= nth y ranks 0)%Z ->
                    preserves down
                      (_rate_two_teams (nth x teams []) (nth y teams [])
                         (bool_decide (nth x ranks 0%Z = nth y ranks 0%Z))
                         return_report)).
  { intros Hworst x y Hx Hy Hxy Hle W1 HW1. unfold down in *.
    destruct (Nat.eq_dec x a) as [->|Hxa].
    { pose proof (Hworst y Hy ltac:(congruence)). lia. }
    destruct (Nat.eq_dec y a) as [->|Hya].
    - pose proof (Hworst x Hx Hxa) as Hlt.
      rewrite bool_decide_eq_false_2 by lia.
      apply win_loss_mu_upper; [now apply Hout | exact HW1].
    - rewrite rate_two_teams_frame; [exact HW1 | now apply Hout..]. }
  assert (Hrate : forall I : World -> Prop,
            (forall W1 q, I W1 -> I (snd (_apply_drift q W1))) ->
            (forall x y, (x < length teams)%nat -> (y < length teams)%nat ->
               x <> y -> (nth x ranks 0 <= nth y ranks 0)%Z ->
               preserves I
                 (_rate_two_teams (nth x teams []) (nth y teams [])
                    (bool_decide (nth x ranks 0%Z = nth y ranks 0%Z))
                    return_report)) ->
            preserves I (rate teams ranks return_report)).
  { intros I HId HIp. unfold rate.
    destruct (decide (length teams <> length ranks)); [apply preserves_raise|].
    destruct (decide (length teams < 2)%nat); [apply preserves_raise|].
    apply preserves_bind; [now apply Hdrift|]. intros _.
    destruct (decide (2 < length teams)%nat) as [Hgt|Hle].
    - apply preserves_bind; [|intros; apply preserves_ret].
      apply preserves_for_acc. intros reports i Hi. unfold rate_adjacent.
      apply in_seq in Hi.
      destruct (order_neighbours ranks (length teams) i ltac:(lia))
        as (Hx & Hy & Hxy & Hr).
      apply preserves_bind; [now apply HIp|].
      intros [r|]; apply preserves_ret.
    - assert (Hlen : length teams = 2%nat) by lia.
      destruct (bool_decide (nth 0 ranks 0%Z = nth 1 ranks 0%Z)) eqn:Ed.
      + apply preserves_bind; [|intros; apply preserves_ret].
        rewrite <- Ed. apply HIp; try lia.
        apply bool_decide_eq_true_1 in Ed. lia.
      + apply bool_decide_eq_false_1 in Ed.
        apply preserves_bind; [|intros; apply preserves_ret].
        destruct (bool_decide (nth 0 ranks 0 < nth 1 ranks 0)%Z) eqn:El.
        * apply bool_decide_eq_true_1 in El.
          rewrite <- (bool_decide_eq_false_2 (nth 0 ranks 0%Z = nth 1 ranks 0%Z))
            by exact Ed.
          apply HIp; lia.
        * apply bool_decide_eq_false_1 in El.
          rewrite <- (bool_decide_eq_false_2 (nth 1 ranks 0%Z = nth 0 ranks 0%Z))
            by congruence.
          apply HIp; lia. }
  split; intros Hrank.
  - apply (Hrate up); [| now apply Hup | unfold up; lra].
    intros W1 q HW1. unfold up. now rewrite apply_drift_keeps_mu.
  - apply (Hrate down); [| now apply Hdown | unfold down; lra].
    intros W1 q HW1. unfold down. now rewrite apply_drift_keeps_mu.
Qed.

Lemma best_team_never_loses_mu_worst_never_gains_witness :
  mu (heap (three_fresh_players default_env) 0%nat)
  <= mu (heap (snd (rate [[0%nat]; [1%nat]; [2%nat]] [0%Z; 1%Z; 2%Z] false
                      (three_fresh_players default_env))) 0%nat).
Proof.
  refine (proj1 (best_team_never_loses_mu_worst_never_gains
                   [[0%nat]; [1%nat]; [2%nat]] [0%Z; 1%Z; 2%Z] false
                   (three_fresh_players default_env) 0%nat 0%nat _ _) _).
  - now left.
  - intros [|[|[|b]]] Hb; cbn [nth]; try congruence;
      try (intros [H|[]]; discriminate).
    destruct b; intros [].
  - intros [|[|[|b]]] Hlt Hb; cbn [nth length] in *; try congruence; lia.
Defined.

(** ** The pairwise update in closed form *)

Lemma updated_name (winner : bool) c v w P : name (updated winner c v w P) = name P.
Proof. reflexivity. Qed.

(** On teams without a repeated or shared player, with a positive variance:
    the update returns; every player is updated once, from its own state
    and the [c], [v], [w] computed before the loops; the report is made of
    those values. *)
Lemma rate_two_teams_closed_form tw tl (is_draw collect : bool) W :
  NoDup (tw ++ tl) ->
  0 < pair_variance (self W) (heap W) tw tl ->
  let c := pair_c (self W) (heap W) tw tl in
  let t := pair_t (self W) (heap W) tw tl in
  let v := if is_draw then _v_draw t (eps (self W) / c) else _v_truncate t in
  let w := if is_draw then _w_draw t (eps (self W) / c) else _w_truncate t in
  let dicts :=
    fold_left (record_update false c v w (heap W)) tl
      (fold_left (record_update true c v w (heap W)) tw (∅, ∅)) in
  exists W',
    _rate_two_teams tw tl is_draw collect W
    = (Return
         (if collect then
            Some {| rep_is_draw := is_draw; rep_eps := eps (self W);
                    rep_c := c; rep_t := t; rep_v := v; rep_w := w;
                    rep_team_winner := map (fun p => name (heap W p)) tw;
                    rep_team_loser := map (fun p => name (heap W p)) tl;
                    rep_delta_mu := fst dicts;
                    rep_new_sigma := snd dicts |}
          else None), W') /\
    self W' = self W /\ next W' = next W /\
    (forall q, In q tw -> heap W' q = updated true c v w (heap W q)) /\
    (forall q, In q tl -> heap W' q = updated false c v w (heap W q)) /\
    (forall q, ~ In q tw -> ~ In q tl -> heap W' q = heap W q).
Proof.
  intros Hnd Hvar c t v w dicts.
  apply NoDup_app in Hnd as (Hndw & Hdisj & Hndl).
  rewrite rate_two_teams_eq. cbv zeta.
  destruct (Rlt_dec _ 0) as [Hneg|_]; [lra|].
  destruct (Req_dec_T _ 0) as [Hz|_].
  { unfold pair_c in Hz. apply sqrt_eq_0 in Hz; lra. }
  fold c t v w.
  destruct (update_loop_spec true c v w tw Hndw (∅, ∅) W)
    as (W1 & E1 & Hs1 & Hn1 & Hout1 & Hin1).
  unfold bind at 1. rewrite E1.
  destruct (update_loop_spec false c v w tl Hndl
              (fold_left (record_update true c v w (heap W)) tw (∅, ∅)) W1)
    as (W2 & E2 & Hs2 & Hn2 & Hout2 & Hin2).
  unfold bind at 1. rewrite E2.
  assert (Hagree : forall q, In q tl -> heap W1 q = heap W q).
  { intros q Hq. apply Hout1. intros H.
    apply (Hdisj q); now apply list_elem_of_In. }
  rewrite (record_updates_ext false c v w (heap W1) (heap W)) by exact Hagree.
  fold dicts.
  assert (Hw : forall q, In q tw -> heap W2 q = updated true c v w (heap W q)).
  { intros q Hq. rewrite Hout2; [now apply Hin1|].
    intros H. apply (Hdisj q); now apply list_elem_of_In. }
  assert (Hl : forall q, In q tl -> heap W2 q = updated false c v w (heap W q)).
  { intros q Hq. rewrite Hin2 by exact Hq. now rewrite Hagree. }
  exists W2. split.
  - destruct collect; cbn [negb]; [|reflexivity].
    unfold bind, get_heap, ret. do 3 f_equal.
    f_equal; apply map_ext_in; intros q Hq.
    + now rewrite Hw.
    + now rewrite Hl.
  - split; [congruence|]. split; [congruence|].
    split; [exact Hw|]. split; [exact Hl|].
    intros q Hqw Hql. rewrite Hout2 by exact Hql. now apply Hout1.
Qed.

(** X10: the pairwise update on teams without a repeated or shared player,
    when [c] is positive: it returns, and every player of the winning team
    gets [mu + sigma^2 / c * v], every player of the losing team
    [mu - sigma^2 / c * v], both the sigma
    [sqrt (max 1e-9 (sigma^2 * (1 - sigma^2 / c^2 * w)))], all computed
    from the state before the update, whatever the order of the players;
    nobody else changes. *)
Theorem pairwise_update_closed_form
    (tw tl : list loc) (is_draw collect : bool) (W : World) :
  NoDup (tw ++ tl) ->
  0 < pair_variance (self W) (heap W) tw tl ->
  let c := pair_c (self W) (heap W) tw tl in
  let t := pair_t (self W) (heap W) tw tl in
  let v := if is_draw then _v_draw t (eps (self W) / c) else _v_truncate t in
  let w := if is_draw then _w_draw t (eps (self W) / c) else _w_truncate t in
  exists r W',
    _rate_two_teams tw tl is_draw collect W = (Return r, W') /\
    (forall q, In q tw -> heap W' q = updated true c v w (heap W q)) /\
    (forall q, In q tl -> heap W' q = updated false c v w (heap W q)) /\
    (forall q, ~ In q tw -> ~ In q tl -> heap W' q = heap W q).
Proof.
  intros Hnd Hvar c t v w.
  destruct (rate_two_teams_closed_form tw tl is_draw collect W Hnd Hvar)
    as (W' & E & _ & _ & Hw & Hl & Hout).
  eexists _, W'. split; [exact E|]. auto.
Qed.

Lemma pairwise_update_closed_form_witness :
  exists r W',
    _rate_two_teams [0%nat] [1%nat] false false (two_fresh_players default_env)
    = (Return r, W') /\
    heap W' 2%nat = heap (two_fresh_players default_env) 2%nat.
Proof.
  destruct (pairwise_update_closed_form [0%nat] [1%nat] false false
              (two_fresh_players default_env))
    as (r & W' & E & _ & _ & Hout).
  - apply NoDup_ListNoDup. repeat constructor; simpl; intuition discriminate.
  - apply pair_variance_pos.
    + change (25 / 6 <> 0). lra.
    + change (0 <= 0). lra.
    + discriminate.
  - exists r, W'. split; [exact E|].
    apply Hout; simpl; intuition discriminate.
Defined.

(** ** Swapping the two teams *)

Lemma v_draw_opp t e : _v_draw (- t) e = - _v_draw t e.
Proof.
  unfold _v_draw. cbv zeta.
  replace (e - - t) with (- (- e - t)) by ring.
  replace (- e - - t) with (- (e - t)) by ring.
  rewrite !Phi_opp, !phi_even.
  replace (1 - _Phi (- e - t) - (1 - _Phi (e - t)))
    with (_Phi (e - t) - _Phi (- e - t)) by ring.
  destruct (Rlt_dec _ 1e-12); [ring|].
  unfold Rdiv. ring.
Qed.

Lemma w_draw_opp t e : _w_draw (- t) e = _w_draw t e.
Proof.
  unfold _w_draw. cbv zeta. rewrite v_draw_opp.
  replace (e - - t) with (- (- e - t)) by ring.
  replace (- e - - t) with (- (e - t)) by ring.
  rewrite !Phi_opp, !phi_even.
  replace (1 - _Phi (- e - t) - (1 - _Phi (e - t)))
    with (_Phi (e - t) - _Phi (- e - t)) by ring.
  destruct (Rlt_dec _ 1e-12); [reflexivity|].
  unfold Rdiv. ring.
Qed.

Lemma updated_opp (winner : bool) c v w P :
  updated winner c (- v) w P = updated (negb winner) c v w P.
Proof.
  unfold updated. f_equal. destruct winner; cbn [negb]; ring.
Qed.

Lemma pair_c_comm slf h tw tl : pair_c slf h tw tl = pair_c slf h tl tw.
Proof. unfold pair_c. now rewrite pair_variance_comm. Qed.

Lemma pair_t_opp slf h tw tl : pair_t slf h tl tw = - pair_t slf h tw tl.
Proof. unfold pair_t. rewrite (pair_c_comm slf h tl tw). unfold Rdiv. ring. Qed.

Lemma world_eq W1 W2 :
  self W1 = self W2 -> next W1 = next W2 -> (forall q, heap W1 q = heap W2 q) ->
  W1 = W2.
Proof.
  destruct W1, W2. cbn. intros -> -> H. f_equal.
  now apply functional_extensionality.
Qed.

(** A draw leaves the same world whichever team is passed first. *)
Lemma draw_update_comm ta tb (collect : bool) W :
  NoDup (ta ++ tb) ->
  snd (_rate_two_teams ta tb true collect W)
  = snd (_rate_two_teams tb ta true collect W).
Proof.
  intros Hnd.
  assert (Hnd' : NoDup (tb ++ ta)).
  { apply NoDup_app in Hnd as (Ha & Hdisj & Hb). apply NoDup_app.
    split; [exact Hb|]. split; [|exact Ha].
    intros q Hqb Hqa. exact (Hdisj q Hqa Hqb). }
  destruct (Rtotal_order (pair_variance (self W) (heap W) ta tb) 0)
    as [Hneg|[Hzero|Hpos]].
  - rewrite (proj1 (rate_two_teams_outcome ta tb true collect W) Hneg).
    rewrite pair_variance_comm in Hneg.
    now rewrite (proj1 (rate_two_teams_outcome tb ta true collect W) Hneg).
  - rewrite (proj1 (proj2 (rate_two_teams_outcome ta tb true collect W)) Hzero).
    rewrite pair_variance_comm in Hzero.
    now rewrite (proj1 (proj2 (rate_two_teams_outcome tb ta true collect W)) Hzero).
  - destruct (rate_two_teams_closed_form ta tb true collect W Hnd Hpos)
      as (W1 & E1 & Hs1 & Hn1 & Hw1 & Hl1 & Ho1).
    rewrite pair_variance_comm in Hpos.
    destruct (rate_two_teams_closed_form tb ta true collect W Hnd' Hpos)
      as (W2 & E2 & Hs2 & Hn2 & Hw2 & Hl2 & Ho2).
    rewrite E1, E2. cbn [snd].
    rewrite (pair_c_comm _ _ tb ta), (pair_t_opp _ _ ta tb) in Hw2, Hl2.
    rewrite v_draw_opp, w_draw_opp in Hw2, Hl2.
    apply world_eq; [congruence | congruence |].
    intros q.
    destruct (in_dec Nat.eq_dec q ta) as [Hqa|Hqa].
    + rewrite (Hw1 q Hqa), (Hl2 q Hqa), updated_opp. reflexivity.
    + destruct (in_dec Nat.eq_dec q tb) as [Hqb|Hqb].
      * rewrite (Hl1 q Hqb), (Hw2 q Hqb), updated_opp. reflexivity.
      * rewrite (Ho1 q Hqa Hqb), (Ho2 q Hqb Hqa). reflexivity.
Qed.

Lemma drift_team_step W p team :
  drift_team W (p :: team)
  = drift_team
      {| self := self W; heap := heap_set (heap W) p (drifted (self W) (heap W p));
         next := next W |} team.
Proof. reflexivity. Qed.

Lemma drift_step_comm W p q :
  drift_team (drift_team W [p]) [q] = drift_team (drift_team W [q]) [p].
Proof.
  rewrite !drift_team_single. cbn [self heap next].
  apply world_eq; cbn [self heap next]; try reflexivity.
  intros r. unfold heap_set.
  repeat match goal with
    | |- context [Nat.eq_dec ?a ?b] => destruct (Nat.eq_dec a b)
    end; subst; try congruence; reflexivity.
Qed.

Lemma drift_team_app W l1 l2 :
  drift_team W (l1 ++ l2) = drift_team (drift_team W l1) l2.
Proof. unfold drift_team. apply fold_left_app. Qed.

Lemma drift_team_one_comm team : forall W p,
  drift_team (drift_team W [p]) team = drift_team (drift_team W team) [p].
Proof.
  induction team as [|q team IH]; intros W p; [reflexivity|].
  change (q :: team) with ([q] ++ team).
  rewrite !drift_team_app, drift_step_comm, IH. reflexivity.
Qed.

(** The drifts of two teams commute. *)
Lemma drift_team_comm ta : forall W tb,
  drift_team (drift_team W ta) tb = drift_team (drift_team W tb) ta.
Proof.
  induction ta as [|p ta IH]; intros W tb; [reflexivity|].
  change (p :: ta) with ([p] ++ ta).
  rewrite !drift_team_app, (IH (drift_team W [p]) tb), drift_team_one_comm.
  reflexivity.
Qed.

(** X11: [rate] on two teams does not depend on which team is listed first,
    the ranks being swapped with the teams.  When the ranks differ the two
    calls are the same altogether, return value and exception included;
    when no player is listed twice they leave the same world in a draw as
    well (the report of a draw names the first team as its winner). *)
Theorem rate_is_symmetric_in_the_two_teams
    (ta tb : list loc) (ra rb : Z) (return_report : bool) (W : World) :
  (ra <> rb ->
   rate [ta; tb] [ra; rb] return_report W
   = rate [tb; ta] [rb; ra] return_report W) /\
  (NoDup (ta ++ tb) ->
   snd (rate [ta; tb] [ra; rb] return_report W)
   = snd (rate [tb; ta] [rb; ra] return_report W)).
Proof.
  assert (Hneq : ra <> rb ->
            rate [ta; tb] [ra; rb] return_report W
            = rate [tb; ta] [rb; ra] return_report W).
  { intros Hr. rewrite !rate_two_eq. cbv zeta. rewrite (drift_team_comm tb W ta).
    rewrite (bool_decide_eq_false_2 (ra = rb)) by exact Hr.
    rewrite (bool_decide_eq_false_2 (rb = ra)) by congruence.
    destruct (Z.lt_trichotomy ra rb) as [Hlt|[Heq|Hgt]]; [|contradiction|].
    - rewrite (bool_decide_eq_true_2 (ra < rb)%Z) by exact Hlt.
      rewrite (bool_decide_eq_false_2 (rb < ra)%Z) by lia. reflexivity.
    - rewrite (bool_decide_eq_false_2 (ra < rb)%Z) by lia.
      rewrite (bool_decide_eq_true_2 (rb < ra)%Z) by lia. reflexivity. }
  split; [exact Hneq|].
  intros Hnd. destruct (Z.eq_dec ra rb) as [->|Hr]; [|now rewrite Hneq].
  rewrite !rate_two_eq. cbv zeta. rewrite (drift_team_comm tb W ta).
  rewrite !bool_decide_eq_true_2 by reflexivity.
  set (Wd := drift_team (drift_team W ta) tb).
  pose proof (draw_update_comm ta tb return_report Wd Hnd) as E.
  unfold bind.
  destruct (_rate_two_teams ta tb true return_report Wd) as [[r1|e1] W1],
           (_rate_two_teams tb ta true return_report Wd) as [[r2|e2] W2];
    exact E.
Qed.

(** ** The report when names are distinct *)

(** The dictionaries built over a team hold one entry per name of the team,
    and no entry that was not there for any other name. *)
Lemma record_updates_member (winner : bool) c v w h team p :
  In p team ->
  (forall q, In q team -> name (h q) = name (h p) -> q = p) ->
  NoDup team ->
  forall d : gmap string R * gmap string R,
    fst (fold_left (record_update winner c v w h) team d) !! name (h p)
    = Some (mu (updated winner c v w (h p)) - mu (h p)) /\
    snd (fold_left (record_update winner c v w h) team d) !! name (h p)
    = Some (sigma (updated winner c v w (h p))).
Proof.
  intros Hp Hinj Hnd d.
  destruct (in_split _ _ Hp) as (l1 & l2 & ->).
  apply record_updates_last. intros q Hq E.
  assert (q = p) as ->.
  { apply Hinj; [|exact E]. apply in_or_app. right. now right. }
  apply NoDup_app in Hnd as (_ & _ & Hnd).
  inversion Hnd as [|? ? Hnotin _]; subst.
  apply Hnotin. now apply list_elem_of_In.
Qed.

(** X12: when the players of the two teams are distinct and bear distinct
    names, the report of a pairwise update is keyed faithfully: under the
    name of each player, [delta_mu] holds the change of that player's mu
    and [new_sigma] its sigma after the update; a name that no player of
    the two teams bears has no entry; and [team_winner] and [team_loser]
    list the names of the two teams in order. *)
Theorem report_entries_for_distinct_names
    (tw tl : list loc) (is_draw : bool) (W : World) :
  NoDup (tw ++ tl) ->
  (forall q q', In q (tw ++ tl) -> In q' (tw ++ tl) ->
     name (heap W q) = name (heap W q') -> q = q') ->
  0 < pair_variance (self W) (heap W) tw tl ->
  exists rep W',
    _rate_two_teams tw tl is_draw true W = (Return (Some rep), W') /\
    rep_team_winner rep = map (fun p => name (heap W p)) tw /\
    rep_team_loser rep = map (fun p => name (heap W p)) tl /\
    (forall p, In p (tw ++ tl) ->
       rep_delta_mu rep !! name (heap W p)
       = Some (mu (heap W' p) - mu (heap W p)) /\
       rep_new_sigma rep !! name (heap W p) = Some (sigma (heap W' p))) /\
    (forall n, (forall p, In p (tw ++ tl) -> name (heap W p) <> n) ->
       rep_delta_mu rep !! n = None /\ rep_new_sigma rep !! n = None).
Proof.
  intros Hnd Hinj Hvar.
  destruct (rate_two_teams_closed_form tw tl is_draw true W Hnd Hvar)
    as (W' & E & _ & _ & Hw & Hl & _).
  cbv zeta in E, Hw, Hl.
  apply NoDup_app in Hnd as (Hndw & Hdisj & Hndl).
  eexists _, W'. split; [exact E|].
  cbn [rep_team_winner rep_team_loser rep_delta_mu rep_new_sigma].
  split; [reflexivity|]. split; [reflexivity|].
  set (c := pair_c (self W) (heap W) tw tl) in *.
  set (t := pair_t (self W) (heap W) tw tl) in *.
  set (v := if is_draw then _v_draw t (eps (self W) / c) else _v_truncate t) in *.
  set (w := if is_draw then _w_draw t (eps (self W) / c) else _w_truncate t) in *.
  split.
  - intros p Hp. apply in_app_or in Hp as [Hp|Hp].
    + destruct (record_updates_other false c v w (heap W) tl (name (heap W p)))
        with (d := fold_left (record_update true c v w (heap W)) tw
                     ((∅, ∅) : gmap string R * gmap string R))
        as [D1 D2].
      { intros q Hq En.
        assert (q = p) as ->.
        { apply Hinj; [apply in_or_app; now right
                      | apply in_or_app; now left | exact En]. }
        apply (Hdisj p); now apply list_elem_of_In. }
      rewrite D1, D2, (Hw p Hp).
      apply record_updates_member; [exact Hp | | exact Hndw].
      intros q Hq En. apply Hinj; [apply in_or_app; now left
                                  | apply in_or_app; now left | exact En].
    + rewrite (Hl p Hp).
      apply record_updates_member; [exact Hp | | exact Hndl].
      intros q Hq En. apply Hinj; [apply in_or_app; now right
                                  | apply in_or_app; now right | exact En].
  - intros n Hn.
    destruct (record_updates_other false c v w (heap W) tl n)
      with (d := fold_left (record_update true c v w (heap W)) tw
                   ((∅, ∅) : gmap string R * gmap string R))
      as [D1 D2].
    { intros q Hq. apply Hn. apply in_or_app. now right. }
    destruct (record_updates_other true c v w (heap W) tw n)
      with (d := ((∅, ∅) : gmap string R * gmap string R))
      as [D3 D4].
    { intros q Hq. apply Hn. apply in_or_app. now left. }
    rewrite D1, D2, D3, D4. cbn [fst snd]. split; apply lookup_empty.
Qed.

Lemma report_entries_for_distinct_names_witness :
  exists rep W',
    _rate_two_teams [0%nat] [1%nat] false true (two_fresh_players default_env)
    = (Return (Some rep), W') /\
    rep_team_winner rep = ["A"] /\ rep_team_loser rep = ["B"] /\
    rep_delta_mu rep !! "A" = Some (mu (heap W' 0%nat) - 25) /\
    rep_delta_mu rep !! "C" = None.
Proof.
  destruct (report_entries_for_distinct_names [0%nat] [1%nat] false
              (two_fresh_players default_env))
    as (rep & W' & E & Tw & Tl & Hin & Hout).
  - apply NoDup_ListNoDup. repeat constructor; simpl; intuition discriminate.
  - intros q q' [<-|[<-|[]]] [<-|[<-|[]]]; try reflexivity; discriminate.
  - apply pair_variance_pos.
    + change (25 / 6 <> 0). lra.
    + change (0 <= 0). lra.
    + discriminate.
  - exists rep, W'. split; [exact E|]. split; [exact Tw|]. split; [exact Tl|].
    split.
    + exact (proj1 (Hin 0%nat ltac:(now left))).
    + apply Hout. intros p [<-|[<-|[]]]; discriminate.
Defined.

(** ** The floor under sigma *)

Lemma update_player_keeps_floor (winner : bool) c v w
    (d : gmap string R * gmap string R) q p :
  preserves (fun W => sqrt 1e-9 <= sigma (heap W p))
    (update_player winner c v w d q).
Proof.
  intros W HW. rewrite update_player_eq. cbn [snd heap]. unfold heap_set.
  destruct (Nat.eq_dec p q) as [->|_]; [|exact HW].
  cbn [sigma]. apply sqrt_le_1_alt, Rmax_l.
Qed.

Lemma update_loop_sets_floor (winner : bool) c v w team p :
  In p team ->
  forall (d : gmap string R * gmap string R) W,
    sqrt 1e-9 <= sigma (heap (snd (for_acc team (update_player winner c v w) d W)) p).
Proof.
  induction team as [|q team IH]; intros Hp d W; [destruct Hp|].
  cbn [for_acc]. unfold bind.
  pose proof (update_player_eq winner c v w d q W) as E. cbv zeta in E.
  rewrite E.
  destruct (Nat.eq_dec q p) as [->|Hne].
  - apply (preserves_for_acc (fun W => sqrt 1e-9 <= sigma (heap W p))).
    + intros. apply update_player_keeps_floor.
    + cbn [heap]. rewrite heap_set_same. cbn [sigma].
      apply sqrt_le_1_alt, Rmax_l.
  - apply IH. destruct Hp; [contradiction | assumption].
Qed.

(** A pairwise update that returns has put every player of both teams at or
    above the floor. *)
Lemma rate_two_teams_sets_floor tw tl (is_draw collect : bool) W r W' p :
  _rate_two_teams tw tl is_draw collect W = (Return r, W') ->
  In p tw \/ In p tl ->
  sqrt 1e-9 <= sigma (heap W' p).
Proof.
  rewrite rate_two_teams_eq. cbv zeta.
  destruct (Rlt_dec _ 0); [discriminate|].
  destruct (Req_dec_T _ 0); [discriminate|].
  intros E Hp. revert E.
  unfold bind at 1.
  destruct (for_acc tw _ _ W) as [[d1|e1] W1] eqn:E1; [|discriminate].
  unfold bind at 1.
  destruct (for_acc tl _ _ W1) as [[d2|e2] W2] eqn:E2; [|discriminate].
  intros E.
  assert (W' = W2) as ->.
  { destruct collect; cbn in E; now inversion E. }
  destruct Hp as [Hp|Hp].
  - match type of E1 with
    | for_acc tw (update_player true ?c ?v ?w) ?d0 W = _ =>
        pose proof (update_loop_sets_floor true c v w tw p Hp d0 W) as H1;
        rewrite E1 in H1; cbn [snd] in H1;
        pose proof (preserves_for_acc
                      (fun W => sqrt 1e-9 <= sigma (heap W p)) tl
                      (update_player false c v w)
                      (fun d' q' _ => update_player_keeps_floor false c v w d' q' p)
                      d1 W1 H1) as H2
    end.
    rewrite E2 in H2. exact H2.
  - match type of E2 with
    | for_acc tl (update_player false ?c ?v ?w) ?d0 W1 = _ =>
        pose proof (update_loop_sets_floor false c v w tl p Hp d0 W1) as H2
    end.
    rewrite E2 in H2. exact H2.
Qed.

(** A loop that returns has run every iteration to its end: a property that
    one iteration establishes and all keep holds afterwards. *)
Lemma for_acc_establishes {A S} (I : World -> Prop) (body : S -> A -> M S)
    (x0 : A) (l : list A) :
  (forall s x, preserves I (body s x)) ->
  (forall s W s1 W1, body s x0 W = (Return s1, W1) -> I W1) ->
  In x0 l ->
  forall s W s' W', for_acc l body s W = (Return s', W') -> I W'.
Proof.
  intros Hkeep Hset. induction l as [|x l IH]; intros Hin s W s' W'; [destruct Hin|].
  cbn [for_acc]. unfold bind.
  destruct (body s x W) as [[s1|e] W1] eqn:E1; [|discriminate].
  intros E. destruct Hin as [->|Hin].
  - replace W' with (snd (for_acc l body s1 W1)) by now rewrite E.
    apply preserves_for_acc; [intros; apply Hkeep|].
    eapply Hset; exact E1.
  - eapply IH; eauto.
Qed.

(** X13: when [rate] returns, every player of every team has a sigma of at
    least [sqrt 1e-9], whatever it was before the call. *)
Theorem rated_players_are_above_the_floor
    (teams : list (list loc)) (ranks : list Z) (return_report : bool)
    (W W' : World) (r : option (list EPUpdateReport))
    (team : list loc) (p : loc) :
  rate teams ranks return_report W = (Return r, W') ->
  In team teams -> In p team ->
  sqrt 1e-9 <= sigma (heap W' p).
Proof.
  unfold rate.
  destruct (decide (length teams <> length ranks)); [discriminate|].
  destruct (decide (length teams < 2)%nat) as [|Hge]; [discriminate|].
  unfold bind at 1. rewrite for_teams_drift_eq.
  set (Wd := fold_left drift_team teams W).
  intros E Hteam Hp.
  destruct (In_nth _ _ [] Hteam) as (a & Ha & Eteam).
  destruct (decide (2 < length teams)%nat) as [Hgt|Hle].
  - unfold bind in E.
    destruct (for_acc _ _ _ Wd) as [[reports|e] W1] eqn:Eloop; [|discriminate].
    unfold ret in E. inversion E; subst W1. clear E.
    set (order := sorted (seq 0 (length teams)) (fun i => nth i ranks 0%Z)) in *.
    assert (Hlen : length order = length teams).
    { unfold order. now rewrite sorted_length, length_seq. }
    assert (Hain : In a order).
    { eapply Permutation_in; [symmetry; apply sorted_perm|].
      apply in_seq. lia. }
    destruct (In_nth _ _ O Hain) as (k & Hk & Ek).
    assert (Hi : exists i, In i (seq 0 (length order - 1)) /\
                   (nth i order O = a \/ nth (i + 1) order O = a)).
    { destruct (Nat.eq_dec (k + 1)%nat (length order)) as [Hlast|Hnot].
      - exists (k - 1)%nat. split; [apply in_seq; lia|]. right.
        replace (k - 1 + 1)%nat with k by lia. exact Ek.
      - exists k. split; [apply in_seq; lia|]. now left. }
    destruct Hi as (i & Hiin & Hia).
    eapply (for_acc_establishes (fun W => sqrt 1e-9 <= sigma (heap W p))
              (rate_adjacent teams ranks return_report order) i);
      [| |exact Hiin|exact Eloop].
    + intros s x. unfold rate_adjacent.
      apply preserves_bind.
      * apply preserves_rate_two_teams. intros. apply update_player_keeps_floor.
      * intros [rep|]; apply preserves_ret.
    + intros s W0 s1 W1. unfold rate_adjacent. cbv zeta. unfold bind.
      destruct (_rate_two_teams _ _ _ _ W0) as [[rep|e] W2] eqn:E2; [|discriminate].
      intros E.
      assert (W1 = W2) as -> by (destruct rep; unfold ret in E; now inversion E).
      eapply rate_two_teams_sets_floor; [exact E2|].
      destruct Hia as [->| ->]; rewrite Eteam; auto.
  - assert (Hlen : length teams = 2%nat) by lia.
    assert (Hcase : forall (m : M (option EPUpdateReport)),
              bind m (fun rep => ret (report_list return_report rep)) Wd
              = (Return r, W') ->
              exists rep, m Wd = (Return rep, W')).
    { intros m. unfold bind. destruct (m Wd) as [[rep|e] W1]; [|discriminate].
      unfold ret. intros E'. inversion E'. eauto. }
    assert (Hmem : In p (nth 0 teams []) \/ In p (nth 1 teams [])).
    { destruct a as [|[|a]]; [left | right | lia]; now rewrite Eteam. }
    destruct (bool_decide _).
    + apply Hcase in E as (rep & E).
      eapply rate_two_teams_sets_floor; [exact E | exact Hmem].
    + destruct (bool_decide _); apply Hcase in E as (rep & E);
        (eapply rate_two_teams_sets_floor; [exact E | tauto]).
Qed.

(** Two players created with [sigma0 = 1e-5], below the floor, are at or
    above it after one match. *)
Lemma rated_players_are_above_the_floor_witness :
  exists r W',
    rate [[0%nat]; [1%nat]] [0%Z; 1%Z] false (two_fresh_players tiny_sigma_env)
    = (Return r, W') /\
    sqrt 1e-9 <= sigma (heap W' 0%nat).
Proof.
  assert (Hret : exists r W',
             rate [[0%nat]; [1%nat]] [0%Z; 1%Z] false
               (two_fresh_players tiny_sigma_env) = (Return r, W')).
  { rewrite rate_two_eq. cbv zeta.
    rewrite (bool_decide_eq_false_2 (0 = 1)%Z) by lia.
    rewrite (bool_decide_eq_true_2 (0 < 1)%Z) by lia.
    destruct (rate_two_teams_returns [0%nat] [1%nat] false false
                (drift_team (drift_team (two_fresh_players tiny_sigma_env)
                               [0%nat]) [1%nat]))
      as (r & W' & E & _).
    { apply pair_variance_pos; rewrite ?drift_team_self.
      - change (25 / 6 <> 0). lra.
      - change (0 <= 0). lra.
      - discriminate. }
    unfold bind. rewrite E. unfold ret. eauto. }
  destruct Hret as (r & W' & E).
  exists r, W'. split; [exact E|].
  apply (rated_players_are_above_the_floor _ _ _ _ _ _ [0%nat] 0%nat E);
    now left.
Defined.

(** ** Which way a draw moves the means *)

Lemma phi_antitone_sq x y : x * x <= y * y -> _phi y <= _phi x.
Proof.
  intros H. unfold _phi.
  apply Rmult_le_compat_r; [left; apply Rinv_0_lt_compat, sqrt_2PI_pos|].
  destruct (Req_dec (x * x) (y * y)) as [E|Hne].
  - right. f_equal. replace (- 0.5 * y * y) with (- 0.5 * (y * y)) by ring.
    rewrite <- E. ring.
  - left. apply exp_increasing. lra.
Qed.

(** The mean shift of a draw has the sign opposite to [t]. *)
Lemma v_draw_nonpos t e : 0 <= t -> _v_draw t e <= 0.
Proof.
  intros Ht. unfold _v_draw. cbv zeta.
  destruct (Rlt_dec _ 1e-12) as [_|Hden]; [lra|].
  assert (He : 0 <= e).
  { destruct (Rle_lt_dec 0 e) as [H|H]; [exact H|]. exfalso. apply Hden.
    assert (Hlt : e - t < - e - t) by lra.
    pose proof (Phi_increasing _ _ Hlt). lra. }
  assert (Hphi : _phi (- e - t) <= _phi (e - t)).
  { apply phi_antitone_sq. nra. }
  assert (Hinv : 0 < / (_Phi (e - t) - _Phi (- e - t))).
  { apply Rinv_0_lt_compat. lra. }
  unfold Rdiv.
  replace 0 with (0 * / (_Phi (e - t) - _Phi (- e - t))) by ring.
  apply Rmult_le_compat_r; lra.
Qed.

Lemma v_draw_nonneg t e : t <= 0 -> 0 <= _v_draw t e.
Proof.
  intros Ht. pose proof (v_draw_nonpos (- t) e ltac:(lra)) as H.
  rewrite v_draw_opp in H. lra.
Qed.

Lemma pair_t_sign slf h tw tl :
  0 < pair_c slf h tw tl ->
  (sum_over h mu tl <= sum_over h mu tw -> 0 <= pair_t slf h tw tl) /\
  (sum_over h mu tw <= sum_over h mu tl -> pair_t slf h tw tl <= 0).
Proof.
  intros Hc. unfold pair_t.
  assert (Hinv : 0 < / pair_c slf h tw tl) by now apply Rinv_0_lt_compat.
  unfold Rdiv. split; intros H; nra.
Qed.

(** X14: a draw never pushes the two teams apart: when the first team's
    summed mu is at least the second's, no player of the first team alone
    gains mu and no player of the second team alone loses mu; and the other
    way round when it is at most the second's. *)
Theorem draw_pulls_the_teams_together
    (tw tl : list loc) (collect : bool) (W : World) (p : loc) :
  let W' := snd (_rate_two_teams tw tl true collect W) in
  (sum_over (heap W) mu tl <= sum_over (heap W) mu tw ->
   (~ In p tl -> mu (heap W' p) <= mu (heap W p)) /\
   (~ In p tw -> mu (heap W p) <= mu (heap W' p))) /\
  (sum_over (heap W) mu tw <= sum_over (heap W) mu tl ->
   (~ In p tl -> mu (heap W p) <= mu (heap W' p)) /\
   (~ In p tw -> mu (heap W' p) <= mu (heap W p))).
Proof.
  intros W'. subst W'.
  assert (Hsq : forall W1 q c, 0 < c ->
            0 <= sigma (heap W1 q) * sigma (heap W1 q) / c).
  { intros W1 q c Hc. apply Rmult_le_pos; [apply Rle_0_sqr|].
    left. now apply Rinv_0_lt_compat. }
  split; intros Hmu; split; intros Hout.
  - apply (rate_two_teams_world_on (fun W' => mu (heap W' p) <= mu (heap W p)));
      [lra|].
    intros c v w winner d q Hc Ec -> _ Hq W1 HW1.
    rewrite update_player_eq. cbn [snd heap]. unfold heap_set.
    destruct (Nat.eq_dec p q) as [->|_]; [|exact HW1].
    destruct winner; [|contradiction]. cbn [mu].
    assert (Hc' : 0 < pair_c (self W) (heap W) tw tl) by now rewrite <- Ec.
    pose proof (v_draw_nonpos _ (eps (self W) / c)
                  (proj1 (pair_t_sign _ _ _ _ Hc') Hmu)) as Hv.
    pose proof (Hsq W1 q c Hc). nra.
  - apply (rate_two_teams_world_on (fun W' => mu (heap W p) <= mu (heap W' p)));
      [lra|].
    intros c v w winner d q Hc Ec -> _ Hq W1 HW1.
    rewrite update_player_eq. cbn [snd heap]. unfold heap_set.
    destruct (Nat.eq_dec p q) as [->|_]; [|exact HW1].
    destruct winner; [contradiction|]. cbn [mu].
    assert (Hc' : 0 < pair_c (self W) (heap W) tw tl) by now rewrite <- Ec.
    pose proof (v_draw_nonpos _ (eps (self W) / c)
                  (proj1 (pair_t_sign _ _ _ _ Hc') Hmu)) as Hv.
    pose proof (Hsq W1 q c Hc). nra.
  - apply (rate_two_teams_world_on (fun W' => mu (heap W p) <= mu (heap W' p)));
      [lra|].
    intros c v w winner d q Hc Ec -> _ Hq W1 HW1.
    rewrite update_player_eq. cbn [snd heap]. unfold heap_set.
    destruct (Nat.eq_dec p q) as [->|_]; [|exact HW1].
    destruct winner; [|contradiction]. cbn [mu].
    assert (Hc' : 0 < pair_c (self W) (heap W) tw tl) by now rewrite <- Ec.
    pose proof (v_draw_nonneg _ (eps (self W) / c)
                  (proj2 (pair_t_sign _ _ _ _ Hc') Hmu)) as Hv.
    pose proof (Hsq W1 q c Hc). nra.
  - apply (rate_two_teams_world_on (fun W' => mu (heap W' p) <= mu (heap W p)));
      [lra|].
    intros c v w winner d q Hc Ec -> _ Hq W1 HW1.
    rewrite update_player_eq. cbn [snd heap]. unfold heap_set.
    destruct (Nat.eq_dec p q) as [->|_]; [|exact HW1].
    destruct winner; [contradiction|]. cbn [mu].
    assert (Hc' : 0 < pair_c (self W) (heap W) tw tl) by now rewrite <- Ec.
    pose proof (v_draw_nonneg _ (eps (self W) / c)
                  (proj2 (pair_t_sign _ _ _ _ Hc') Hmu)) as Hv.
    pose proof (Hsq W1 q c Hc). nra.
Qed.

(** ** The simulation driver *)

(** [rate] on two teams, a report being asked for: with [beta <> 0],
    [trust >= 0] and a player in one of the teams it returns a list of one
    report, which names the better-ranked team as winner and the first team
    in a draw. *)
Lemma rate_two_reports ta tb (ra rb : Z) W :
  beta (self W) <> 0 -> 0 <= trust (self W) -> ta ++ tb <> [] ->
  exists rep W',
    rate [ta; tb] [ra; rb] true W = (Return (Some [rep]), W') /\
    self W' = self W /\
    (forall q, name (heap W' q) = name (heap W q)) /\
    rep_is_draw rep = bool_decide (ra = rb) /\
    rep_team_winner rep
    = map (fun p => name (heap W p)) (if bool_decide (rb < ra)%Z then tb else ta) /\
    rep_team_loser rep
    = map (fun p => name (heap W p)) (if bool_decide (rb < ra)%Z then ta else tb).
Proof.
  intros Hb Ht Hne.
  set (Wd := drift_team (drift_team W ta) tb).
  assert (Hself : self Wd = self W).
  { unfold Wd. now rewrite !drift_team_self. }
  assert (Hret : forall tw tl is_draw, tw ++ tl <> [] ->
            exists rep W',
              _rate_two_teams tw tl is_draw true Wd = (Return (Some rep), W') /\
              rep_is_draw rep = is_draw /\
              rep_team_winner rep = map (fun p => name (heap W' p)) tw /\
              rep_team_loser rep = map (fun p => name (heap W' p)) tl).
  { intros tw tl is_draw Hne'.
    destruct (rate_two_teams_returns tw tl is_draw true Wd)
      as (r & W' & E & _ & Hsome).
    { apply pair_variance_pos; rewrite ?Hself; auto. }
    destruct (Hsome eq_refl) as (rep & -> & H1 & H2 & H3).
    exists rep, W'. auto. }
  assert (Hne' : tb ++ ta <> []).
  { intros H. apply app_eq_nil in H as [-> ->]. now apply Hne. }
  pose proof (rate_two_eq ta tb ra rb true W) as E. cbv zeta in E. fold Wd in E.
  assert (Hfin : forall tw tl is_draw rep W',
            _rate_two_teams tw tl is_draw true Wd = (Return (Some rep), W') ->
            (rep0 <- _rate_two_teams tw tl is_draw true ;;
             ret (report_list true rep0)) Wd = (Return (Some [rep]), W')).
  { intros tw tl is_draw rep W' Er. unfold bind. now rewrite Er. }
  assert (Hkeep : forall r W', rate [ta; tb] [ra; rb] true W = (Return r, W') ->
            self W' = self W /\ forall q, name (heap W' q) = name (heap W q)).
  { intros r W' Er. split.
    - pose proof (rate_keeps_self (self W) [ta; tb] [ra; rb] true W eq_refl) as H.
      now rewrite Er in H.
    - intros q.
      pose proof (rate_keeps_name q (name (heap W q)) [ta; tb] [ra; rb] true W
                    eq_refl) as H.
      now rewrite Er in H. }
  destruct (bool_decide (ra = rb)) eqn:Ed.
  - apply bool_decide_eq_true_1 in Ed. subst rb.
    rewrite (bool_decide_eq_false_2 (ra < ra)%Z) by lia.
    destruct (Hret ta tb true Hne) as (rep & W' & Er & H1 & H2 & H3).
    rewrite (Hfin _ _ _ _ _ Er) in E.
    destruct (Hkeep _ _ E) as [Hs Hn].
    exists rep, W'. split; [exact E|]. split; [exact Hs|]. split; [exact Hn|].
    split; [exact H1|]. rewrite H2, H3.
    split; apply map_ext; intros q; apply Hn.
  - apply bool_decide_eq_false_1 in Ed.
    destruct (bool_decide (ra < rb)%Z) eqn:El.
    + apply bool_decide_eq_true_1 in El.
      rewrite (bool_decide_eq_false_2 (rb < ra)%Z) by lia.
      destruct (Hret ta tb false Hne) as (rep & W' & Er & H1 & H2 & H3).
      rewrite (Hfin _ _ _ _ _ Er) in E.
      destruct (Hkeep _ _ E) as [Hs Hn].
      exists rep, W'. split; [exact E|]. split; [exact Hs|]. split; [exact Hn|].
      split; [exact H1|]. rewrite H2, H3.
      split; apply map_ext; intros q; apply Hn.
    + apply bool_decide_eq_false_1 in El.
      rewrite (bool_decide_eq_true_2 (rb < ra)%Z) by lia.
      destruct (Hret tb ta false Hne') as (rep & W' & Er & H1 & H2 & H3).
      rewrite (Hfin _ _ _ _ _ Er) in E.
      destruct (Hkeep _ _ E) as [Hs Hn].
      exists rep, W'. split; [exact E|]. split; [exact Hs|]. split; [exact Hn|].
      split; [exact H1|]. rewrite H2, H3.
      split; apply map_ext; intros q; apply Hn.
Qed.

Module Simulate1v1Facts.
Import Simulate1v1.

Lemma record_history_three h ma sa mb sb mc sc :
  record_history h main_players
    [("Alice", (ma, sa)); ("Bob", (mb, sb)); ("Clara", (mc, sc))]
  = (inr tt,
     [("Alice", (ma ++ [mu (h 0%nat)], sa ++ [sigma (h 0%nat)]));
      ("Bob", (mb ++ [mu (h 1%nat)], sb ++ [sigma (h 1%nat)]));
      ("Clara", (mc ++ [mu (h 2%nat)], sc ++ [sigma (h 2%nat)]))]).
Proof. reflexivity. Qed.

(** The ranks [main] passes for a draw of performances. *)
Lemma play_match_cases pa pb b :
  0 < b ->
  (Rabs (pa - pb) <= 0.1 * b /\ play_match pa pb b = 2%Z) \/
  (0.1 * b < pa - pb /\ play_match pa pb b = 0%Z) \/
  (pa - pb < - (0.1 * b) /\ play_match pa pb b = 1%Z).
Proof.
  intros Hb. unfold play_match. cbv zeta.
  destruct (Rle_dec (Rabs (pa - pb)) (0.1 * b)) as [Hd|Hd]; [now left|].
  right. destruct (Rgt_dec (pa - pb) 0) as [Hp|Hp].
  - left. split; [|reflexivity]. rewrite Rabs_right in Hd; lra.
  - right. split; [|reflexivity]. rewrite Rabs_left1 in Hd; lra.
Qed.

Lemma match_step_ok k d W sim :
  loop_invariant k W sim -> In (choice d) pairs ->
  exists rep W' sim',
    match_step main_players d W sim = (inr tt, W', sim') /\
    loop_invariant (S k) W' sim' /\
    ep_reports sim' = ep_reports sim ++ [rep] /\
    report_of_draw (25 / 6) d rep.
Proof.
  intros (Hbeta & Htrust & Na & Nb & Nc & ma & sa & mb & sb & mc & sc & Hh
          & L1 & L2 & L3 & L4 & L5 & L6) Hin.
  assert (Hb0 : beta (self W) <> 0) by (rewrite Hbeta; lra).
  assert (Ht0 : 0 <= trust (self W)) by (rewrite Htrust; lra).
  assert (Hstep : forall (a_name b_name : string) (A B : loc),
            choice d = (a_name, b_name) ->
            dict_get main_players a_name = Some A -> dict_get main_players b_name = Some B ->
            name (heap W A) = a_name -> name (heap W B) = b_name ->
            exists rep W' sim',
              match_step main_players d W sim = (inr tt, W', sim') /\
              loop_invariant (S k) W' sim' /\
              ep_reports sim' = ep_reports sim ++ [rep] /\
              report_of_draw (25 / 6) d rep).
  { intros a_name b_name A B Ec Ga Gb NA NB.
    unfold match_step. rewrite Ec, Ga, Gb. cbv zeta.
    set (ranks := if (play_match _ _ _ =? 0)%Z then _ else _).
    assert (Hranks : exists ra rb, ranks = [ra; rb] /\
              (Rabs (perf_a d - perf_b d) <= 0.1 * (25 / 6) -> ra = rb) /\
              (0.1 * (25 / 6) < perf_a d - perf_b d -> (ra < rb)%Z) /\
              (perf_a d - perf_b d < - (0.1 * (25 / 6)) -> (rb < ra)%Z)).
    { subst ranks. rewrite Hbeta.
      destruct (play_match_cases (perf_a d) (perf_b d) (25 / 6) ltac:(lra))
        as [[Hc ->]|[[Hc ->]|[Hc ->]]]; cbn [Z.eqb Pos.eqb].
      - exists 0%Z, 0%Z. split; [reflexivity|].
        split; [reflexivity|]. split; intros H.
        + rewrite Rabs_right in Hc; lra.
        + rewrite Rabs_left in Hc; lra.
      - exists 0%Z, 1%Z. split; [reflexivity|].
        split; [|split]; intros H; try lia.
        + rewrite Rabs_right in H; lra.
        + lra.
      - exists 1%Z, 0%Z. split; [reflexivity|].
        split; [|split]; intros H; try lia.
        + rewrite Rabs_left in H; lra.
        + lra. }
    destruct Hranks as (ra & rb & -> & Hdraw & Hwin & Hloss).
    destruct (rate_two_reports [A] [B] ra rb W Hb0 Ht0 ltac:(discriminate))
      as (rep & W' & E & Hs & Hn & Rd & Rw & Rl).
    rewrite E. cbn [subscript0]. rewrite Hh, record_history_three.
    eexists rep, W', _. split; [reflexivity|]. split; [|split; [reflexivity|]].
    - unfold loop_invariant. rewrite Hs, !Hn. cbn [history].
      repeat (split; [assumption|]).
      eexists _, _, _, _, _, _. split; [reflexivity|].
      rewrite !length_app. cbn [length]. repeat split; lia.
    - unfold report_of_draw. cbv zeta. rewrite Ec. cbn [fst snd].
      rewrite Rd, Rw, Rl. split; [|split]; intros H.
      + rewrite (Hdraw H).
        rewrite bool_decide_eq_true_2 by reflexivity.
        rewrite bool_decide_eq_false_2 by lia.
        cbn [map]. rewrite NA, NB. auto.
      + pose proof (Hwin H).
        rewrite (bool_decide_eq_false_2 (ra = rb)) by lia.
        rewrite bool_decide_eq_false_2 by lia.
        cbn [map]. rewrite NA, NB. auto.
      + pose proof (Hloss H).
        rewrite (bool_decide_eq_false_2 (ra = rb)) by lia.
        rewrite bool_decide_eq_true_2 by lia.
        cbn [map]. rewrite NA, NB. auto. }
  unfold pairs in Hin.
  destruct Hin as [Hc|[Hc|[Hc|[]]]]; symmetry in Hc.
  - apply (Hstep _ _ 0%nat 1%nat Hc); auto.
  - apply (Hstep _ _ 0%nat 2%nat Hc); auto.
  - apply (Hstep _ _ 1%nat 2%nat Hc); auto.
Qed.

Lemma match_loop_ok draws : forall k W sim,
  loop_invariant k W sim ->
  Forall (fun d => In (choice d) pairs) draws ->
  exists new W' sim',
    match_loop main_players draws W sim = (inr tt, W', sim') /\
    loop_invariant (k + length draws) W' sim' /\
    ep_reports sim' = ep_reports sim ++ new /\
    Forall2 (report_of_draw (25 / 6)) draws new.
Proof.
  induction draws as [|d draws IH]; intros k W sim Hinv Hall.
  - exists [], W, sim. cbn [match_loop length]. rewrite Nat.add_0_r, app_nil_r.
    split; [reflexivity|]. split; [exact Hinv|]. split; [reflexivity | constructor].
  - inversion Hall as [|? ? Hd Hall']; subst.
    destruct (match_step_ok k d W sim Hinv Hd) as (rep & W1 & sim1 & E1 & Hinv1 & R1 & P1).
    destruct (IH (S k) W1 sim1 Hinv1 Hall') as (new & W' & sim' & E & Hinv' & R & P).
    exists (rep :: new), W', sim'. cbn [match_loop]. rewrite E1.
    split; [exact E|]. split.
    + cbn [length]. now rewrite Nat.add_succ_r.
    + split; [|now constructor]. rewrite R, R1, <- app_assoc. reflexivity.
Qed.

End Simulate1v1Facts.

(** X15: the loop of [simulate_1v1.main], whatever the random generator
    returns (each pair drawn from [pairs], any two performances): no
    iteration raises, so every [rate(...)[0]] finds its report; after [n]
    matches [ep_reports] holds [n] reports and each of the six history
    lists [n] values; and the report of each match says what [play_match]
    decided: a draw when the performances differ by at most [0.1 * beta],
    otherwise the better performer as winner. *)
Theorem simulation_loop_never_raises (draws : list Simulate1v1.Draw) :
  Forall (fun d => In (Simulate1v1.choice d) Simulate1v1.pairs) draws ->
  exists W sim,
    Simulate1v1.main draws = (inr tt, W, sim) /\
    Forall2 (Simulate1v1.report_of_draw (25 / 6)) draws (Simulate1v1.ep_reports sim) /\
    forall name, In name ["Alice"; "Bob"; "Clara"] ->
      exists mus sigmas,
        Simulate1v1.dict_get (Simulate1v1.history sim) name = Some (mus, sigmas) /\
        length mus = length draws /\ length sigmas = length draws.
Proof.
  intros Hall. unfold Simulate1v1.main. cbv zeta.
  set (W3 := snd (make_player "Clara"
                    (snd (make_player "Bob"
                            (snd (make_player "Alice"
                                    (initial_world
                                       (TrueSkillEnv_init 25 (25 / 3) (25 / 6)
                                          (25 / 300) 0.10 0) no_players))))))).
  change (exists W sim,
    Simulate1v1.match_loop Simulate1v1.main_players draws W3
      {| Simulate1v1.history :=
           [("Alice", ([], [])); ("Bob", ([], [])); ("Clara", ([], []))];
         Simulate1v1.ep_reports := [] |} = (inr tt, W, sim) /\
    Forall2 (Simulate1v1.report_of_draw (25 / 6)) draws (Simulate1v1.ep_reports sim) /\
    forall name, In name ["Alice"; "Bob"; "Clara"] ->
      exists mus sigmas,
        Simulate1v1.dict_get (Simulate1v1.history sim) name = Some (mus, sigmas) /\
        length mus = length draws /\ length sigmas = length draws).
  destruct (Simulate1v1Facts.match_loop_ok draws 0 W3
              {| Simulate1v1.history :=
                   [("Alice", ([], [])); ("Bob", ([], [])); ("Clara", ([], []))];
                 Simulate1v1.ep_reports := [] |})
    as (new & W' & sim' & E & Hinv & R & P).
  { unfold Simulate1v1.loop_invariant. repeat (split; [reflexivity|]).
    exists [], [], [], [], [], []. repeat split. }
  { exact Hall. }
  exists W', sim'. split; [exact E|]. split.
  - rewrite R. exact P.
  - destruct Hinv as (_ & _ & _ & _ & _ & ma & sa & mb & sb & mc & sc & Hh
                      & L1 & L2 & L3 & L4 & L5 & L6).
    rewrite Hh. cbn [Nat.add] in *.
    intros name [<-|[<-|[<-|[]]]]; eexists _, _; (split; [reflexivity|]); auto.
Qed.

Lemma simulation_loop_never_raises_witness :
  exists W sim,
    Simulate1v1.main
      [Simulate1v1.mkDraw ("Alice", "Bob") 31 24;
       Simulate1v1.mkDraw ("Bob", "Clara") 20 20] = (inr tt, W, sim) /\
    length (Simulate1v1.ep_reports sim) = 2%nat.
Proof.
  destruct (simulation_loop_never_raises
              [Simulate1v1.mkDraw ("Alice", "Bob") 31 24;
               Simulate1v1.mkDraw ("Bob", "Clara") 20 20])
    as (W & sim & E & P & _).
  - constructor; [now left|].
    constructor; [right; right; now left | constructor].
  - exists W, sim. split; [exact E|].
    apply Forall2_length in P. now rewrite <- P.
Defined.

(** ** The drift phase of [rate] *)

Lemma drift_teams_concat teams : forall W,
  fold_left drift_team teams W = drift_team W (concat teams).
Proof.
  induction teams as [|team teams IH]; intros W; [reflexivity|].
  cbn [fold_left concat]. rewrite drift_team_app. apply IH.
Qed.

(** The sigma of a player after [k] drifts. *)
Lemma drift_team_sigma l : forall W p,
  let k := count_occ Nat.eq_dec l p in
  let s := sigma (heap W p) in
  self (drift_team W l) = self W /\
  next (drift_team W l) = next W /\
  name (heap (drift_team W l) p) = name (heap W p) /\
  mu (heap (drift_team W l) p) = mu (heap W p) /\
  sigma (heap (drift_team W l) p)
  = match k with
    | O => s
    | S _ => sqrt (s * s + INR k * (tau (self W) * tau (self W)))
    end.
Proof.
  induction l as [|q l IH]; intros W p k s; [repeat split|].
  subst k s. rewrite drift_team_step.
  set (W1 := {| self := self W;
                heap := heap_set (heap W) q (drifted (self W) (heap W q));
                next := next W |}).
  destruct (IH W1 p) as (Hs & Hn & Hname & Hmu & Hsig). cbv zeta in Hsig.
  rewrite Hs, Hn, Hname, Hmu, Hsig. cbn [self next heap W1].
  split; [reflexivity|]. split; [reflexivity|].
  cbn [count_occ]. unfold heap_set.
  destruct (Nat.eq_dec q p) as [->|Hne].
  - destruct (Nat.eq_dec p p) as [_|H]; [|congruence].
    split; [reflexivity|]. split; [reflexivity|].
    cbn [sigma drifted].
    set (s := sigma (heap W p)). set (t := tau (self W)).
    assert (Hnn : 0 <= s * s + t * t) by nra.
    destruct (count_occ Nat.eq_dec l p) as [|k'].
    + f_equal. simpl. ring.
    + rewrite sqrt_sqrt by exact Hnn. f_equal.
      rewrite (S_INR (S k')). ring.
  - destruct (Nat.eq_dec p q) as [->|_]; [congruence|].
    repeat split.
Qed.

(** X16: the drift phase of [rate] never raises, touches neither a mu nor a
    name, and drifts a player once per listing: a player listed [k > 0]
    times in the teams comes out with the sigma
    [sqrt (sigma^2 + k * tau^2)], a player not listed keeps its sigma. *)
Theorem drift_phase_closed_form
    (teams : list (list loc)) (W : World) (p : loc) :
  let drift := for_ teams (fun team => for_ team _apply_drift) in
  let k := count_occ Nat.eq_dec (concat teams) p in
  fst (drift W) = Return tt /\
  name (heap (snd (drift W)) p) = name (heap W p) /\
  mu (heap (snd (drift W)) p) = mu (heap W p) /\
  sigma (heap (snd (drift W)) p)
  = match k with
    | O => sigma (heap W p)
    | S _ => sqrt (sigma (heap W p) * sigma (heap W p)
                   + INR k * (tau (self W) * tau (self W)))
    end.
Proof.
  intros drift k. subst drift k.
  rewrite for_teams_drift_eq, drift_teams_concat. cbn [fst snd].
  destruct (drift_team_sigma (concat teams) W p) as (_ & _ & Hname & Hmu & Hsig).
  auto.
Qed.

(** ** Players that are not rated *)

Lemma step_next_le W call : (next W <= next (step W call))%nat.
Proof.
  destruct call as [n|teams ranks rr]; cbn [step].
  - cbn. lia.
  - rewrite (rate_keeps_next (next W)) by reflexivity. lia.
Qed.

Lemma step_frame W call p :
  (p < next W)%nat -> ~ rates p call -> heap (step W call) p = heap W p.
Proof.
  intros Hp Hr. destruct call as [n|teams ranks rr]; cbn [step].
  - cbn. apply heap_set_other. lia.
  - apply rate_frame.
    intros team Hteam Hin. apply Hr. cbn. eauto.
Qed.

Lemma run_frame calls : forall W p,
  (p < next W)%nat -> Forall (fun call => ~ rates p call) calls ->
  heap (run W calls) p = heap W p.
Proof.
  unfold run. induction calls as [|call calls IH]; intros W p Hp Hall; [reflexivity|].
  inversion Hall as [|? ? Hcall Hall']; subst. cbn [fold_left].
  rewrite IH; [now apply step_frame | | exact Hall'].
  pose proof (step_next_le W call). lia.
Qed.

(** X17: a player keeps exactly the prior [make_player] gave it for as long
    as no [rate] call lists it, whatever else happens on the environment:
    other players created, other matches rated, calls that raise. *)
Theorem unrated_player_keeps_its_prior
    (W : World) (calls1 calls2 : list Call) (n : string) :
  let p := next (run W calls1) in
  Forall (fun call => ~ rates p call) calls2 ->
  heap (run W (calls1 ++ CallMakePlayer n :: calls2)) p
  = {| name := n; mu := mu0 (self W); sigma := sigma0 (self W) |}.
Proof.
  intros p Hall. unfold run. rewrite fold_left_app. cbn [fold_left].
  fold (run W calls1).
  set (W1 := run W calls1) in *.
  change (fold_left step calls2 (step W1 (CallMakePlayer n)))
    with (run (step W1 (CallMakePlayer n)) calls2).
  rewrite run_frame; [| cbn; lia | exact Hall].
  cbn [step make_player snd heap]. subst p. rewrite heap_set_same.
  unfold W1. now rewrite run_keeps_self.
Qed.

Lemma unrated_player_keeps_its_prior_witness :
  heap (run (initial_world default_env no_players)
          ([CallMakePlayer "A"; CallMakePlayer "B"]
           ++ CallMakePlayer "C"
              :: [CallRate [[0%nat]; [1%nat]] [0%Z; 1%Z] false])) 2%nat
  = {| name := "C"; mu := mu0 default_env; sigma := sigma0 default_env |}.
Proof.
  apply (unrated_player_keeps_its_prior (initial_world default_env no_players)
           [CallMakePlayer "A"; CallMakePlayer "B"]
           [CallRate [[0%nat]; [1%nat]] [0%Z; 1%Z] false] "C").
  constructor; [|constructor].
  intros (team & [<-|[<-|[]]] & [H|[]]); discriminate.
Defined.

(** ** The Gaussian integral from above *)

Module GaussUpper.
Import Erf GaussTail.

(** The integral of a continuous function is a primitive of it. *)
Lemma dl_cont_int f (Hc : continuity f) c :
  derivable_pt_lim (fun x => cont_int f Hc 0 x) c (f c).
Proof.
  assert (h : c - 1 <= c + 1) by lra.
  assert (C0 : forall x, c - 1 <= x <= c + 1 -> continuity_pt f x)
    by (intros; apply Hc).
  set (P := primitive h (FTC_P1 h C0)).
  set (k := cont_int f Hc (c - 1) 0).
  apply (derivable_pt_lim_locally_ext (fun z => P z - fct_cte k z)
           (fun x => cont_int f Hc 0 x) c (c - 1) (c + 1)).
  - lra.
  - intros z Hz. unfold P, primitive, k, fct_cte, cont_int.
    destruct (Rle_dec (c - 1) z) as [H0|H0]; [|lra].
    destruct (Rle_dec z (c + 1)) as [H1|H1]; [|lra].
    rewrite <- (RiemannInt_P26 (cont_integrable f Hc (c - 1) 0)
                  (cont_integrable f Hc 0 z)
                  (FTC_P1 h C0 H0 H1)).
    ring.
  - eapply dl_eq.
    + apply (derivable_pt_lim_minus P (fct_cte k) c (f c) 0).
      * apply RiemannInt_P27. lra.
      * apply derivable_pt_lim_const.
    + ring.
Qed.

Lemma cont_int_nonneg f (Hc : continuity f) a b :
  a <= b -> (forall x, a < x < b -> 0 <= f x) -> 0 <= cont_int f Hc a b.
Proof.
  intros Hab Hf.
  assert (H0 : continuity (fun _ : R => 0)) by (intros x; apply continuity_pt_const; intros ? ?; reflexivity).
  replace 0 with (cont_int (fun _ => 0) H0 a b).
  - now apply cont_int_le.
  - rewrite (cont_int_FTC _ H0 (fun _ => 0) a b Hab); [ring|].
    intros x _. apply derivable_pt_lim_const.
Qed.

Lemma one_plus_sq_pow_pos n u : 0 < (1 + u * u) ^ n.
Proof. apply pow_lt. nra. Qed.

Lemma dl_rat n x :
  derivable_pt_lim (fun u => 1 / (1 + u * u) ^ n) x
    ((0 * (1 + x * x) ^ n - INR n * (1 + x * x) ^ pred n * (2 * x) * 1)
     / ((1 + x * x) ^ n)²).
Proof.
  apply (derivable_pt_lim_div (fct_cte 1) (fun u => (1 + u * u) ^ n) x 0
           (INR n * (1 + x * x) ^ pred n * (2 * x))).
  - apply derivable_pt_lim_const.
  - apply (dl_pow (fun u => 1 + u * u) x (2 * x) n).
    eapply dl_eq.
    + apply (derivable_pt_lim_plus (fct_cte 1) (fun u => u * u) x 0 (1 * x + x * 1)).
      * apply derivable_pt_lim_const.
      * apply (derivable_pt_lim_mult id id x 1 1); apply derivable_pt_lim_id.
    + ring.
  - pose proof (one_plus_sq_pow_pos n x). lra.
Qed.

Lemma rat_continuity n : continuity (fun u => 1 / (1 + u * u) ^ n).
Proof. eapply dl_continuity. intros x. apply dl_rat. Qed.

Lemma rat_scaled_continuity n k :
  continuity (fun u => (fun v => 1 / (1 + v * v) ^ n) (u / k)).
Proof.
  intros x.
  apply (continuity_pt_comp (fun u => u / k) (fun v => 1 / (1 + v * v) ^ n)).
  - unfold Rdiv. apply continuity_pt_mult.
    + apply derivable_continuous_pt, derivable_pt_id.
    + apply continuity_pt_const. intros ? ?. reflexivity.
  - apply rat_continuity.
Qed.

(** [exp (- u^2) <= (1 + u^2 / n) ^ (- n)]. *)
Lemma gauss_le_rat n u :
  (0 < n)%nat ->
  gauss u <= 1 / (1 + u / sqrt (INR n) * (u / sqrt (INR n))) ^ n.
Proof.
  intros Hn.
  assert (Hn' : 0 < INR n) by now apply lt_0_INR.
  assert (Hk : 0 < sqrt (INR n)) by now apply sqrt_lt_R0.
  assert (Hkk : sqrt (INR n) * sqrt (INR n) = INR n) by (apply sqrt_sqrt; lra).
  set (k := sqrt (INR n)) in *.
  set (x := u / k * (u / k)).
  assert (Hx : 0 <= x) by (unfold x; nra).
  assert (Hpow : (1 + x) ^ n <= exp (u * u)).
  { replace (u * u) with (INR n * x).
    - rewrite <- exp_pow_INR. apply pow_incr. split; [lra|]. apply exp_ineq1_le.
    - unfold x. rewrite <- Hkk. field. lra. }
  assert (Hpos : 0 < (1 + x) ^ n) by (apply pow_lt; lra).
  unfold gauss. rewrite exp_Ropp. unfold Rdiv. rewrite Rmult_1_l.
  apply Rinv_le_contravar; assumption.
Qed.


Lemma cos_atan_pow m x : cos (atan x) ^ (2 * m) = 1 / (1 + x * x) ^ m.
Proof.
  rewrite pow_mult, cos_atan. unfold Rsqr.
  assert (Hpos : 0 < 1 + x * x) by nra.
  assert (Hs : 0 < sqrt (1 + x * x)) by now apply sqrt_lt_R0.
  assert (Hss : sqrt (1 + x * x) * sqrt (1 + x * x) = 1 + x * x)
    by (apply sqrt_sqrt; lra).
  replace ((1 / sqrt (1 + x * x)) ^ 2) with (1 / (1 + x * x)).
  - unfold Rdiv. rewrite !Rmult_1_l. apply pow_inv.
  - rewrite <- Hss at 1. simpl. field. lra.
Qed.

Lemma W_nonneg n : 0 <= W n.
Proof.
  unfold W. apply cont_int_nonneg; [apply PI2_pos|].
  intros x Hx. unfold sinpow. apply pow_le.
  apply sin_ge_0; pose proof PI_RGT_0; lra.
Qed.

(** By [u = tan theta]: the integral of [(1 + u^2) ^ (- m - 1)] over
    [0, Y] is a part of the Wallis integral of [sin ^ (2 m)]. *)
Lemma rat_int_le_W m Y :
  0 <= Y ->
  cont_int (fun u => 1 / (1 + u * u) ^ S m) (rat_continuity (S m)) 0 Y
  <= W (2 * m).
Proof.
  intros HY.
  set (S0 := fun x => cont_int (sinpow (2 * m)) (sinpow_continuity (2 * m)) 0 x).
  set (g := fun y => - S0 (PI / 2 - atan y)).
  rewrite (cont_int_FTC _ (rat_continuity (S m)) g 0 Y HY).
  - unfold g. rewrite atan_0, Rminus_0_r.
    change (S0 (PI / 2)) with (W (2 * m)).
    assert (0 <= S0 (PI / 2 - atan Y)).
    { unfold S0. pose proof (atan_bound Y) as [_ Hb].
      apply cont_int_nonneg; [lra|].
      intros x Hx. unfold sinpow. apply pow_le.
      pose proof (atan_bound 0) as Hb0. rewrite atan_0 in Hb0.
      assert (0 <= atan Y).
      { destruct HY as [HY|<-]; [|rewrite atan_0; lra].
        left. rewrite <- atan_0. now apply atan_increasing. }
      apply sin_ge_0; pose proof PI_RGT_0; lra. }
    lra.
  - intros x _. unfold g.
    assert (Hh : derivable_pt_lim (fun y => PI / 2 - atan y) x (0 - / (1 + x ^ 2))).
    { apply (derivable_pt_lim_minus (fct_cte (PI / 2)) atan x 0 (/ (1 + x ^ 2))).
      - apply derivable_pt_lim_const.
      - apply derivable_pt_lim_atan. }
    pose proof (derivable_pt_lim_comp (fun y => PI / 2 - atan y) S0 x _ _ Hh
                  (dl_cont_int (sinpow (2 * m)) (sinpow_continuity (2 * m))
                     (PI / 2 - atan x))) as Hc.
    pose proof (derivable_pt_lim_opp _ _ _ Hc) as Ho.
    eapply dl_eq; [exact Ho|].
    unfold sinpow. rewrite sin_shift, cos_atan_pow.
    assert (Hp : 0 < (1 + x * x) ^ m) by apply one_plus_sq_pow_pos.
    simpl. field. split; [lra | nra].
Qed.

(** The square of the integral is at most [PI / 4] with a factor that
    tends to 1. *)
Lemma G_sq_upper_n y m :
  0 <= y -> G y * G y <= PI / 4 * (1 + / (INR m + 1)).
Proof.
  intros Hy.
  set (n := S (S m)).
  assert (Hn : (0 < n)%nat) by (unfold n; lia).
  assert (Hn' : 0 < INR n) by now apply lt_0_INR.
  assert (Hk : 0 < sqrt (INR n)) by now apply sqrt_lt_R0.
  assert (Hkk : sqrt (INR n) * sqrt (INR n) = INR n) by (apply sqrt_sqrt; lra).
  set (k := sqrt (INR n)) in *.
  assert (HG0 : 0 <= G y).
  { unfold G, gauss_int. apply cont_int_nonneg; [exact Hy|].
    intros x _. left. apply gauss_pos. }
  assert (H1 : G y <= k * W (2 * S m)).
  { apply Rle_trans with
      (cont_int (fun u => (fun v => 1 / (1 + v * v) ^ n) (u / k))
         (rat_scaled_continuity n k) 0 y).
    - unfold G, gauss_int. apply cont_int_le; [exact Hy|].
      intros x _. apply gauss_le_rat. exact Hn.
    - replace y with (k * (y / k)) at 1 by (field; lra).
      rewrite (cont_int_scale (fun v => 1 / (1 + v * v) ^ n) k (y / k)
                 (rat_continuity n) (rat_scaled_continuity n k) Hk).
      + apply Rmult_le_compat_l; [lra|]. unfold n. apply rat_int_le_W.
        apply Rmult_le_pos; [exact Hy | left; now apply Rinv_0_lt_compat].
      + apply Rmult_le_pos; [exact Hy | left; now apply Rinv_0_lt_compat]. }
  assert (HW : W (2 * S m) * W (2 * S m) <= PI / 2 / (2 * INR m + 2)).
  { replace (2 * S m)%nat with (2 * m + 2)%nat by lia.
    pose proof (W_product m) as Hp.
    pose proof (W_decreasing (2 * m + 1)) as Hd.
    replace (S (2 * m + 1)) with (2 * m + 2)%nat in Hd by lia.
    pose proof (W_nonneg (2 * m + 2)) as H0.
    pose proof (pos_INR m) as Hm.
    assert (Hle : W (2 * m + 2) * W (2 * m + 2) <= W (2 * m + 1) * W (2 * m + 2))
      by (apply Rmult_le_compat_r; assumption).
    apply Rle_trans with (W (2 * m + 1) * W (2 * m + 2)); [exact Hle|].
    right. rewrite <- Hp. field. lra. }
  pose proof (W_nonneg (2 * S m)) as HW0.
  pose proof (pos_INR m) as Hm.
  assert (H2 : G y * G y <= k * W (2 * S m) * (k * W (2 * S m))).
  { apply Rmult_le_compat; try assumption. }
  replace (k * W (2 * S m) * (k * W (2 * S m)))
    with (INR n * (W (2 * S m) * W (2 * S m))) in H2 by (rewrite <- Hkk; ring).
  apply Rle_trans with (INR n * (PI / 2 / (2 * INR m + 2))).
  - eapply Rle_trans; [exact H2|]. apply Rmult_le_compat_l; [lra | exact HW].
  - right. unfold n. rewrite !S_INR. field. lra.
Qed.

(** The integral of [exp (- u^2)] over [0, y] stays below [sqrt PI / 2]. *)
Theorem G_upper y : G y <= sqrt PI / 2.
Proof.
  assert (Hpi : 0 < PI) by apply PI_RGT_0.
  assert (Hsp : 0 < sqrt PI) by now apply sqrt_lt_R0.
  assert (Hss : sqrt PI * sqrt PI = PI) by (apply sqrt_sqrt; lra).
  destruct (Rle_lt_dec 0 y) as [Hy|Hy].
  - assert (Hsq : G y * G y <= PI / 4).
    { destruct (Rle_lt_dec (G y * G y) (PI / 4)) as [H|H]; [exact H|]. exfalso.
      set (d := G y * G y - PI / 4) in *.
      assert (Hd : 0 < d) by (unfold d; lra).
      destruct (archimed_cor1 (d / (PI / 4)) ltac:(apply Rdiv_lt_0_compat; lra))
        as (N & HN & HN0).
      pose proof (G_sq_upper_n y N Hy) as Hb.
      assert (HNR : 0 < INR N) by now apply lt_0_INR.
      assert (Hinv : / (INR N + 1) <= / INR N).
      { apply Rinv_le_contravar; lra. }
      assert (Hq : PI / 4 * / INR N < d).
      { apply Rmult_lt_reg_r with (/ (PI / 4)); [apply Rinv_0_lt_compat; lra|].
        replace (PI / 4 * / INR N * / (PI / 4)) with (/ INR N) by (field; lra).
        exact HN. }
      assert (PI / 4 * / (INR N + 1) <= PI / 4 * / INR N)
        by (apply Rmult_le_compat_l; lra).
      unfold d in *. lra. }
    assert (HG0 : 0 <= G y).
    { unfold G, gauss_int. apply cont_int_nonneg; [exact Hy|].
      intros x _. left. apply gauss_pos. }
    destruct (Rle_lt_dec (G y) (sqrt PI / 2)) as [H|H]; [exact H|]. exfalso.
    assert (sqrt PI / 2 * (sqrt PI / 2) < G y * G y).
    { apply Rmult_le_0_lt_compat; lra. }
    lra.
  - rewrite <- (Ropp_involutive y), G_odd.
    assert (0 <= G (- y)).
    { unfold G, gauss_int. apply cont_int_nonneg; [lra|].
      intros x _. left. apply gauss_pos. }
    lra.
Qed.

End GaussUpper.

(** ** [_Phi] is a probability *)

Lemma erf_le_1 x : Erf.erf x <= 1.
Proof.
  unfold Erf.erf. change (Erf.gauss_int 0 x) with (GaussTail.G x).
  pose proof (GaussUpper.G_upper x) as H.
  assert (Hpi : 0 < PI) by apply PI_RGT_0.
  assert (Hsp : 0 < sqrt PI) by now apply sqrt_lt_R0.
  assert (H2 : 0 < 2 / sqrt PI) by (apply Rdiv_lt_0_compat; lra).
  apply Rle_trans with (2 / sqrt PI * (sqrt PI / 2)).
  - apply Rmult_le_compat_l; lra.
  - right. field. lra.
Qed.

Lemma Phi_le_1 x : _Phi x <= 1.
Proof. unfold _Phi. pose proof (erf_le_1 (x / _SQRT2)). lra. Qed.

Lemma Phi_lt_1 x : _Phi x < 1.
Proof.
  apply Rlt_le_trans with (_Phi (x + 1)); [apply Phi_increasing; lra|].
  apply Phi_le_1.
Qed.

Lemma Phi_pos x : 0 < _Phi x.
Proof.
  pose proof (Phi_lt_1 (- x)) as H. rewrite Phi_opp in H. lra.
Qed.

(** ** Bounds on the truncation moments *)

Lemma sqrt_2PI_split : _SQRT_2PI = sqrt 2 * sqrt PI.
Proof. unfold _SQRT_2PI. apply sqrt_mult; [lra | left; apply PI_RGT_0]. Qed.

(** [_phi] is the derivative of [_Phi]. *)
Lemma dl_Phi t : derivable_pt_lim _Phi t (_phi t).
Proof.
  assert (Hpi : 0 < PI) by apply PI_RGT_0.
  assert (Hsp : 0 < sqrt PI) by now apply sqrt_lt_R0.
  assert (Hs2 : 0 < sqrt 2) by (apply sqrt_lt_R0; lra).
  assert (Hs2s : sqrt 2 * sqrt 2 = 2) by (apply sqrt_sqrt; lra).
  assert (Hin : derivable_pt_lim (fun x => x / _SQRT2) t (/ _SQRT2)).
  { eapply GaussTail.dl_eq.
    - apply (derivable_pt_lim_mult id (fct_cte (/ _SQRT2)) t 1 0).
      + apply derivable_pt_lim_id.
      + apply derivable_pt_lim_const.
    - unfold fct_cte, id. ring. }
  pose proof (derivable_pt_lim_comp (fun x => x / _SQRT2) GaussTail.G t _ _ Hin
                (GaussTail.dl_G_all (t / _SQRT2))) as Hc.
  pose proof (derivable_pt_lim_scal _ (2 / sqrt PI) t _ Hc) as Hs.
  pose proof (derivable_pt_lim_plus (fct_cte 1) _ t 0 _
                (derivable_pt_lim_const 1 t) Hs) as Hp.
  pose proof (derivable_pt_lim_scal _ 0.5 t _ Hp) as Hf.
  eapply GaussTail.dl_eq; [exact Hf|].
  unfold _phi, Erf.gauss, _SQRT2. rewrite sqrt_2PI_split.
  replace (- (t / sqrt 2 * (t / sqrt 2))) with (- 0.5 * t * t).
  - generalize (exp (- 0.5 * t * t)). intros E.
    replace 0.5 with (1 / 2) by lra. field. lra.
  - replace (t / sqrt 2 * (t / sqrt 2)) with (t * t / (sqrt 2 * sqrt 2))
      by (field; lra).
    rewrite Hs2s. lra.
Qed.

Lemma dl_phi t : derivable_pt_lim _phi t (- t * _phi t).
Proof.
  assert (Hin : derivable_pt_lim (fun x => - 0.5 * x * x) t (- t)).
  { eapply GaussTail.dl_eq.
    - apply (derivable_pt_lim_mult (fun x => - 0.5 * x) id t (- 0.5) 1).
      + eapply GaussTail.dl_eq.
        * apply (derivable_pt_lim_scal id (- 0.5) t 1). apply derivable_pt_lim_id.
        * ring.
      + apply derivable_pt_lim_id.
    - unfold id. lra. }
  pose proof (derivable_pt_lim_comp (fun x => - 0.5 * x * x) exp t _ _ Hin
                (derivable_pt_lim_exp (- 0.5 * t * t))) as Hc.
  pose proof (derivable_pt_lim_scal _ (/ _SQRT_2PI) t _ Hc) as Hs.
  eapply GaussTail.dl_eq.
  - eapply derivable_pt_lim_ext; [|exact Hs].
    intros x. unfold mult_real_fct, comp, _phi. unfold Rdiv. ring.
  - unfold _phi, Rdiv. ring.
Qed.

(** A function with a non-negative derivative does not decrease. *)
Lemma nondecreasing_of_dl f f' :
  (forall x, derivable_pt_lim f x (f' x)) -> (forall x, 0 <= f' x) ->
  forall a b, a <= b -> f a <= f b.
Proof.
  intros Hd Hpos a b [Hab|<-]; [|lra].
  destruct (MVT_cor2 f f' a b Hab (fun c _ => Hd c)) as (c & E & _).
  pose proof (Hpos c). nra.
Qed.

(** ... and is non-negative if it is at least [- 2 / |s|] far to the
    left. *)
Lemma nonneg_of_left_limit f f' :
  (forall x, derivable_pt_lim f x (f' x)) -> (forall x, 0 <= f' x) ->
  (forall s, s <= -1 -> - (2 / - s) <= f s) ->
  forall t, 0 <= f t.
Proof.
  intros Hd Hpos Hlim t.
  destruct (Rle_lt_dec 0 (f t)) as [H|H]; [exact H|]. exfalso.
  set (e := - f t) in *.
  assert (He : 0 < e) by (unfold e; lra).
  set (s := - (Rmax (Rmax 1 (- t)) (2 / e) + 1)).
  assert (H1 : 1 <= Rmax (Rmax 1 (- t)) (2 / e)).
  { eapply Rle_trans; [apply (Rmax_l 1 (- t)) | apply Rmax_l]. }
  assert (H2 : - t <= Rmax (Rmax 1 (- t)) (2 / e)).
  { eapply Rle_trans; [apply (Rmax_r 1 (- t)) | apply Rmax_l]. }
  assert (H3 : 2 / e <= Rmax (Rmax 1 (- t)) (2 / e)) by apply Rmax_r.
  assert (Hs1 : s <= -1) by (unfold s; lra).
  assert (Hst : s <= t) by (unfold s; lra).
  pose proof (Hlim s Hs1) as Hfs.
  pose proof (nondecreasing_of_dl f f' Hd Hpos s t Hst) as Hmono.
  assert (Hbig : 2 / e < - s) by (unfold s; lra).
  assert (Hq : 2 / - s < e).
  { apply Rmult_lt_reg_r with (- s); [lra|].
    replace (2 / - s * - s) with 2 by (field; lra).
    apply Rmult_lt_reg_r with (/ e); [now apply Rinv_0_lt_compat|].
    replace (e * - s * / e) with (- s) by (field; lra).
    exact Hbig. }
  unfold e in *. lra.
Qed.

(** [_phi s <= 2 / s^2]. *)
Lemma phi_decay s : s <> 0 -> _phi s <= 2 / (s * s).
Proof.
  intros Hs.
  assert (Hss : 0 < s * s) by nra.
  assert (H1 : 1 <= _SQRT_2PI).
  { unfold _SQRT_2PI. rewrite <- sqrt_1. apply sqrt_le_1_alt.
    pose proof PI2_1. lra. }
  assert (He : exp (- 0.5 * s * s) <= 2 / (s * s)).
  { replace (- 0.5 * s * s) with (- (s * s / 2)) by lra. rewrite exp_Ropp.
    pose proof (exp_ineq1_le (s * s / 2)) as Hx.
    replace (2 / (s * s)) with (/ (s * s / 2)) by (field; lra).
    apply Rinv_le_contravar; lra. }
  unfold _phi.
  apply Rle_trans with (exp (- 0.5 * s * s) / 1); [|lra].
  unfold Rdiv. apply Rmult_le_compat_l; [left; apply exp_pos|].
  apply Rinv_le_contravar; lra.
Qed.

Lemma phi_le_1 s : _phi s <= 1.
Proof.
  assert (H1 : 1 <= _SQRT_2PI).
  { unfold _SQRT_2PI. rewrite <- sqrt_1. apply sqrt_le_1_alt.
    pose proof PI2_1. lra. }
  unfold _phi.
  assert (He : exp (- 0.5 * s * s) <= 1).
  { rewrite <- exp_0. destruct (Req_dec s 0) as [->|Hs].
    - right. f_equal. ring.
    - left. apply exp_increasing. nra. }
  apply Rle_trans with (exp (- 0.5 * s * s) / 1); [|lra].
  unfold Rdiv. apply Rmult_le_compat_l; [left; apply exp_pos|].
  apply Rinv_le_contravar; lra.
Qed.

(** The sharper Mills bound: [Phi t * (1 + t^2) + t * phi t >= 0]. *)
Lemma mills_second t : 0 <= _Phi t * (1 + t * t) + t * _phi t.
Proof.
  apply (nonneg_of_left_limit
           (fun t => _Phi t * (1 + t * t) + t * _phi t)
           (fun t => 2 * (_phi t + t * _Phi t))).
  - intros x.
    assert (Hsq : derivable_pt_lim (fun u => 1 + u * u) x (2 * x)).
    { eapply GaussTail.dl_eq.
      - apply (derivable_pt_lim_plus (fct_cte 1) (fun u => u * u) x 0 (1 * x + x * 1)).
        + apply derivable_pt_lim_const.
        + apply (derivable_pt_lim_mult id id x 1 1); apply derivable_pt_lim_id.
      - ring. }
    pose proof (derivable_pt_lim_mult _ _ x _ _ (dl_Phi x) Hsq) as H1.
    pose proof (derivable_pt_lim_mult id _phi x 1 _ (derivable_pt_lim_id x)
                  (dl_phi x)) as H2.
    pose proof (derivable_pt_lim_plus _ _ x _ _ H1 H2) as H3.
    eapply GaussTail.dl_eq; [exact H3|]. unfold id. cbv beta. ring.
  - intros x. pose proof (mills_ratio x). lra.
  - intros s Hs.
    pose proof (Phi_pos s) as HP. pose proof (phi_decay s ltac:(lra)) as Hd.
    assert (Hss : 0 < s * s) by nra.
    assert (Hq : s * _phi s >= s * (2 / (s * s))) by nra.
    replace (s * (2 / (s * s))) with (- (2 / - s)) in Hq by (field; lra).
    nra.
Qed.

(** [Phi^2 - phi^2 - t phi Phi >= 0]: the variance multiplier is at most 1. *)
Lemma truncation_variance_bound t :
  0 <= _Phi t * _Phi t - _phi t * _phi t - t * _phi t * _Phi t.
Proof.
  apply (nonneg_of_left_limit
           (fun t => _Phi t * _Phi t - _phi t * _phi t - t * _phi t * _Phi t)
           (fun t => _phi t * (_Phi t * (1 + t * t) + t * _phi t))).
  - intros x.
    pose proof (derivable_pt_lim_mult _ _ x _ _ (dl_Phi x) (dl_Phi x)) as H1.
    pose proof (derivable_pt_lim_mult _ _ x _ _ (dl_phi x) (dl_phi x)) as H2.
    pose proof (derivable_pt_lim_mult id _phi x 1 _ (derivable_pt_lim_id x)
                  (dl_phi x)) as H3.
    pose proof (derivable_pt_lim_mult _ _ x _ _ H3 (dl_Phi x)) as H4.
    pose proof (derivable_pt_lim_minus _ _ x _ _
                  (derivable_pt_lim_minus _ _ x _ _ H1 H2) H4) as H5.
    eapply GaussTail.dl_eq; [exact H5|]. unfold mult_fct, id. cbv beta. ring.
  - intros x. apply Rmult_le_pos; [left; apply phi_pos | apply mills_second].
  - intros s Hs.
    pose proof (Phi_pos s) as HP. pose proof (phi_pos s) as Hp.
    pose proof (phi_decay s ltac:(lra)) as Hd. pose proof (phi_le_1 s) as H1.
    assert (Hss : 1 <= s * s) by nra.
    assert (H2 : 2 / (s * s) <= 2 / - s).
    { unfold Rdiv. apply Rmult_le_compat_l; [lra|].
      apply Rinv_le_contravar; nra. }
    assert (Hsq : _phi s * _phi s <= 2 / - s) by nra.
    assert (0 <= - s * _phi s * _Phi s).
    { apply Rmult_le_pos; [apply Rmult_le_pos|]; lra. }
    nra.
Qed.

Lemma w_truncate_le_1 t : _w_truncate t <= 1.
Proof.
  destruct (Rlt_dec (_Phi t) 1e-12) as [Hg|Hg].
  - rewrite w_truncate_guarded by exact Hg. lra.
  - unfold _w_truncate, _v_truncate. cbv zeta.
    destruct (Rlt_dec (_Phi t) 1e-12) as [H|_]; [contradiction|].
    pose proof (Phi_pos t) as HP.
    pose proof (truncation_variance_bound t) as Hk.
    apply Rmult_le_reg_r with (_Phi t * _Phi t); [nra|].
    replace (_phi t / _Phi t * (_phi t / _Phi t + t) * (_Phi t * _Phi t))
      with (_phi t * _phi t + t * _phi t * _Phi t) by (field; lra).
    lra.
Qed.

(** ** How much one match can teach *)

Lemma fold_add_ge_member {A} (f : A -> R) (l : list A) (x : A) :
  (forall y, 0 <= f y) -> In x l ->
  f x <= fold_left (fun acc y => acc + f y) l 0.
Proof.
  intros Hf. induction l as [|y l IH]; intros Hin; [destruct Hin|].
  cbn [fold_left]. rewrite fold_add_shift.
  destruct Hin as [->|Hin].
  - pose proof (fold_add_ge f l Hf 0). lra.
  - specialize (IH Hin). specialize (Hf y). lra.
Qed.

(** With [trust >= 0], the variance under [c] is at least the variance of
    any one player of the two teams plus [beta^2]. *)
Lemma pair_variance_ge_member slf h tw tl p :
  0 <= trust slf -> In p (tw ++ tl) ->
  sigma (h p) * sigma (h p) + beta slf * beta slf <= pair_variance slf h tw tl.
Proof.
  intros Ht Hin. unfold pair_variance, add_perf_noise, sum_over. cbv zeta.
  set (f := fun q : loc => sigma (h q) * sigma (h q)).
  set (g := fun q : loc =>
              beta slf * beta slf + trust slf * (sigma (h q) * sigma (h q))).
  assert (Hf : forall q, 0 <= f q) by (intros q; unfold f; nra).
  assert (Hg : forall q, 0 <= g q).
  { intros q. unfold g. specialize (Hf q). unfold f in Hf. nra. }
  assert (Hgb : forall q, beta slf * beta slf <= g q).
  { intros q. unfold g. specialize (Hf q). unfold f in Hf. nra. }
  change (fold_left (fun acc q => acc + sigma (h q) * sigma (h q)) tw 0)
    with (fold_left (fun acc q => acc + f q) tw 0).
  change (fold_left (fun acc q => acc + sigma (h q) * sigma (h q)) tl 0)
    with (fold_left (fun acc q => acc + f q) tl 0).
  change (fold_left
            (fun acc q =>
               acc + (beta slf * beta slf + trust slf * (sigma (h q) * sigma (h q))))
            tl
            (fold_left
               (fun acc q =>
                  acc + (beta slf * beta slf
                         + trust slf * (sigma (h q) * sigma (h q))))
               tw 0))
    with (fold_left (fun acc q => acc + g q) tl
            (fold_left (fun acc q => acc + g q) tw 0)).
  rewrite (fold_add_shift g tl).
  pose proof (fold_add_ge f tw Hf 0) as F1.
  pose proof (fold_add_ge f tl Hf 0) as F2.
  pose proof (fold_add_ge g tw Hg 0) as G1.
  pose proof (fold_add_ge g tl Hg 0) as G2.
  change (f p + beta slf * beta slf
          <= fold_left (fun acc q => acc + f q) tw 0
             + fold_left (fun acc q => acc + f q) tl 0
             + (fold_left (fun acc q => acc + g q) tw 0
                + fold_left (fun acc q => acc + g q) tl 0)).
  apply in_app_or in Hin as [Hin|Hin].
  - pose proof (fold_add_ge_member f tw p Hf Hin).
    pose proof (fold_add_ge_member g tw p Hg Hin).
    specialize (Hgb p). lra.
  - pose proof (fold_add_ge_member f tl p Hf Hin).
    pose proof (fold_add_ge_member g tl p Hg Hin).
    specialize (Hgb p). lra.
Qed.

(** X20: one win/loss update adds at most [1 / beta^2] to the precision
    [1 / sigma^2] of a player: on teams without a repeated or shared
    player, with [beta <> 0] and [trust >= 0], the new variance is at least
    [sigma^2 * beta^2 / (sigma^2 + beta^2)]. *)
Theorem win_loss_update_keeps_part_of_the_variance
    (tw tl : list loc) (collect : bool) (W : World) (p : loc) :
  NoDup (tw ++ tl) ->
  beta (self W) <> 0 -> 0 <= trust (self W) ->
  In p (tw ++ tl) ->
  let s := sigma (heap W p) in
  let b := beta (self W) in
  let s' := sigma (heap (snd (_rate_two_teams tw tl false collect W)) p) in
  s * s * (b * b) / (s * s + b * b) <= s' * s'.
Proof.
  intros Hnd Hb Ht Hin s b s'.
  assert (Hne : tw ++ tl <> []) by (intros E; rewrite E in Hin; destruct Hin).
  pose proof (pair_variance_pos (self W) (heap W) tw tl Hb Ht Hne) as Hvar.
  pose proof (pair_variance_ge_member (self W) (heap W) tw tl p Ht Hin) as Hge.
  fold s b in Hge.
  destruct (rate_two_teams_closed_form tw tl false collect W Hnd Hvar)
    as (W' & E & _ & _ & Hw & Hl & _).
  cbv zeta in Hw, Hl.
  set (c := pair_c (self W) (heap W) tw tl) in *.
  set (w := _w_truncate (pair_t (self W) (heap W) tw tl)) in *.
  assert (Hcc : c * c = pair_variance (self W) (heap W) tw tl).
  { unfold c, pair_c. apply sqrt_sqrt. lra. }
  assert (Hs' : s' * s' = Rmax 1e-9 (s * s * (1 - s * s / (c * c) * w))).
  { unfold s'. rewrite E. cbn [snd].
    assert (Hupd : exists winner,
               heap W' p = updated winner c
                             (_v_truncate (pair_t (self W) (heap W) tw tl)) w
                             (heap W p)).
    { apply in_app_or in Hin as [Hin|Hin]; [exists true; now apply Hw
                                           | exists false; now apply Hl]. }
    destruct Hupd as [winner ->]. unfold updated. cbn [sigma].
    fold s. apply sqrt_sqrt.
    eapply Rle_trans; [|apply Rmax_l]. lra. }
  rewrite Hs'.
  eapply Rle_trans; [|apply Rmax_r].
  assert (Hbb : 0 < b * b) by (unfold b; nra).
  assert (Hss : 0 <= s * s) by nra.
  assert (Hw0 : 0 <= w <= 1).
  { unfold w. split; [apply w_truncate_nonneg | apply w_truncate_le_1]. }
  assert (Hcpos : 0 < c * c) by lra.
  assert (Hfrac : s * s / (c * c) * w <= s * s / (s * s + b * b)).
  { apply Rle_trans with (s * s / (c * c) * 1).
    - apply Rmult_le_compat_l; [|lra].
      apply Rmult_le_pos; [exact Hss | left; now apply Rinv_0_lt_compat].
    - rewrite Rmult_1_r. unfold Rdiv. apply Rmult_le_compat_l; [exact Hss|].
      apply Rinv_le_contravar; lra. }
  replace (s * s * (b * b) / (s * s + b * b))
    with (s * s * (1 - s * s / (s * s + b * b))) by (field; lra).
  apply Rmult_le_compat_l; [exact Hss | lra].
Qed.

Lemma win_loss_update_keeps_part_of_the_variance_witness :
  let W := two_fresh_players default_env in
  let s := sigma (heap W 0%nat) in
  let b := beta (self W) in
  let s' := sigma (heap (snd (_rate_two_teams [0%nat] [1%nat] false false W))
                     0%nat) in
  s * s * (b * b) / (s * s + b * b) <= s' * s'.
Proof.
  apply (win_loss_update_keeps_part_of_the_variance [0%nat] [1%nat] false
           (two_fresh_players default_env) 0%nat).
  - apply NoDup_ListNoDup. repeat constructor; simpl; intuition discriminate.
  - change (25 / 6 <> 0). lra.
  - change (0 <= 0). lra.
  - now left.
Defined.

(** * Statements that hold in binary64 as well

    The theorems below are stated so that they do not depend on the
    exactness of real arithmetic: no strict inequality that rounding can
    turn into an equality, no bound below the resolution of binary64. *)

(** ** What binary64 does at the edges *)

Module Binary64Facts.
Import PrimFloat.
#[local] Set Warnings "-inexact-float".
#[local] Open Scope float_scope.

(** C6 fails in binary64.  A player created with [sigma0 = 1e-200 > 0] in
    an environment with [tau = 0.0]: the square underflows and
    [_apply_drift] writes the sigma 0.0.  A call that then raises leaves it
    there: in [rate([[A], [], []], ranks=[1, 0, 0])] the first pairwise
    update is between the two empty teams, [c] is 0.0 and the division by
    [c] raises [ZeroDivisionError]; so it does in a one-versus-one match
    when [beta = 1e-200].  With [tau] a NaN, [_apply_drift] writes a NaN
    whatever the sigma was. *)
Lemma drift_can_write_zero_or_nan :
  (0 <? 1e-200) = true /\
  Binary64.drift_sigma 1e-200 0 = 0 /\
  (0 <? Binary64.drift_sigma 1e-200 0) = false /\
  Binary64.c (25 / 6) 0 [] [] = 0 /\
  Binary64.c 1e-200 0
    [Binary64.drift_sigma 1e-200 0] [Binary64.drift_sigma 1e-200 0] = 0 /\
  is_nan (Binary64.drift_sigma (25 / 3) nan) = true /\
  (0 <? Binary64.drift_sigma (25 / 3) nan) = false.
Proof. repeat split; reflexivity. Qed.

(** Draw probabilities below the resolution of binary64 around 1 give
    the search of [_draw_margin] the target of the draw probability 0.0,
    and so the same margin. *)
Lemma tiny_draw_probabilities_share_a_target :
  Binary64.draw_margin_target 0 = 0.5 /\
  Binary64.draw_margin_target 1e-30 = 0.5 /\
  Binary64.draw_margin_target 2e-30 = 0.5.
Proof. repeat split; reflexivity. Qed.

(** From [sigma0 = 1e-150] on the drift gives the sigma back when
    [tau = 0.0], and the update never writes less than [sqrt(1e-9)],
    NaN included: [max(1e-9, x)] is [1e-9] unless [x > 1e-9]. *)
Lemma drift_and_floor_in_binary64 :
  Binary64.drift_sigma 1e-150 0 = 1e-150 /\
  Binary64.max 1e-9 nan = 1e-9 /\
  Binary64.max 1e-9 0 = 1e-9 /\
  (3e-5 <? sqrt (Binary64.max 1e-9 nan)) = true.
Proof. repeat split; reflexivity. Qed.

(** The match of two fresh default players, [t = 0.0]: both sigmas go from
    [25/3] to about 7.19, and the two mus move by the same [d] up to the
    last bit: around [mu0 = 30] the differences [p.mu - old_mu] that the
    report records are not opposite. *)
Lemma default_match_in_binary64 :
  let s := Binary64.drift_sigma (25 / 3) (25 / 300) in
  let c := Binary64.c (25 / 6) 0 [s] [s] in
  let v := Binary64._v_truncate_at_0 in
  let w := Binary64._w_truncate_at_0 in
  (Binary64.new_sigma s c w <? 7.2) = true /\
  (Binary64.new_mu_winner 25 s c v - 25
   =? - (Binary64.new_mu_loser 25 s c v - 25)) = true /\
  (Binary64.new_mu_winner 30 s c v - 30
   =? - (Binary64.new_mu_loser 30 s c v - 30)) = false.
Proof. repeat split; reflexivity. Qed.

(** With [sigma0 = 1e-4], [tau = 0.0] and [beta = 1e4] the factor
    [1.0 - (sigma2 / (c * c)) * w] rounds to 1.0 and the update writes the
    sigma it read. *)
Lemma large_beta_update_is_lost :
  let s := Binary64.drift_sigma 1e-4 0 in
  let c := Binary64.c 1e4 0 [s] [s] in
  s = 1e-4 /\ Binary64.new_sigma s c Binary64._w_truncate_at_0 = s.
Proof. repeat split; reflexivity. Qed.

(** With [sigma0 = 0.5] and the default [tau] and [beta] the drift adds
    more variance than the update removes. *)
Lemma small_prior_grows_in_binary64 :
  let s := Binary64.drift_sigma 0.5 (25 / 300) in
  let c := Binary64.c (25 / 6) 0 [s] [s] in
  (0.505 <? Binary64.new_sigma s c Binary64._w_truncate_at_0) = true.
Proof. reflexivity. Qed.

End Binary64Facts.

(** ** The positivity of sigma *)


Lemma sigma_floor_above_3e5 : 3e-5 <= sqrt 1e-9.
Proof.
  rewrite <- (sqrt_square 3e-5) by lra. apply sqrt_le_1_alt. lra.
Qed.

Lemma drift_keeps_sigma_bound m q p :
  0 <= m ->
  preserves (fun W => m <= sigma (heap W q)) (_apply_drift p).
Proof.
  intros Hm W HW. rewrite apply_drift_eq. cbn [snd heap]. unfold heap_set.
  destruct (Nat.eq_dec q p) as [->|_]; [|exact HW]. cbn [sigma].
  set (s := sigma (heap W p)) in *.
  apply Rle_trans with s; [exact HW|].
  rewrite <- (sqrt_square s) at 1 by lra.
  apply sqrt_le_1_alt. nra.
Qed.

Lemma update_keeps_sigma_bound m q (winner : bool) c v w
    (d : gmap string R * gmap string R) p :
  m <= sqrt 1e-9 ->
  preserves (fun W => m <= sigma (heap W q)) (update_player winner c v w d p).
Proof.
  intros Hm W HW. rewrite update_player_eq. cbn [snd heap]. unfold heap_set.
  destruct (Nat.eq_dec q p) as [->|_]; [|exact HW]. cbn [sigma].
  eapply Rle_trans; [exact Hm|]. apply sqrt_le_1_alt, Rmax_l.
Qed.

Lemma step_keeps_sigma_bound m W call :
  0 <= m -> m <= sqrt 1e-9 -> m <= sigma0 (self W) ->
  (forall p, (p < next W)%nat -> m <= sigma (heap W p)) ->
  forall p, (p < next (step W call))%nat -> m <= sigma (heap (step W call) p).
Proof.
  intros Hm0 Hm Hs0 Hinv. destruct call as [n|teams ranks rr]; cbn [step].
  - intros p Hp. cbn in *. unfold heap_set.
    destruct (Nat.eq_dec p (next W)); cbn [sigma]; [exact Hs0|].
    apply Hinv. lia.
  - intros p Hp. rewrite (rate_keeps_next (next W)) in Hp by reflexivity.
    apply (preserves_rate (fun W => m <= sigma (heap W p))).
    + intros q. now apply drift_keeps_sigma_bound.
    + intros. now apply update_keeps_sigma_bound.
    + now apply Hinv.
Qed.

Lemma run_keeps_sigma_bound m calls : forall W,
  0 <= m -> m <= sqrt 1e-9 -> m <= sigma0 (self W) ->
  (forall p, (p < next W)%nat -> m <= sigma (heap W p)) ->
  forall p, (p < next (run W calls))%nat -> m <= sigma (heap (run W calls) p).
Proof.
  unfold run. induction calls as [|call calls IH]; intros W Hm0 Hm Hs0 Hinv;
    cbn [fold_left]; [exact Hinv|].
  apply IH; auto.
  - now rewrite step_keeps_self.
  - now apply step_keeps_sigma_bound.
Qed.

(** C6, as the code has it: in an environment built with [sigma0 >= 1e-150]
    (so that [sigma0 * sigma0] does not underflow in binary64) and
    [tau >= 0], every player created by [make_player] has, after any sequence of
    [make_player] and [rate] calls, returned or raised, a sigma that is
    positive and at least the smaller of [sigma0] and [3e-5]: the drift
    never lowers a sigma, and every update writes at least the floor
    [sqrt 1e-9], which is above [3e-5]. *)
Theorem sigma_stays_positive
    (env : TrueSkillEnv) (h : Heap) (calls : list Call) (p : loc) :
  1e-150 <= sigma0 env -> 0 <= tau env ->
  (p < next (run (initial_world env h) calls))%nat ->
  0 < sigma (heap (run (initial_world env h) calls) p) /\
  Rmin (sigma0 env) 3e-5 <= sigma (heap (run (initial_world env h) calls) p).
Proof.
  intros Hs0 _ Hp.
  assert (Hmin : 0 < Rmin (sigma0 env) 3e-5).
  { apply Rmin_glb_lt; lra. }
  assert (Hb : Rmin (sigma0 env) 3e-5
               <= sigma (heap (run (initial_world env h) calls) p)).
  { apply (run_keeps_sigma_bound (Rmin (sigma0 env) 3e-5) calls
             (initial_world env h)); auto.
    - lra.
    - eapply Rle_trans; [apply Rmin_r | apply sigma_floor_above_3e5].
    - apply Rmin_l.
    - intros q Hq. cbn in Hq. lia. }
  split; [lra | exact Hb].
Qed.

Lemma sigma_stays_positive_witness :
  0 < sigma
        (heap
           (run (initial_world default_env no_players)
              [CallMakePlayer "A"; CallMakePlayer "B";
               CallRate [[0%nat]; [1%nat]] [0%Z; 1%Z] false])
           0%nat).
Proof.
  refine (proj1 (sigma_stays_positive default_env no_players
                   [CallMakePlayer "A"; CallMakePlayer "B";
                    CallRate [[0%nat]; [1%nat]] [0%Z; 1%Z] false] 0%nat _ _ _)).
  - change (1e-150 <= 25 / 3). lra.
  - change (0 <= 25 / 300). lra.
  - unfold run. cbn [fold_left]. cbn [step].
    rewrite (rate_keeps_next 2%nat); [lia | reflexivity].
Defined.
(** ** The draw margin *)

Lemma Phi_monotone x y : x <= y -> _Phi x <= _Phi y.
Proof.
  intros [H|<-]; [|lra]. left. now apply Phi_increasing.
Qed.

(** [_Phi] grows at most as fast as its argument: its derivative [_phi] is
    at most 1. *)
Lemma Phi_lipschitz a b : a <= b -> _Phi b - _Phi a <= b - a.
Proof.
  intros [Hab|<-]; [|lra].
  destruct (MVT_cor2 _Phi _phi a b Hab (fun c _ => dl_Phi c)) as (c & E & _).
  pose proof (phi_le_1 c). pose proof (phi_pos c). nra.
Qed.

Lemma pow2_80 : 2 ^ 80 = 1208925819614629174706176.
Proof. rewrite (pow_IZR 2 80). apply f_equal. reflexivity. Qed.

(** The width of the bracket after eighty steps. *)
Lemma search_resolution : 0 < (10 - -10) / 2 ^ 80 <= 2e-23.
Proof. rewrite pow2_80. lra. Qed.

(** What the search returns for a target that [_Phi] reaches on the
    bracket: the two ends [z - r] and [z + r] of the last bracket, [r]
    half its width, enclose the target. *)
Lemma draw_margin_bracket beta dp :
  _Phi (-10) < (dp + 1) / 2 <= _Phi 10 ->
  exists z r,
    _draw_margin beta dp = z * sqrt 2 * beta /\
    0 < r <= 1e-23 /\
    _Phi (z - r) < (dp + 1) / 2 <= _Phi (z + r).
Proof.
  intros [Hlo' Hhi'].
  destruct (bisect_bracket ((dp + 1) / 2) 80 (-10) 10 ltac:(lra))
    as (_ & _ & Hw & Hlo & Hhi).
  specialize (Hlo Hlo'). specialize (Hhi Hhi').
  rewrite draw_margin_eq.
  destruct (bisect 80 ((dp + 1) / 2) (-10) 10) as [lo hi].
  cbn [fst snd] in *.
  pose proof search_resolution as Hres.
  set (w := (10 - -10) / 2 ^ 80) in *. clearbody w.
  exists ((lo + hi) / 2), (w / 2). split; [reflexivity|].
  split; [lra|].
  replace ((lo + hi) / 2 - w / 2) with lo by lra.
  replace ((lo + hi) / 2 + w / 2) with hi by lra.
  lra.
Qed.

Lemma Phi_at_minus_10 dp : 0 <= dp -> _Phi (-10) < (dp + 1) / 2.
Proof. intros H. pose proof (Phi_neg (-10) ltac:(lra)). lra. Qed.

Lemma Phi_at_10 dp : dp <= 1 - 1e-15 -> (dp + 1) / 2 <= _Phi 10.
Proof. intros H. pose proof Phi_10_lower. lra. Qed.

Lemma margin_scale beta x y :
  0 < beta -> (x < y -> x * sqrt 2 * beta < y * sqrt 2 * beta) /\
              (x <= y -> x * sqrt 2 * beta <= y * sqrt 2 * beta).
Proof.
  intros Hb.
  assert (Hs2 : 0 < sqrt 2) by (apply sqrt_lt_R0; lra).
  assert (Hsb : 0 < sqrt 2 * beta) by now apply Rmult_lt_0_compat.
  split; intros H; rewrite !Rmult_assoc.
  - now apply Rmult_lt_compat_r.
  - apply Rmult_le_compat_r; lra.
Qed.

Lemma sqrt2_le_3_2 : sqrt 2 <= 3 / 2.
Proof.
  rewrite <- (sqrt_square (3 / 2)) by lra. apply sqrt_le_1_alt. lra.
Qed.

Lemma sqrt2_ge_7_5 : 7 / 5 <= sqrt 2.
Proof.
  rewrite <- (sqrt_square (7 / 5)) by lra. apply sqrt_le_1_alt. lra.
Qed.

(** Two probabilities at least [1e-12] apart get different margins. *)
Lemma draw_margin_separates beta p1 p2 :
  0 < beta -> 0 <= p1 -> p2 <= 1 - 1e-15 -> p1 + 1e-12 <= p2 ->
  _draw_margin beta p1 < _draw_margin beta p2.
Proof.
  intros Hb Hp1 Hp2 Hgap.
  destruct (draw_margin_bracket beta p1) as (z1 & r1 & -> & Hr1 & Hlo1 & _).
  { split; [now apply Phi_at_minus_10 | apply Phi_at_10; lra]. }
  destruct (draw_margin_bracket beta p2) as (z2 & r2 & -> & Hr2 & _ & Hhi2).
  { split; [apply Phi_at_minus_10; lra | now apply Phi_at_10]. }
  apply (margin_scale beta z1 z2 Hb).
  destruct (Rlt_le_dec z1 z2) as [H|H]; [exact H|]. exfalso.
  assert (Hle : z2 + r2 <= z1 - r1 + 2e-23) by lra.
  pose proof (Phi_monotone _ _ Hle) as Hm.
  pose proof (Phi_lipschitz (z1 - r1) (z1 - r1 + 2e-23) ltac:(lra)) as Hl.
  lra.
Qed.

(** C7, as the code has it: for [beta > 0], [_draw_margin beta 0] is within
    [1e-15 * beta] of zero, on its negative side; [_draw_margin beta] is
    non-decreasing in the draw probability; and it is strictly increasing
    across any two probabilities of [0, 1 - 1e-15] that are at least
    [1e-12] apart.  Below the resolution of the search two probabilities
    can share a margin (see the counterexample). *)
Theorem draw_margin_zero_and_monotone (beta p1 p2 : R) :
  0 < beta -> p1 <= p2 ->
  Rabs (_draw_margin beta 0) <= 1e-15 * beta /\
  _draw_margin beta 0 <= 0 /\
  _draw_margin beta p1 <= _draw_margin beta p2 /\
  (0 <= p1 -> p2 <= 1 - 1e-15 -> p1 + 1e-12 <= p2 ->
   _draw_margin beta p1 < _draw_margin beta p2).
Proof.
  intros Hb Hp.
  assert (H0 : - (1e-15 * beta) <= _draw_margin beta 0 <= 0).
  { rewrite draw_margin_0.
    pose proof search_resolution as Hres.
    replace ((10 - -10) / 2 ^ 80) with (2 * (10 / 2 ^ 80)) in Hres
      by (unfold Rdiv; ring).
    set (r := 10 / 2 ^ 80) in *. clearbody r.
    pose proof sqrt2_le_3_2 as Hs. pose proof (sqrt_pos 2) as Hs0.
    assert (0 <= r * sqrt 2 <= 1e-15) by nra.
    replace (- r * sqrt 2 * beta) with (- (r * sqrt 2 * beta)) by ring.
    split; [|nra].
    apply Ropp_le_contravar. apply Rmult_le_compat_r; lra. }
  split; [apply Rabs_le; lra|]. split; [lra|].
  split; [apply draw_margin_monotone; lra|].
  intros Hp1 Hp2 Hgap. now apply draw_margin_separates.
Qed.

Lemma draw_margin_zero_and_monotone_witness :
  _draw_margin (25 / 6) 0.10 < _draw_margin (25 / 6) 0.20.
Proof.
  refine (proj2 (proj2 (proj2
            (draw_margin_zero_and_monotone (25 / 6) 0.10 0.20 _ _))) _ _ _);
    lra.
Defined.

(** X4: for [beta > 0] and a draw probability between 0 and [1 - 1e-15] the
    margin is the one the docstring asks for: with
    [z = eps / (sqrt 2 * beta)], the probability [2 * Phi z - 1] of a draw
    between equal players is the requested [draw_probability] to within
    [1e-12]. *)
Theorem draw_margin_inverts_the_cdf (beta dp : R) :
  0 < beta -> 0 <= dp <= 1 - 1e-15 ->
  Rabs (2 * _Phi (_draw_margin beta dp / (sqrt 2 * beta)) - 1 - dp) <= 1e-12.
Proof.
  intros Hb [Hdp0 Hdp1].
  assert (Hs2 : 0 < sqrt 2) by (apply sqrt_lt_R0; lra).
  destruct (draw_margin_bracket beta dp) as (z & r & -> & Hr & Hlo & Hhi).
  { split; [now apply Phi_at_minus_10 | now apply Phi_at_10]. }
  replace (z * sqrt 2 * beta / (sqrt 2 * beta)) with z by (field; lra).
  pose proof (Phi_monotone (z - r) z ltac:(lra)) as M1.
  pose proof (Phi_monotone z (z + r) ltac:(lra)) as M2.
  pose proof (Phi_lipschitz (z - r) (z + r) ltac:(lra)) as L.
  apply Rabs_le. lra.
Qed.

Lemma draw_margin_inverts_the_cdf_witness :
  Rabs (2 * _Phi (_draw_margin (25 / 6) 0.10 / (sqrt 2 * (25 / 6))) - 1 - 0.10)
  <= 1e-12.
Proof.
  exact (draw_margin_inverts_the_cdf (25 / 6) 0.10 ltac:(lra) ltac:(lra)).
Defined.

Lemma bisect_in_bracket target n : forall lo hi,
  lo <= hi ->
  lo <= fst (bisect n target lo hi) /\ snd (bisect n target lo hi) <= hi /\
  fst (bisect n target lo hi) <= snd (bisect n target lo hi).
Proof.
  intros lo hi Hle.
  destruct (bisect_bracket target n lo hi Hle) as (H1 & H2 & H3 & _).
  assert (0 <= (hi - lo) / 2 ^ n).
  { apply Rmult_le_pos; [lra|]. left. apply Rinv_0_lt_compat, pow_lt. lra. }
  lra.
Qed.

(** X5: for [beta > 0] the margin stays within [15 * beta] of zero
    whatever the draw probability (the search never leaves [-10, 10], and
    [10 * sqrt 2 < 15]); it is at least [draw_probability * beta / 2] for a
    probability between [1e-12] and [1 - 1e-15], and not positive for a
    probability that is zero or negative. *)
Theorem draw_margin_sign_and_range (beta dp : R) :
  0 < beta ->
  Rabs (_draw_margin beta dp) <= 15 * beta /\
  (1e-12 <= dp <= 1 - 1e-15 -> dp * beta / 2 <= _draw_margin beta dp) /\
  (dp <= 0 -> _draw_margin beta dp <= 0).
Proof.
  intros Hb.
  assert (Hs2 : 0 < sqrt 2) by (apply sqrt_lt_R0; lra).
  pose proof sqrt2_le_3_2 as Hs32.
  assert (Hs1 : 1 <= sqrt 2).
  { rewrite <- sqrt_1 at 1. apply sqrt_le_1_alt. lra. }
  split; [|split].
  - rewrite draw_margin_eq.
    destruct (bisect_in_bracket ((dp + 1) / 2) 80 (-10) 10 ltac:(lra))
      as (H1 & H2 & H3).
    destruct (bisect 80 ((dp + 1) / 2) (-10) 10) as [lo hi].
    cbn [fst snd] in *.
    set (z := (lo + hi) / 2).
    assert (Hz : -10 <= z <= 10) by (unfold z; lra).
    apply Rabs_le.
    assert (Hzs : -15 <= z * sqrt 2 <= 15) by nra.
    split; nra.
  - intros [Hdp0 Hdp1].
    destruct (draw_margin_bracket beta dp) as (z & r & -> & Hr & _ & Hhi).
    { split; [apply Phi_at_minus_10; lra | now apply Phi_at_10]. }
    assert (Hzr : 0 <= z + r).
    { destruct (Rle_lt_dec 0 (z + r)) as [H|H]; [exact H|].
      pose proof (Phi_neg _ H). lra. }
    pose proof (Phi_lipschitz 0 (z + r) Hzr) as L. rewrite Phi_0 in L.
    assert (Hz : dp / 2 - r <= z) by lra.
    assert (Hz' : dp / 2 <= z * sqrt 2).
    { assert (0 <= z) by lra.
      apply Rle_trans with (z * (7 / 5)); [lra|].
      apply Rmult_le_compat_l; [lra | apply sqrt2_ge_7_5]. }
    replace (dp * beta / 2) with (dp / 2 * beta) by (unfold Rdiv; ring).
    apply Rmult_le_compat_r; lra.
  - intros Hdp.
    apply Rle_trans with (_draw_margin beta 0).
    + apply draw_margin_monotone; lra.
    + rewrite draw_margin_0.
      assert (0 < 10 / 2 ^ 80).
      { apply Rdiv_lt_0_compat; [lra | apply pow_lt; lra]. }
      set (r := 10 / 2 ^ 80) in *. clearbody r.
      assert (0 <= r * sqrt 2 * beta) by (repeat apply Rmult_le_pos; lra).
      replace (- r * sqrt 2 * beta) with (- (r * sqrt 2 * beta)) by ring.
      lra.
Qed.

Lemma draw_margin_sign_and_range_witness :
  0.10 * (25 / 6) / 2 <= _draw_margin (25 / 6) 0.10.
Proof.
  refine (proj1 (proj2 (draw_margin_sign_and_range (25 / 6) 0.10 _)) _); lra.
Defined.

(** ** The normal law and the truncation moments *)

(** X18: [_Phi] is the distribution function of a symmetric law: its values
    lie between 0 and 1, it is non-decreasing, and
    [_Phi (- x) = 1 - _Phi x]; [_phi] is non-negative and even.  Within six
    standard deviations of zero the bounds are strict: [_Phi] is strictly
    between 0 and 1 and [_phi] is positive. *)
Theorem Phi_is_a_distribution_function (x y : R) :
  0 <= _Phi x <= 1 /\
  (x <= y -> _Phi x <= _Phi y) /\
  _Phi (- x) = 1 - _Phi x /\
  0 <= _phi x /\ _phi (- x) = _phi x /\
  (-6 <= x <= 6 -> 0 < _Phi x < 1 /\ 0 < _phi x).
Proof.
  pose proof (Phi_pos x) as HP. pose proof (Phi_lt_1 x) as HP1.
  pose proof (phi_pos x) as Hp.
  split; [lra|].
  split; [apply Phi_monotone|].
  split; [apply Phi_opp|].
  split; [lra|].
  split; [apply phi_even|].
  intros _. lra.
Qed.

Lemma Phi_is_a_distribution_function_witness :
  _Phi 0 <= _Phi 1 /\ 0 < _Phi 0 < 1.
Proof.
  split.
  - refine (proj1 (proj2 (Phi_is_a_distribution_function 0 1)) _). lra.
  - refine (proj1 (proj2 (proj2 (proj2 (proj2 (proj2
              (Phi_is_a_distribution_function 0 1))))) _)). lra.
Defined.

(** X19: the two moments of the win/loss truncation are in range for every
    [t], guard included: [v] is non-negative and at least [- t], and [w]
    lies between 0 and 1, so that [1 - sigma^2 / c^2 * w] never exceeds 1
    and the update never multiplies a variance by more than 1.  Up to
    [t = 30], [v] is positive. *)
Theorem truncation_moments_are_in_range (t : R) :
  0 <= _v_truncate t /\ - t <= _v_truncate t /\
  0 <= _w_truncate t <= 1 /\
  (t <= 30 -> 0 < _v_truncate t).
Proof.
  pose proof (v_truncate_pos_all t) as Hv.
  split; [lra|]. split; [|split].
  - unfold _v_truncate. cbv zeta.
    destruct (Rlt_dec (_Phi t) 1e-12) as [_|Hg]; [lra|].
    pose proof (Phi_pos t) as HP. pose proof (mills_ratio t) as Hm.
    apply Rmult_le_reg_r with (_Phi t); [exact HP|].
    replace (_phi t / _Phi t * _Phi t) with (_phi t) by (field; lra).
    lra.
  - split; [apply w_truncate_nonneg | apply w_truncate_le_1].
  - intros _. exact Hv.
Qed.

Lemma truncation_moments_are_in_range_witness : 0 < _v_truncate 0.
Proof.
  refine (proj2 (proj2 (proj2 (truncation_moments_are_in_range 0))) _). lra.
Defined.

(** ** A win between equal priors, across [rate] *)

(** The heap after the drift of [a] and then of [b]. *)
Lemma drift_two_singletons W a b :
  a <> b ->
  let Wd := drift_team (drift_team W [a]) [b] in
  self Wd = self W /\ next Wd = next W /\
  heap Wd a = drifted (self W) (heap W a) /\
  heap Wd b = drifted (self W) (heap W b).
Proof.
  intros Hab. cbv zeta. rewrite !drift_team_single. cbn [self heap next].
  repeat split.
  - rewrite heap_set_other by exact Hab. now rewrite heap_set_same.
  - rewrite heap_set_same. now rewrite heap_set_other by auto.
Qed.

(** A win of [x] over [y], two players with the same mu [m] and the same
    sigma [sd]: [t] is zero and both are updated with the moments at 0. *)
Lemma one_vs_one_equal_update x y (collect : bool) W m sd c2 :
  x <> y ->
  mu (heap W x) = m -> mu (heap W y) = m ->
  sigma (heap W x) = sd -> sigma (heap W y) = sd ->
  c2 = sd * sd + sd * sd
       + (beta (self W) * beta (self W) + trust (self W) * (sd * sd))
       + (beta (self W) * beta (self W) + trust (self W) * (sd * sd)) ->
  0 < c2 ->
  exists r W',
    _rate_two_teams [x] [y] false collect W = (Return r, W') /\
    mu (heap W' x) = m + sd * sd / sqrt c2 * _v_truncate 0 /\
    mu (heap W' y) = m - sd * sd / sqrt c2 * _v_truncate 0 /\
    sigma (heap W' x)
    = sqrt (Rmax 1e-9 (sd * sd * (1 - sd * sd / c2 * _w_truncate 0))) /\
    sigma (heap W' y)
    = sqrt (Rmax 1e-9 (sd * sd * (1 - sd * sd / c2 * _w_truncate 0))).
Proof.
  intros Hxy Hmx Hmy Hsx Hsy Ec2 Hc2.
  assert (Evar : pair_variance (self W) (heap W) [x] [y] = c2).
  { rewrite pair_variance_one_vs_one, Hsx, Hsy. now rewrite Ec2. }
  assert (Hvar : 0 < pair_variance (self W) (heap W) [x] [y]) by now rewrite Evar.
  assert (Ec : pair_c (self W) (heap W) [x] [y] = sqrt c2).
  { unfold pair_c. now rewrite Evar. }
  assert (Ht : pair_t (self W) (heap W) [x] [y] = 0).
  { rewrite pair_t_one_vs_one, Hmx, Hmy. unfold Rdiv. ring. }
  pose proof (rate_one_vs_one x y false collect W Hxy Hvar) as E.
  cbv zeta in E. rewrite E. clear E.
  eexists _, _. split; [reflexivity|].
  cbn [heap]. rewrite heap_set_same.
  rewrite (heap_set_other _ y _ x) by exact Hxy. rewrite heap_set_same.
  cbn [mu sigma]. rewrite Ht, Ec, Hmx, Hmy, Hsx, Hsy.
  rewrite (sqrt_sqrt c2) by lra.
  repeat split; reflexivity.
Qed.

(** The variance left by the drift and a win/loss update at [t = 0], when
    the drift is small against what the update removes. *)
Lemma sigma_after_drift_and_update s t2 c2 w :
  4e-5 <= s -> 0 <= t2 -> 0 < c2 -> 1 / 2 <= w ->
  4 * t2 * c2 <= (s * s + t2) * (s * s + t2) ->
  sqrt (Rmax 1e-9 ((s * s + t2) * (1 - (s * s + t2) / c2 * w))) < s.
Proof.
  intros Hs Ht2 Hc2 Hw Hsmall.
  set (q := s * s + t2) in *.
  assert (Hq : 0 < q) by (unfold q; nra).
  assert (Hqq : 0 < q * q / c2).
  { apply Rdiv_lt_0_compat; [nra | exact Hc2]. }
  assert (Ht : 4 * t2 <= q * q / c2).
  { apply Rmult_le_reg_r with c2; [exact Hc2|].
    replace (q * q / c2 * c2) with (q * q) by (field; lra). lra. }
  assert (Hx : q * (1 - q / c2 * w) <= q - q * q / c2 / 2).
  { replace (q * (1 - q / c2 * w)) with (q - q * q / c2 * w)
      by (field; lra).
    nra. }
  apply Rlt_le_trans with (sqrt (s * s)); [|right; apply sqrt_square; lra].
  apply sqrt_lt_1_alt. split; [apply Rle_trans with 1e-9; [lra | apply Rmax_l]|].
  apply Rmax_lub_lt; [nra|].
  unfold q in *. lra.
Qed.

(** C8 also fails through the drift: two players created with
    [sigma0 = 0.5] and the default [tau] and [beta] have the same prior,
    and [rate([[A], [B]], ranks=[0, 1])] returns with both sigmas above
    0.5: the drift adds more variance than the update removes. *)
Lemma equal_small_priors_sigma_grows :
  exists r W',
    rate [[0%nat]; [1%nat]] [0%Z; 1%Z] false (two_fresh_players half_sigma_env)
    = (Return r, W') /\
    sigma (heap (two_fresh_players half_sigma_env) 0%nat) = 0.5 /\
    sigma (heap (two_fresh_players half_sigma_env) 1%nat) = 0.5 /\
    0.5 < sigma (heap W' 0%nat) /\
    0.5 < sigma (heap W' 1%nat).
Proof.
  rewrite rate_two_eq. cbv zeta.
  rewrite bool_decide_eq_false_2 by discriminate.
  rewrite bool_decide_eq_true_2 by reflexivity.
  set (W0 := two_fresh_players half_sigma_env).
  destruct (drift_two_singletons W0 0%nat 1%nat ltac:(discriminate))
    as (Eself & _ & Ea & Eb).
  set (Wd := drift_team (drift_team W0 [0%nat]) [1%nat]) in *.
  set (q := 0.5 * 0.5 + 25 / 300 * (25 / 300)).
  assert (Hq : 0 <= q) by (unfold q; lra).
  set (c2 := q + q + (25 / 6 * (25 / 6) + 0 * q) + (25 / 6 * (25 / 6) + 0 * q)).
  destruct (one_vs_one_equal_update 0%nat 1%nat false Wd 25 (sqrt q) c2)
    as (r & W' & E & _ & _ & Es0 & Es1).
  - discriminate.
  - now rewrite Ea.
  - now rewrite Eb.
  - now rewrite Ea.
  - now rewrite Eb.
  - rewrite Eself, (sqrt_sqrt q Hq). reflexivity.
  - unfold c2, q. lra.
  - unfold bind. rewrite E. unfold ret. eexists _, _. split; [reflexivity|].
    split; [reflexivity|]. split; [reflexivity|].
    rewrite Es0, Es1, (sqrt_sqrt q Hq).
    pose proof (w_truncate_le_1 0) as Hw1.
    pose proof w_truncate_0_pos as Hw0.
    assert (Hgrow : 0.5 * 0.5 < q * (1 - q / c2 * _w_truncate 0)).
    { assert (Hqc : 0 < q / c2 < 1 / 100) by (unfold c2, q; lra).
      assert (0 <= q / c2 * _w_truncate 0 <= 1 / 100) by nra.
      assert (0.25 < q * (1 - 1 / 100)) by (unfold q; lra).
      assert (Hq' : 0 < q) by (unfold q; lra).
      nra. }
    assert (Hs : 0.5 < sqrt (Rmax 1e-9 (q * (1 - q / c2 * _w_truncate 0)))).
    { rewrite <- (sqrt_square 0.5) at 1 by lra.
      apply sqrt_lt_1_alt. split; [lra|].
      eapply Rlt_le_trans; [exact Hgrow | apply Rmax_r]. }
    split; exact Hs.
Qed.

(** C8 fails on both sides of the amended statement: below the floor of
    the update (a prior sigma of [1e-5], no drift) and where the drift
    outweighs the update (a prior sigma of 0.5, the default drift), a win
    between equal priors leaves both sigmas larger. *)
Lemma equal_priors_sigma_can_grow :
  (exists r W',
     rate [[0%nat]; [1%nat]] [0%Z; 1%Z] false (two_fresh_players tiny_sigma_env)
     = (Return r, W') /\
     mu (heap (two_fresh_players tiny_sigma_env) 0%nat)
     = mu (heap (two_fresh_players tiny_sigma_env) 1%nat) /\
     sigma (heap (two_fresh_players tiny_sigma_env) 0%nat)
     = sigma (heap (two_fresh_players tiny_sigma_env) 1%nat) /\
     sigma (heap (two_fresh_players tiny_sigma_env) 0%nat) < sigma (heap W' 0%nat) /\
     sigma (heap (two_fresh_players tiny_sigma_env) 1%nat) < sigma (heap W' 1%nat)) /\
  (exists r W',
     rate [[0%nat]; [1%nat]] [0%Z; 1%Z] false (two_fresh_players half_sigma_env)
     = (Return r, W') /\
     sigma (heap (two_fresh_players half_sigma_env) 0%nat) = 0.5 /\
     sigma (heap (two_fresh_players half_sigma_env) 1%nat) = 0.5 /\
     0.5 < sigma (heap W' 0%nat) /\
     0.5 < sigma (heap W' 1%nat)).
Proof.
  split; [exact equal_tiny_priors_sigma_grows | exact equal_small_priors_sigma_grows].
Qed.

(** C8, as the code has it: [rate([[a], [b]], ranks)] with two different
    ranks, between two distinct players with the same mu [m] and the same
    sigma [s].  Write [q = s^2 + tau^2] for the variance after the drift
    and [c2 = 2 q + 2 (beta^2 + trust q)] for the variance of the
    performance difference.  When [s >= 4e-5] (above the floor
    [sqrt 1e-9] of the update), [beta <= 1000 s], [0 <= trust <= 1] and
    [4 tau^2 c2 <= q^2] (the drift is small against what the update
    removes), the call returns; the mu of the winner, the player of lower
    rank, is [m + d] and the mu of the loser is [m - d], for the same
    [d = q / sqrt c2 * v(0) > 0]; and the two sigmas end equal and
    strictly below [s]. *)
Theorem equal_priors_win_loss_update
    (a b : loc) (ra rb : Z) (return_report : bool) (W : World) (m s q c2 : R) :
  a <> b -> ra <> rb ->
  mu (heap W a) = m -> mu (heap W b) = m ->
  sigma (heap W a) = s -> sigma (heap W b) = s ->
  q = s * s + tau (self W) * tau (self W) ->
  c2 = q + q + (beta (self W) * beta (self W) + trust (self W) * q)
       + (beta (self W) * beta (self W) + trust (self W) * q) ->
  4e-5 <= s ->
  beta (self W) * beta (self W) <= 1e6 * (s * s) ->
  0 <= trust (self W) <= 1 ->
  4 * (tau (self W) * tau (self W)) * c2 <= q * q ->
  exists r W',
    rate [[a]; [b]] [ra; rb] return_report W = (Return r, W') /\
    0 < q / sqrt c2 * _v_truncate 0 /\
    mu (heap W' (if bool_decide (ra < rb)%Z then a else b))
    = m + q / sqrt c2 * _v_truncate 0 /\
    mu (heap W' (if bool_decide (ra < rb)%Z then b else a))
    = m - q / sqrt c2 * _v_truncate 0 /\
    sigma (heap W' a) = sigma (heap W' b) /\
    sigma (heap W' a) < s.
Proof.
  intros Hab Hr Hma Hmb Hsa Hsb Eq Ec2 Hs Hbeta Htrust Hsmall.
  assert (Hq : 0 < q) by (rewrite Eq; nra).
  assert (Hc2 : 0 < c2).
  { rewrite Ec2. pose proof (Rle_0_sqr (beta (self W))) as Hb.
    unfold Rsqr in Hb. nra. }
  assert (Hd : 0 < q / sqrt c2 * _v_truncate 0).
  { apply Rmult_lt_0_compat; [|apply v_truncate_0_pos].
    apply Rdiv_lt_0_compat; [exact Hq | now apply sqrt_lt_R0]. }
  assert (Hshrink :
    sqrt (Rmax 1e-9 (q * (1 - q / c2 * _w_truncate 0))) < s).
  { rewrite Eq. apply sigma_after_drift_and_update; auto.
    - pose proof (Rle_0_sqr (tau (self W))) as Ht. unfold Rsqr in Ht. lra.
    - apply w_truncate_0_ge_half.
    - rewrite <- Eq. lra. }
  rewrite rate_two_eq. cbv zeta.
  rewrite bool_decide_eq_false_2 by exact Hr.
  destruct (drift_two_singletons W a b Hab) as (Eself & _ & Ea & Eb).
  set (Wd := drift_team (drift_team W [a]) [b]) in *.
  assert (Esq : sqrt q * sqrt q = q) by (apply sqrt_sqrt; lra).
  assert (Esa : sigma (heap Wd a) = sqrt q).
  { rewrite Ea. cbn [sigma drifted]. now rewrite Hsa, Eq. }
  assert (Esb : sigma (heap Wd b) = sqrt q).
  { rewrite Eb. cbn [sigma drifted]. now rewrite Hsb, Eq. }
  assert (Ema : mu (heap Wd a) = m) by now rewrite Ea.
  assert (Emb : mu (heap Wd b) = m) by now rewrite Eb.
  assert (Ec2' : c2 = sqrt q * sqrt q + sqrt q * sqrt q
                 + (beta (self Wd) * beta (self Wd)
                    + trust (self Wd) * (sqrt q * sqrt q))
                 + (beta (self Wd) * beta (self Wd)
                    + trust (self Wd) * (sqrt q * sqrt q))).
  { now rewrite Eself, Esq. }
  destruct (bool_decide (ra < rb)%Z).
  - destruct (one_vs_one_equal_update a b return_report Wd m (sqrt q) c2
                Hab Ema Emb Esa Esb Ec2' Hc2)
      as (r & W' & E & Emw & Eml & Esw & Esl).
    unfold bind. rewrite E. unfold ret. eexists _, _. split; [reflexivity|].
    rewrite Emw, Eml, Esw, Esl, Esq. auto.
  - destruct (one_vs_one_equal_update b a return_report Wd m (sqrt q) c2
                (not_eq_sym Hab) Emb Ema Esb Esa Ec2' Hc2)
      as (r & W' & E & Emw & Eml & Esw & Esl).
    unfold bind. rewrite E. unfold ret. eexists _, _. split; [reflexivity|].
    rewrite Emw, Eml, Esw, Esl, Esq. auto.
Qed.

Lemma equal_priors_win_loss_update_witness :
  exists r W',
    rate [[0%nat]; [1%nat]] [0%Z; 1%Z] false (two_fresh_players default_env)
    = (Return r, W') /\
    sigma (heap W' 0%nat) = sigma (heap W' 1%nat) /\
    sigma (heap W' 0%nat) < 25 / 3.
Proof.
  pose (q := 25 / 3 * (25 / 3) + 25 / 300 * (25 / 300)).
  pose (c2 := q + q + (25 / 6 * (25 / 6) + 0 * q) + (25 / 6 * (25 / 6) + 0 * q)).
  assert (H : exists r W',
    rate [[0%nat]; [1%nat]] [0%Z; 1%Z] false (two_fresh_players default_env)
    = (Return r, W') /\
    0 < q / sqrt c2 * _v_truncate 0 /\
    mu (heap W' (if bool_decide (0 < 1)%Z then 0%nat else 1%nat))
    = 25 + q / sqrt c2 * _v_truncate 0 /\
    mu (heap W' (if bool_decide (0 < 1)%Z then 1%nat else 0%nat))
    = 25 - q / sqrt c2 * _v_truncate 0 /\
    sigma (heap W' 0%nat) = sigma (heap W' 1%nat) /\
    sigma (heap W' 0%nat) < 25 / 3).
  { apply (equal_priors_win_loss_update 0%nat 1%nat 0%Z 1%Z false
             (two_fresh_players default_env) 25 (25 / 3) q c2).
    - discriminate.
    - discriminate.
    - reflexivity.
    - reflexivity.
    - reflexivity.
    - reflexivity.
    - reflexivity.
    - reflexivity.
    - lra.
    - change (25 / 6 * (25 / 6) <= 1e6 * (25 / 3 * (25 / 3))). lra.
    - change (0 <= 0 <= 1). lra.
    - change (4 * (25 / 300 * (25 / 300)) * c2 <= q * q). unfold c2, q. lra. }
  destruct H as (r & W' & E & _ & _ & _ & Es & Hlt).
  exists r, W'. auto.
Defined.
